(** * ContentDialog: the detached chat window of qTox

    A shallow embedding of [src/widget/contentdialog.cpp]: the contact map,
    the three contact layouts, the active chatroom widget and the operations
    that add, remove, activate and cycle contacts.

    Conventions of the embedding
    - a C++ [int] is a [Z]; [QLayout::count()] is the length of the list of
      widgets the layout holds, [QLayout::itemAt(i)] its [i]-th element;
    - a pointer to a chatroom widget is a [Widget] (its address together
      with what the object is: a friend or a group widget and the contact
      it shows), a nullable pointer an [option Widget]; the values of
      [contactWidgets] are such pointers;
    - a member function that dereferences a null pointer, or a loop that
      does not stop, yields [None]; every operation is a function from the
      dialog state to [option] of the dialog state. *)

From Stdlib Require Import ZArith.
From stdpp Require Import base option list gmap strings.

Local Open Scope Z_scope.
Set Warnings "-clear-no-such-hyp".

(** ** Data model *)

(** [ContactId]: the raw bytes of a friend public key or of a group's
    persistent id; equality and hashing are those of the bytes. *)
Abbreviation ContactId := string (only parsing).

(** The dynamic type of a chatroom widget, as [qobject_cast] sees it. *)
Inductive WidgetKind := FriendWidget | GroupWidget.

(** [Status::Status], as far as this file distinguishes it. *)
Inductive Status := Online | Offline.

(** A chatroom widget object: [wptr] is its address, [wcontact] is
    [getContact()->getPersistentId()]. *)
Record Widget := mkWidget {
  wptr : nat;
  wkind : WidgetKind;
  wcontact : ContactId
}.

(** [GenericChatForm*]: an opaque handle. *)
Abbreviation Form := nat (only parsing).

(** The three [QLayout] objects the dialog cycles through. *)
Inductive LayoutId := LayoutOnline | LayoutGroups | LayoutOffline.

(** Lifecycle of the window: [close()] moves it to [Closing]. *)
Inductive Lifecycle := Open | Closing.

#[global] Instance WidgetKind_eq_dec : EqDecision WidgetKind.
Proof. solve_decision. Defined.
#[global] Instance Status_eq_dec : EqDecision Status.
Proof. solve_decision. Defined.
#[global] Instance Widget_eq_dec : EqDecision Widget.
Proof. solve_decision. Defined.
#[global] Instance LayoutId_eq_dec : EqDecision LayoutId.
Proof. solve_decision. Defined.
#[global] Instance Lifecycle_eq_dec : EqDecision Lifecycle.
Proof. solve_decision. Defined.
#[global] Instance from_option_dec {A} (P : A → Prop) (Q : Prop)
    `{∀ x, Decision (P x)} `{Decision Q} (mx : option A) :
  Decision (from_option P Q mx).
Proof. destruct mx; simpl; apply _. Defined.

(** The members of [ContentDialog] that the modelled operations read or
    write, the [groupchatPosition] setting they consult, and the allocator
    that [new FriendWidget] / [new GroupWidget] draw addresses from. *)
Record ContentDialog := mkDialog {
  contactWidgets : gmap ContactId (option Widget);   (* the pointers may be null *)
  contactChatForms : gmap ContactId Form;
  layoutOnline : list Widget;          (* friendLayout->getLayoutOnline() *)
  layoutOffline : list Widget;         (* friendLayout->getLayoutOffline() *)
  groupLayout : list Widget;           (* groupLayout.getLayout() *)
  layouts : list LayoutId;
  activeChatroomWidget : option Widget;
  contentLayout : option Form;         (* the form shown in the content pane *)
  groupchatPosition : bool;            (* Settings::getGroupchatPosition() *)
  lifecycle : Lifecycle;
  deleteLaterCalled : bool;            (* deleteLater() on the dialog *)
  heapNext : nat
}.

Definition set_contacts (cw : gmap ContactId (option Widget)) (cf : gmap ContactId Form)
    (s : ContentDialog) : ContentDialog :=
  mkDialog cw cf (layoutOnline s) (layoutOffline s) (groupLayout s) (layouts s)
    (activeChatroomWidget s) (contentLayout s) (groupchatPosition s)
    (lifecycle s) (deleteLaterCalled s) (heapNext s).

Definition set_friendLayout (on off : list Widget) (s : ContentDialog) : ContentDialog :=
  mkDialog (contactWidgets s) (contactChatForms s) on off (groupLayout s) (layouts s)
    (activeChatroomWidget s) (contentLayout s) (groupchatPosition s)
    (lifecycle s) (deleteLaterCalled s) (heapNext s).

Definition set_groupLayout (g : list Widget) (s : ContentDialog) : ContentDialog :=
  mkDialog (contactWidgets s) (contactChatForms s) (layoutOnline s) (layoutOffline s) g
    (layouts s) (activeChatroomWidget s) (contentLayout s) (groupchatPosition s)
    (lifecycle s) (deleteLaterCalled s) (heapNext s).

Definition set_layouts (ls : list LayoutId) (s : ContentDialog) : ContentDialog :=
  mkDialog (contactWidgets s) (contactChatForms s) (layoutOnline s) (layoutOffline s)
    (groupLayout s) ls (activeChatroomWidget s) (contentLayout s) (groupchatPosition s)
    (lifecycle s) (deleteLaterCalled s) (heapNext s).

Definition set_active (a : option Widget) (c : option Form) (s : ContentDialog) : ContentDialog :=
  mkDialog (contactWidgets s) (contactChatForms s) (layoutOnline s) (layoutOffline s)
    (groupLayout s) (layouts s) a c (groupchatPosition s)
    (lifecycle s) (deleteLaterCalled s) (heapNext s).

Definition set_lifecycle (l : Lifecycle) (s : ContentDialog) : ContentDialog :=
  mkDialog (contactWidgets s) (contactChatForms s) (layoutOnline s) (layoutOffline s)
    (groupLayout s) (layouts s) (activeChatroomWidget s) (contentLayout s)
    (groupchatPosition s) l (deleteLaterCalled s) (heapNext s).

Definition set_deleteLater (s : ContentDialog) : ContentDialog :=
  mkDialog (contactWidgets s) (contactChatForms s) (layoutOnline s) (layoutOffline s)
    (groupLayout s) (layouts s) (activeChatroomWidget s) (contentLayout s)
    (groupchatPosition s) (lifecycle s) true (heapNext s).

Definition set_heapNext (n : nat) (s : ContentDialog) : ContentDialog :=
  mkDialog (contactWidgets s) (contactChatForms s) (layoutOnline s) (layoutOffline s)
    (groupLayout s) (layouts s) (activeChatroomWidget s) (contentLayout s)
    (groupchatPosition s) (lifecycle s) (deleteLaterCalled s) n.

(** ** Qt containers and layouts *)

(** [QHash::value(key)]: the value stored under [key], or a
    default-constructed value, the null pointer, when there is none. *)
Definition value (m : gmap ContactId (option Widget)) (key : ContactId)
    : option Widget :=
  default None (m !! key).

(** The non-const [QHash::operator[](key)]: as [value], but a key that has
    no entry is first given one, holding the null pointer. *)
Definition subscript (m : gmap ContactId (option Widget)) (key : ContactId)
    : option Widget * gmap ContactId (option Widget) :=
  match m !! key with
  | Some widget => (widget, m)
  | None => (None, <[key := None]> m)
  end.

(** [qobject_cast<FriendWidget*>] and [qobject_cast<GroupWidget*>]: null
    for a null pointer and for a widget of the other kind. *)
Definition qobject_cast (kind : WidgetKind) (widget : option Widget) : option Widget :=
  match widget with
  | Some w => if decide (wkind w = kind) then Some w else None
  | None => None
  end.

(** [QList::indexOf] and the index searches of the layouts: the position of
    the first element equal to [x], or [-1]. *)
Definition indexOf {A} `{EqDecision A} (x : A) (l : list A) : Z :=
  match list_find (λ y, y = x) l with
  | Some (i, _) => Z.of_nat i
  | None => -1
  end.

(** [QLayout::count()]. *)
Definition count (l : list Widget) : Z := Z.of_nat (length l).

(** [QLayout::isEmpty()]: the layouts hold visible chatroom widgets only, so
    a layout is empty exactly when it holds no item. *)
Definition isEmpty (l : list Widget) : bool :=
  match l with [] => true | _ => false end.

(** [QLayout::itemAt(index)->widget()]: [None] when [itemAt] returns null. *)
Definition itemAt (l : list Widget) (index : Z) : option Widget :=
  if index <? 0 then None else l !! Z.to_nat index.

(** The widgets a layout object holds. *)
Definition layoutItems (s : ContentDialog) (l : LayoutId) : list Widget :=
  match l with
  | LayoutOnline => layoutOnline s
  | LayoutGroups => groupLayout s
  | LayoutOffline => layoutOffline s
  end.

(** Modelled from the spec: [GenericChatItemLayout::removeSortedWidget] is
    not part of this file; a display group is an ordered sequence of
    entries and removing an entry takes that widget out of it, leaving the
    order of the others. *)
Fixpoint removeSortedWidget (w : Widget) (l : list Widget) : list Widget :=
  match l with
  | [] => []
  | x :: l' => if decide (x = w) then l' else x :: removeSortedWidget w l'
  end.

(** Modelled from the spec: [GenericChatItemLayout::indexOfSortedWidget] is
    not part of this file; [getCurrentLayout] documents its result as the
    index of the widget in the layout, [-1] standing for a widget the
    layout does not hold (a null pointer is held by no layout). *)
Definition indexOfSortedWidget (w : option Widget) (l : list Widget) : Z :=
  match w with
  | None => -1
  | Some w => indexOf w l
  end.

(** Modelled from the spec: [FriendListLayout::indexOfFriendWidget] is not
    part of this file; it searches the online or the offline grouping. *)
Definition indexOfFriendWidget (s : ContentDialog) (w : option Widget) (online : bool) : Z :=
  indexOfSortedWidget w (if online then layoutOnline s else layoutOffline s).

(** Modelled from the spec: [FriendListLayout::removeFriendWidget] is not
    part of this file; it removes the entry from the grouping of the given
    status. *)
Definition removeFriendWidget (w : Widget) (st : Status) (s : ContentDialog) : ContentDialog :=
  match st with
  | Offline => set_friendLayout (layoutOnline s) (removeSortedWidget w (layoutOffline s)) s
  | Online => set_friendLayout (removeSortedWidget w (layoutOnline s)) (layoutOffline s) s
  end.

(** Modelled from the spec: [FriendListLayout::friendTotalCount] is not part
    of this file; the friends of both groupings. *)
Definition friendTotalCount (s : ContentDialog) : Z :=
  count (layoutOnline s) + count (layoutOffline s).

(** [ContentDialog::chatroomCount]. *)
Definition chatroomCount (s : ContentDialog) : Z :=
  friendTotalCount s + count (groupLayout s).

(** ** Activation *)

(** [ContentDialog::activate]. Past the test of the first line,
    [widget->getContact()] dereferences [widget], which fails for a null
    pointer. The chat form of the widget's contact is fetched with
    [contactChatForms[id]] and shown; a missing entry is a null form, whose
    [show] is a null dereference. The window title and icon are functions
    of the active widget and are not stored. *)
Definition activate (widget : option Widget) (s : ContentDialog) : option ContentDialog :=
  if decide (activeChatroomWidget s = widget) then Some s
  else
    w ← widget;
    form ← contactChatForms s !! wcontact w;
    Some (set_active (Some w) (Some form) s).

(** [ContentDialog::focusCommon], called on [contactWidgets] by
    [ContentDialog::focusContact]: the pointer found under the id, null or
    not, is handed to [activate]. *)
Definition focusCommon (id : ContactId) (list : gmap ContactId (option Widget))
    (s : ContentDialog) : option ContentDialog :=
  match list !! id with
  | None => Some s
  | Some widget => activate widget s
  end.

Definition focusContact (contactId : ContactId) (s : ContentDialog) : option ContentDialog :=
  focusCommon contactId (contactWidgets s) s.

(** [ContentDialog::hasContact]. *)
Definition hasContact (s : ContentDialog) (contactId : ContactId) : bool :=
  bool_decide (is_Some (contactWidgets s !! contactId)).

(** ** Cycling through the contacts *)

(** [ContentDialog::getCurrentLayout]: the layout that holds the active
    widget (the out-parameter, null when there is none) and the index of
    the widget in it. *)
Definition getCurrentLayout (s : ContentDialog) : option LayoutId * Z :=
  let index := indexOfFriendWidget s (activeChatroomWidget s) true in
  if negb (index =? -1) then (Some LayoutOnline, index)
  else
    let index := indexOfFriendWidget s (activeChatroomWidget s) false in
    if negb (index =? -1) then (Some LayoutOffline, index)
    else
      let index := indexOfSortedWidget (activeChatroomWidget s) (groupLayout s) in
      if negb (index =? -1) then (Some LayoutGroups, index)
      else (None, -1).

(** [ContentDialog::nextLayout]. [next] is an [int], [size] a [size_t]:
    the sum [next + size] is computed in 64-bit unsigned arithmetic, which
    is where [next = -1] wraps. *)
Definition nextLayout (s : ContentDialog) (layout : LayoutId) (forward : bool)
    : option LayoutId :=
  let index := indexOf layout (layouts s) in
  if index =? -1 then None
  else
    let next := if forward then index + 1 else index - 1 in
    let size := Z.of_nat (length (layouts s)) in
    let next := ((next + size) mod 2 ^ 64) mod size in
    layouts s !! Z.to_nat next.

(** The condition [nextIsEmpty] of [cycleContacts]. *)
Definition nextIsEmpty (s : ContentDialog) (currentLayout : LayoutId) : bool :=
  let groupsOnTop := groupchatPosition s in
  let offlineEmpty := isEmpty (layoutOffline s) in
  let onlineEmpty := isEmpty (layoutOnline s) in
  let groupsEmpty := isEmpty (groupLayout s) in
  let isCurOffline := bool_decide (currentLayout = LayoutOffline) in
  let isCurOnline := bool_decide (currentLayout = LayoutOnline) in
  let isCurGroup := bool_decide (currentLayout = LayoutGroups) in
  (isCurOnline && offlineEmpty && (groupsEmpty || groupsOnTop))
  || (isCurGroup && offlineEmpty && (onlineEmpty || negb groupsOnTop))
  || isCurOffline.

(** The value of [forward] after the first conditional of [cycleContacts]. *)
Definition cycleDirection (s : ContentDialog) (forward inverse : bool)
    (currentLayout : LayoutId) (index : Z) : bool :=
  if negb inverse && (index =? count (layoutItems s currentLayout) - 1) then
    if nextIsEmpty s currentLayout then negb forward else forward
  else forward.

(** The [while] loop of [cycleContacts]: while [index] is outside the
    current layout, move to the next layout. [fuel] bounds the number of
    iterations; running out of it, or a null [nextLayout], gives [None]. *)
Fixpoint cycleLoop (fuel : nat) (s : ContentDialog) (forward : bool)
    (currentLayout : LayoutId) (index : Z) : option (LayoutId * Z) :=
  if (index <? 0) || (index >=? count (layoutItems s currentLayout)) then
    match fuel with
    | O => None
    | S fuel =>
        let oldCount := count (layoutItems s currentLayout) in
        currentLayout ← nextLayout s currentLayout forward;
        let newCount := count (layoutItems s currentLayout) in
        let index :=
          if index <? 0 then newCount - 1
          else if index >=? oldCount then 0
          else index in
        cycleLoop fuel s forward currentLayout index
    end
  else Some (currentLayout, index).

(** The loop walks over three layout objects: if it has not stopped after
    visiting three of them, it has met one of them twice and never stops. *)
Definition cycleFuel : nat := 3.

(** [ContentDialog::cycleContacts]. Emitting [chatroomWidgetClicked] on a
    widget of this dialog runs the connected slot [activate]. *)
Definition cycleContacts (forward inverse : bool) (s : ContentDialog)
    : option ContentDialog :=
  match getCurrentLayout s with
  | (None, _) => Some s
  | (Some currentLayout, index) =>
      if index =? -1 then Some s
      else
        let forward := cycleDirection s forward inverse currentLayout index in
        let index := index + (if forward then 1 else -1) in
        '(currentLayout, index) ← cycleLoop cycleFuel s forward currentLayout index;
        chatWidget ← itemAt (layoutItems s currentLayout) index;
        if decide (Some chatWidget = activeChatroomWidget s) then Some s
        else activate (Some chatWidget) s
  end.

(** ** Removing contacts *)

(** [ContentDialog::closeIfEmpty]. *)
Definition closeIfEmpty (s : ContentDialog) : ContentDialog :=
  if bool_decide (contactWidgets s = ∅) then set_lifecycle Closing s else s.

(** The part of [removeFriend] / [removeGroup] after the widget has left
    its layout: the test of [chatroomCount()], the removal of the two map
    entries and [closeIfEmpty]. *)
Definition removeEntry (id : ContactId) (s : ContentDialog) : ContentDialog :=
  let s :=
    if chatroomCount s =? 0 then set_deleteLater (set_active None None s)
    else s in
  let s := set_contacts (delete id (contactWidgets s)) (delete id (contactChatForms s)) s in
  closeIfEmpty s.

(** [ContentDialog::removeFriend]. [contactWidgets[friendPk]] is null for
    an absent key (which it enters in the map) and for a key bound to the
    null pointer, and [qobject_cast<FriendWidget*>] is null for a group
    widget; [chatroomWidget->getFriend()] then dereferences null. *)
Definition removeFriend (friendPk : ContactId) (s : ContentDialog) : option ContentDialog :=
  match qobject_cast FriendWidget (subscript (contactWidgets s) friendPk).1 with
  | Some chatroomWidget =>
      s ← (if decide (activeChatroomWidget s = Some chatroomWidget)
           then cycleContacts true false s else Some s);
      let s := removeFriendWidget chatroomWidget Offline s in
      let s := removeFriendWidget chatroomWidget Online s in
      Some (removeEntry friendPk s)
  | None => None
  end.

(** [ContentDialog::removeGroup]; [chatroomWidget->deleteLater()] is the
    dereference that fails on a null [chatroomWidget]. *)
Definition removeGroup (groupId : ContactId) (s : ContentDialog) : option ContentDialog :=
  match qobject_cast GroupWidget (subscript (contactWidgets s) groupId).1 with
  | Some chatroomWidget =>
      s ← (if decide (activeChatroomWidget s = Some chatroomWidget)
           then cycleContacts true false s else Some s);
      let s := set_groupLayout (removeSortedWidget chatroomWidget (groupLayout s)) s in
      Some (removeEntry groupId s)
  | None => None
  end.

(** ** Adding contacts and status updates *)

Section SortedLayouts.

(** Modelled from the spec: [GenericChatItemLayout::indexOfClosestSortedWidget],
    the position at which a layout places a widget, is not part of this
    file. It is a parameter: a display group is an ordered sequence, and
    nothing here depends on which position the ordering picks. *)
Variable closestSortedIndex : Widget → list Widget → nat.

(** Modelled from the spec: [GenericChatItemLayout::addSortedWidget] is not
    part of this file; the widget is inserted at the position the ordering
    picks ([QBoxLayout::insertWidget] appends when the index is beyond the
    end). *)
Definition addSortedWidget (w : Widget) (l : list Widget) : list Widget :=
  let closest := closestSortedIndex w l in
  take closest l ++ w :: drop closest l.

(** Modelled from the spec: [FriendListLayout::addFriendWidget] is not part
    of this file; it is the specification's [setStatus]. The entry is moved
    to the online or the offline grouping according to the status, the
    relative order of the other entries being kept; a status update for a
    contact that is not known is a no-op (section 7 of the specification),
    so for a null widget no entry is moved. *)
Definition friendLayout_addFriendWidget (w : option Widget) (st : Status)
    (s : ContentDialog) : option ContentDialog :=
  match w with
  | None => Some s
  | Some w =>
      let on := removeSortedWidget w (layoutOnline s) in
      let off := removeSortedWidget w (layoutOffline s) in
      Some (match st with
            | Offline => set_friendLayout on (addSortedWidget w off) s
            | Online => set_friendLayout (addSortedWidget w on) off s
            end)
  end.

(** [ContentDialog::addFriend]: [friendPk] and [status] are what the
    chatroom's friend reports. The new widget's [chatroomWidgetClicked] is
    connected to [activate] and emitted. *)
Definition addFriend (friendPk : ContactId) (status : Status) (form : Form)
    (s : ContentDialog) : option (Widget * ContentDialog) :=
  let friendWidget := mkWidget (heapNext s) FriendWidget friendPk in
  let s := set_heapNext (S (heapNext s)) s in
  let s := set_contacts (<[friendPk := Some friendWidget]> (contactWidgets s)) (contactChatForms s) s in
  s ← friendLayout_addFriendWidget (Some friendWidget) status s;
  let s := set_contacts (contactWidgets s) (<[friendPk := form]> (contactChatForms s)) s in
  s ← activate (Some friendWidget) s;
  Some (friendWidget, s).

(** [ContentDialog::addGroup]. *)
Definition addGroup (groupId : ContactId) (form : Form)
    (s : ContentDialog) : option (Widget * ContentDialog) :=
  let groupWidget := mkWidget (heapNext s) GroupWidget groupId in
  let s := set_heapNext (S (heapNext s)) s in
  let s := set_contacts (<[groupId := Some groupWidget]> (contactWidgets s)) (contactChatForms s) s in
  let s := set_groupLayout (addSortedWidget groupWidget (groupLayout s)) s in
  let s := set_contacts (contactWidgets s) (<[groupId := form]> (contactChatForms s)) s in
  s ← activate (Some groupWidget) s;
  Some (groupWidget, s).

(** [ContentDialog::addFriendWidget]. *)
Definition addFriendWidget (widget : option Widget) (status : Status)
    (s : ContentDialog) : option ContentDialog :=
  friendLayout_addFriendWidget widget status s.

(** [ContentDialog::updateFriendStatus]. [QHash::value] is null for an
    absent key, [qobject_cast<FriendWidget*>] null for a group widget; the
    pointer is handed to [addFriendWidget] without a test. *)
Definition updateFriendStatus (friendPk : ContactId) (status : Status)
    (s : ContentDialog) : option ContentDialog :=
  let widget := qobject_cast FriendWidget (value (contactWidgets s) friendPk) in
  addFriendWidget widget status s.

End SortedLayouts.

(** ** Construction and layout order *)

(** The constructor, as far as the modelled members go. *)
Definition ContentDialog_new (groupchatPosition : bool) : ContentDialog :=
  let layouts := [LayoutOnline; LayoutGroups; LayoutOffline] in
  let layouts :=
    if groupchatPosition then [LayoutGroups; LayoutOnline; LayoutOffline] else layouts in
  mkDialog ∅ ∅ [] [] [] layouts None None groupchatPosition Open false 0.

(** [ContentDialog::reorderLayouts]; [layouts.first()] needs a non-empty
    list, [swap(0, 1)] two elements. *)
Definition reorderLayouts (newGroupOnTop : bool) (s : ContentDialog) : option ContentDialog :=
  match layouts s with
  | first :: rest =>
      let oldGroupOnTop := bool_decide (first = LayoutGroups) in
      if bool_decide (newGroupOnTop = oldGroupOnTop) then Some s
      else
        match rest with
        | second :: rest => Some (set_layouts (second :: first :: rest) s)
        | [] => None
        end
  | [] => None
  end.

(** ** Drag and drop *)

(** What [dragEnterEvent] reads from the event: the dynamic type of its
    source and the id carried by the mime data. *)
Inductive DragSource :=
  | DragFriend (toxPk : ContactId)
  | DragGroup (groupId : ContactId)
  | DragOther.

(** [ContentDialog::dragEnterEvent]: [true] when [acceptProposedAction()]
    is called. [findFriend] and [findGroup] are the lookups of
    [FriendList] and [GroupList]; they return the key of the contact they
    find. *)
Definition dragEnterEvent (findFriend findGroup : ContactId → option ContactId)
    (s : ContentDialog) (event : DragSource) : bool :=
  match event with
  | DragFriend toxPk =>
      match findFriend toxPk with
      | None => false
      | Some friendId => negb (hasContact s friendId)
      end
  | DragGroup groupId =>
      match findGroup groupId with
      | None => false
      | Some _ => negb (hasContact s groupId)
      end
  | DragOther => false
  end.

(** ** Well-formed dialogs *)

(** Every widget shown by the dialog, whatever the order of the layouts. *)
Definition allWidgets (s : ContentDialog) : list Widget :=
  layoutOnline s ++ groupLayout s ++ layoutOffline s.

(** The contacts in the order the layouts are cycled through. *)
Definition ring (s : ContentDialog) : list Widget :=
  l ← layouts s; layoutItems s l.

(** The invariant of the data model: a contact id has one entry, with a
    widget, shown in one grouping of its kind, and a chat form; the active
    widget, if any, is shown; [layouts] is one of the two orders the
    constructor and [reorderLayouts] produce. *)
Record wf (s : ContentDialog) : Prop := mkWf {
  wf_layouts :
    layouts s = [LayoutOnline; LayoutGroups; LayoutOffline]
    ∨ layouts s = [LayoutGroups; LayoutOnline; LayoutOffline];
  wf_nodup : NoDup (allWidgets s);
  wf_shown : ∀ w, w ∈ allWidgets s → contactWidgets s !! wcontact w = Some (Some w);
  wf_key : ∀ id w, contactWidgets s !! id = Some (Some w) → wcontact w = id;
  wf_friend : ∀ id w, contactWidgets s !! id = Some (Some w) → wkind w = FriendWidget →
    w ∈ layoutOnline s ++ layoutOffline s;
  wf_group : ∀ id w, contactWidgets s !! id = Some (Some w) → wkind w = GroupWidget →
    w ∈ groupLayout s;
  wf_forms : ∀ id, is_Some (contactWidgets s !! id) → is_Some (contactChatForms s !! id);
  wf_active : ∀ w, activeChatroomWidget s = Some w → w ∈ allWidgets s;
  wf_heap : ∀ w, w ∈ allWidgets s → (wptr w < heapNext s)%nat;
  wf_nonnull : ∀ id, contactWidgets s !! id ≠ Some None
}.

(** The dialog of the scenario: A online, B offline, G a group, groups not
    on top, A active. *)
Definition wA : Widget := mkWidget 0 FriendWidget "A".
Definition wB : Widget := mkWidget 1 FriendWidget "B".
Definition wG : Widget := mkWidget 2 GroupWidget "G".

Definition dialogABG : ContentDialog :=
  mkDialog {[ "A" := Some wA; "B" := Some wB; "G" := Some wG ]}
    {[ "A" := 10%nat; "B" := 11%nat; "G" := 12%nat ]}
    [wA] [wB] [wG] [LayoutOnline; LayoutGroups; LayoutOffline]
    (Some wA) (Some 10%nat) false Open false 3.

(** [n] successive calls of an operation. *)
Fixpoint repeatOp (n : nat) (op : ContentDialog → option ContentDialog)
    (s : ContentDialog) : option ContentDialog :=
  match n with
  | O => Some s
  | S n => s ← op s; repeatOp n op s
  end.

(** ** The direction of a cycling step *)

(** The order in which the three groupings are displayed:
    [onGroupchatPositionChanged] inserts the group layout at position 0 or
    1 of the friend layout, as the constructor orders [layouts]. *)
Definition displayOrder (groupsOnTop : bool) : list LayoutId :=
  layouts (ContentDialog_new groupsOnTop).

(** The groupings displayed after [l]. *)
Fixpoint layoutsAfter (l : LayoutId) (order : list LayoutId) : list LayoutId :=
  match order with
  | [] => []
  | x :: order => if decide (x = l) then order else layoutsAfter l order
  end.

(** The active contact is the last contact displayed: it is at the last
    position of its grouping and every grouping displayed after it is
    empty. *)
Definition lastDisplayed (s : ContentDialog) (cur : LayoutId) (index : Z) : bool :=
  (index =? count (layoutItems s cur) - 1)
  && forallb (λ l, isEmpty (layoutItems s l))
       (layoutsAfter cur (displayOrder (groupchatPosition s))).

(** The flip condition in the words of the specification: the active
    contact is at the last position of its grouping and the grouping that
    a forward step lands on is empty. *)
Definition landsOnEmptyGrouping (s : ContentDialog) (cur : LayoutId) (index : Z) : bool :=
  (index =? count (layoutItems s cur) - 1)
  && match nextLayout s cur true with
     | Some next => isEmpty (layoutItems s next)
     | None => false
     end.

(** ** Sequences of operations *)

Inductive Op :=
  | OpAddFriend (friendPk : ContactId) (status : Status) (form : Form)
  | OpAddGroup (groupId : ContactId) (form : Form)
  | OpRemoveFriend (friendPk : ContactId)
  | OpRemoveGroup (groupId : ContactId).

Section Sequences.

Variable closestSortedIndex : Widget → list Widget → nat.

Definition runOp (op : Op) (s : ContentDialog) : option ContentDialog :=
  match op with
  | OpAddFriend friendPk status form =>
      snd <$> addFriend closestSortedIndex friendPk status form s
  | OpAddGroup groupId form => snd <$> addGroup closestSortedIndex groupId form s
  | OpRemoveFriend friendPk => removeFriend friendPk s
  | OpRemoveGroup groupId => removeGroup groupId s
  end.

Fixpoint runOps (ops : list Op) (s : ContentDialog) : option ContentDialog :=
  match ops with
  | [] => Some s
  | op :: ops => s ← runOp op s; runOps ops s
  end.

End Sequences.

(** The ids a sequence adds and the ids it removes. *)
Fixpoint addedIds (ops : list Op) : gset string :=
  match ops with
  | [] => ∅
  | OpAddFriend id _ _ :: ops | OpAddGroup id _ :: ops => {[ id ]} ∪ addedIds ops
  | _ :: ops => addedIds ops
  end.

Fixpoint removedIds (ops : list Op) : gset string :=
  match ops with
  | [] => ∅
  | OpRemoveFriend id :: ops | OpRemoveGroup id :: ops => {[ id ]} ∪ removedIds ops
  | _ :: ops => removedIds ops
  end.

(** The bookkeeping of a sequence replayed in order from the contacts [m]
    (an id with the kind it was added as): an add enters the id, a removal
    takes it out. *)
Fixpoint replay (ops : list Op) (m : gmap string WidgetKind) : gmap string WidgetKind :=
  match ops with
  | [] => m
  | OpAddFriend id _ _ :: ops => replay ops (<[id := FriendWidget]> m)
  | OpAddGroup id _ :: ops => replay ops (<[id := GroupWidget]> m)
  | OpRemoveFriend id :: ops | OpRemoveGroup id :: ops => replay ops (delete id m)
  end.

(** A sequence the callers may issue: an id is added only while the dialog
    does not manage it, and removed, as a friend or as a group, only while
    the dialog manages it as such. *)
Fixpoint validOps (ops : list Op) (m : gmap string WidgetKind) : Prop :=
  match ops with
  | [] => True
  | OpAddFriend id _ _ :: ops =>
      m !! id = None ∧ validOps ops (<[id := FriendWidget]> m)
  | OpAddGroup id _ :: ops =>
      m !! id = None ∧ validOps ops (<[id := GroupWidget]> m)
  | OpRemoveFriend id :: ops =>
      m !! id = Some FriendWidget ∧ validOps ops (delete id m)
  | OpRemoveGroup id :: ops =>
      m !! id = Some GroupWidget ∧ validOps ops (delete id m)
  end.

(** The same dialog with B active. *)
Definition dialogABG_B : ContentDialog := set_active (Some wB) (Some 11%nat) dialogABG.

(** The active widget after [n] successive calls of [cycleContacts] with
    [forward = true]. *)
Definition activeAfter (n : nat) (inverse : bool) (s : ContentDialog)
    : option (option Widget) :=
  activeChatroomWidget <$> repeatOp n (cycleContacts true inverse) s.

(** The specification's [removeContact]: the removal the caller issues for
    a contact of the given kind. *)
Definition removeContact (kind : WidgetKind) (id : ContactId) (s : ContentDialog)
    : option ContentDialog :=
  match kind with
  | FriendWidget => removeFriend id s
  | GroupWidget => removeGroup id s
  end.

(** A dialog that manages the single friend A. *)
Definition dialogA : ContentDialog :=
  mkDialog {[ "A" := Some wA ]} {[ "A" := 10%nat ]} [wA] [] []
    [LayoutOnline; LayoutGroups; LayoutOffline] (Some wA) (Some 10%nat)
    false Open false 1.

(** A sequence that adds A again after removing it, and a placement that
    appends. *)
Definition opsReadd : list Op :=
  [OpAddFriend "B" Online 11; OpAddFriend "A" Online 10;
   OpRemoveFriend "A"; OpAddFriend "A" Online 10].

Definition appendIndex (w : Widget) (l : list Widget) : nat := length l.

(** ** Notions used in the proofs *)

(** The widget [cycleContacts] reaches from index [idx] of layout [c]. *)
Definition cycleTarget (s : ContentDialog) (fw : bool) (c : LayoutId) (idx : Z)
    : option Widget :=
  '(c, j) ← cycleLoop cycleFuel s fw c idx; itemAt (layoutItems s c) j.

(** The position reached from position [p] of a ring of [n] contacts. *)
Definition ringStep (fw : bool) (n p : nat) : nat :=
  if fw then ((p + 1) mod n)%nat else ((p + n - 1) mod n)%nat.

(** [x], [y], [z] follow each other cyclically in [layouts]. *)
Definition cyclic (s : ContentDialog) (x y z : LayoutId) : Prop :=
  (nextLayout s x true = Some y ∧ nextLayout s y true = Some z
   ∧ nextLayout s z true = Some x)
  ∧ (nextLayout s x false = Some z ∧ nextLayout s z false = Some y
     ∧ nextLayout s y false = Some x).

(** The dialog after the widget [w] has left whichever layout held it. *)
Definition dropWidget (w : Widget) (s : ContentDialog) : ContentDialog :=
  set_groupLayout (removeSortedWidget w (groupLayout s))
    (set_friendLayout (removeSortedWidget w (layoutOnline s))
       (removeSortedWidget w (layoutOffline s)) s).

(** The first step of [removeFriend] and [removeGroup]. *)
Definition selectReplacement (w : Widget) (s : ContentDialog) : option ContentDialog :=
  if decide (activeChatroomWidget s = Some w) then cycleContacts true false s
  else Some s.

(** How a new widget [w] enters the layouts of [s], giving those of [s']. *)
Definition placed (w : Widget) (s s' : ContentDialog) : Prop :=
  (wkind w = FriendWidget ∧ layoutOnline s' ≡ₚ w :: layoutOnline s
   ∧ groupLayout s' = groupLayout s ∧ layoutOffline s' = layoutOffline s)
  ∨ (wkind w = FriendWidget ∧ layoutOnline s' = layoutOnline s
     ∧ groupLayout s' = groupLayout s ∧ layoutOffline s' ≡ₚ w :: layoutOffline s)
  ∨ (wkind w = GroupWidget ∧ layoutOnline s' = layoutOnline s
     ∧ groupLayout s' ≡ₚ w :: groupLayout s ∧ layoutOffline s' = layoutOffline s).

(** ** The rest of the drag and drop, and of the status updates *)

(** The signals [dropEvent] emits: [addFriendDialog] / [addGroupDialog] for
    the contact the directory found. *)
Inductive DropSignal :=
  | AddFriendDialog (contact : ContactId)
  | AddGroupDialog (contact : ContactId).

(** [ContentDialog::dropEvent]: the signal emitted, if any. The lookups are
    those of [dragEnterEvent]. *)
Definition dropEvent (findFriend findGroup : ContactId → option ContactId)
    (event : DragSource) : option DropSignal :=
  match event with
  | DragFriend toxId =>
      match findFriend toxId with
      | None => None
      | Some contact => Some (AddFriendDialog contact)
      end
  | DragGroup groupId =>
      match findGroup groupId with
      | None => None
      | Some contact => Some (AddGroupDialog contact)
      end
  | DragOther => None
  end.

(** [ContentDialog::isActiveWidget]. *)
Definition isActiveWidget (s : ContentDialog) (widget : option Widget) : bool :=
  bool_decide (activeChatroomWidget s = widget).

(** [ContentDialog::updateFriendWidget]: [findFriend] is the lookup of
    [FriendList], giving the status of the friend it finds. The widget is
    fetched with [contactWidgets[friendPk]], which enters a key that has no
    entry in the map, bound to the null pointer; [f->getStatus()] then
    dereferences null when the friend list found no friend. The alias is
    not used. *)
Definition updateFriendWidget (closestSortedIndex : Widget → list Widget → nat)
    (findFriend : ContactId → option Status) (friendPk : ContactId)
    (s : ContentDialog) : option ContentDialog :=
  let f := findFriend friendPk in
  let '(widget, contactWidgets') := subscript (contactWidgets s) friendPk in
  let s := set_contacts contactWidgets' (contactChatForms s) s in
  let friendWidget := qobject_cast FriendWidget widget in
  status ← f;
  friendLayout_addFriendWidget closestSortedIndex friendWidget status s.

(** A change of the [groupchatPosition] setting, made outside the dialog. *)
Definition set_groupchatPosition (top : bool) (s : ContentDialog) : ContentDialog :=
  mkDialog (contactWidgets s) (contactChatForms s) (layoutOnline s) (layoutOffline s)
    (groupLayout s) (layouts s) (activeChatroomWidget s) (contentLayout s)
    top (lifecycle s) (deleteLaterCalled s) (heapNext s).

(** ** The video surface *)

(** [QSize], with its componentwise sum and difference. *)
Record QSize := mkSize { sizeWidth : Z; sizeHeight : Z }.

Definition size_add (a b : QSize) : QSize :=
  mkSize (sizeWidth a + sizeWidth b) (sizeHeight a + sizeHeight b).

Definition size_sub (a b : QSize) : QSize :=
  mkSize (sizeWidth a - sizeWidth b) (sizeHeight a - sizeHeight b).

(** The members [onVideoShow] and [onVideoHide] work on, and the minimum
    size of the window. *)
Record VideoState := mkVideo {
  videoCount : Z;
  videoSurfaceSize : QSize;
  minimumSize : QSize
}.

Section Video.

(** What [minimumSize()] returns after [setMinimumSize(size)]: the toolkit
    may normalise the size it is given. *)
Variable setMinimumSize : QSize → QSize.

(** The default-constructed [QSize()]. *)
Variable nullSize : QSize.

(** [ContentDialog::onVideoShow]. *)
Definition onVideoShow (size : QSize) (v : VideoState) : VideoState :=
  let videoCount := videoCount v + 1 in
  if videoCount >? 1 then mkVideo videoCount (videoSurfaceSize v) (minimumSize v)
  else
    let videoSurfaceSize := size in
    let minSize := minimumSize v in
    mkVideo videoCount videoSurfaceSize
      (setMinimumSize (size_add minSize videoSurfaceSize)).

(** [ContentDialog::onVideoHide]. *)
Definition onVideoHide (v : VideoState) : VideoState :=
  let videoCount := videoCount v - 1 in
  if videoCount >? 0 then mkVideo videoCount (videoSurfaceSize v) (minimumSize v)
  else
    let minSize := minimumSize v in
    mkVideo videoCount nullSize
      (setMinimumSize (size_sub minSize (videoSurfaceSize v))).

(** Video streams shown one after the other, and [n] of them hidden. *)
Definition showAll (sizes : list QSize) (v : VideoState) : VideoState :=
  foldl (λ v size, onVideoShow size v) v sizes.

Definition hideN (n : nat) (v : VideoState) : VideoState :=
  Nat.iter n onVideoHide v.

End Video.

(** ** The dialogs the operations produce *)

Section Reachable.

Variable closestSortedIndex : Widget → list Widget → nat.

(** The dialogs reached from a new dialog by the operations, the callers
    keeping to the discipline that an id is added only while it has no
    entry. *)
Inductive reachable : ContentDialog → Prop :=
  | reach_new top : reachable (ContentDialog_new top)
  | reach_addFriend s id status form w s' :
      reachable s → contactWidgets s !! id = None →
      addFriend closestSortedIndex id status form s = Some (w, s') →
      reachable s'
  | reach_addGroup s id form w s' :
      reachable s → contactWidgets s !! id = None →
      addGroup closestSortedIndex id form s = Some (w, s') →
      reachable s'
  | reach_removeFriend s id s' :
      reachable s → removeFriend id s = Some s' → reachable s'
  | reach_removeGroup s id s' :
      reachable s → removeGroup id s = Some s' → reachable s'
  | reach_cycleContacts s forward inverse s' :
      reachable s → cycleContacts forward inverse s = Some s' → reachable s'
  | reach_focusContact s id s' :
      reachable s → focusContact id s = Some s' → reachable s'
  | reach_updateFriendStatus s id status s' :
      reachable s → updateFriendStatus closestSortedIndex id status s = Some s' →
      reachable s'
  | reach_updateFriendWidget s findFriend id s' :
      reachable s →
      updateFriendWidget closestSortedIndex findFriend id s = Some s' →
      reachable s'
  | reach_reorderLayouts s top s' :
      reachable s → reorderLayouts top s = Some s' → reachable s'
  | reach_setting s top :
      reachable s → reachable (set_groupchatPosition top s).

End Reachable.

(** What holds of the dialogs the operations produce as long as no key is
    bound to the null pointer: the data-model invariant; a contact is
    active exactly when contacts are managed; the content pane shows the
    chat form of the active contact; the dialog has asked for its deletion
    exactly when it is closing. *)
Record consistent (s : ContentDialog) : Prop := mkConsistent {
  cons_wf : wf s;
  cons_active : activeChatroomWidget s = None ↔ contactWidgets s = ∅;
  cons_content :
    contentLayout s
    = (w ← activeChatroomWidget s; contactChatForms s !! wcontact w);
  cons_delete : deleteLaterCalled s = true ↔ lifecycle s = Closing
}.

(** The entries of [contactWidgets] that hold a widget, and the dialog
    without the keys bound to the null pointer. *)
Definition widgetEntries (s : ContentDialog) : gmap ContactId (option Widget) :=
  filter (λ entry, entry.2 ≠ None) (contactWidgets s).

Definition purge (s : ContentDialog) : ContentDialog :=
  set_contacts (widgetEntries s) (contactChatForms s) s.

(** What holds of every dialog the operations produce. Keys bound to the
    null pointer apart, the dialog is well-formed; a contact is active
    exactly when a widget is displayed; the content pane shows the chat
    form of the active contact; a closing dialog has asked for its
    deletion, and a dialog that has asked for its deletion is closing
    unless a key bound to the null pointer keeps [contactWidgets] from
    being empty. *)
Record coherent (s : ContentDialog) : Prop := mkCoherent {
  coh_wf : wf (purge s);
  coh_active : activeChatroomWidget s = None ↔ allWidgets s = [];
  coh_content :
    contentLayout s
    = (w ← activeChatroomWidget s; contactChatForms s !! wcontact w);
  coh_closing : lifecycle s = Closing → deleteLaterCalled s = true;
  coh_deleted :
    deleteLaterCalled s = true →
    lifecycle s = Closing ∨ ∃ id, contactWidgets s !! id = Some None
}.

(** The dialog [s] with another contact map and lifecycle, and the
    well-formed dialog that shadows [s]. *)
Definition reframe (m : gmap ContactId (option Widget)) (l : Lifecycle)
    (s : ContentDialog) : ContentDialog :=
  set_lifecycle l (set_contacts m (contactChatForms s) s).

Definition shadow (s : ContentDialog) : ContentDialog :=
  reframe (widgetEntries s) (if deleteLaterCalled s then Closing else Open) s.

(** * Properties *)

(** ** Index searches *)

Lemma indexOf_lookup {A} `{EqDecision A} (x : A) (l : list A) (i : nat) :
  NoDup l → l !! i = Some x → indexOf x l = Z.of_nat i.
Proof.
  intros Hnd Hi. unfold indexOf.
  destruct (list_find (λ y, y = x) l) as [[j y]|] eqn:Hf.
  - apply list_find_Some in Hf as (Hj & -> & _).
    f_equal. eapply NoDup_lookup; eauto.
  - apply list_find_None in Hf. rewrite Forall_forall in Hf.
    exfalso. apply (Hf x); [|done]. by eapply list_elem_of_lookup_2.
Qed.

Lemma indexOf_not_elem {A} `{EqDecision A} (x : A) (l : list A) :
  x ∉ l → indexOf x l = -1.
Proof.
  intros Hx. unfold indexOf.
  destruct (list_find (λ y, y = x) l) as [[j y]|] eqn:Hf; [|done].
  apply list_find_Some in Hf as (Hj & -> & _).
  exfalso. apply Hx. by eapply list_elem_of_lookup_2.
Qed.

Lemma indexOf_cases {A} `{EqDecision A} (x : A) (l : list A) :
  (indexOf x l = -1 ∧ x ∉ l)
  ∨ (∃ i : nat, indexOf x l = Z.of_nat i ∧ l !! i = Some x).
Proof.
  unfold indexOf.
  destruct (list_find (λ y, y = x) l) as [[j y]|] eqn:Hf.
  - apply list_find_Some in Hf as (Hj & -> & _). right. eauto.
  - left. split; [done|]. apply list_find_None in Hf.
    rewrite Forall_forall in Hf. intros Hx. by apply (Hf x).
Qed.

(** ** The current layout *)

Lemma allWidgets_nodup s :
  NoDup (allWidgets s) →
  NoDup (layoutOnline s) ∧ NoDup (groupLayout s) ∧ NoDup (layoutOffline s)
  ∧ (∀ x, x ∈ layoutOnline s → (x ∉ groupLayout s) ∧ (x ∉ layoutOffline s))
  ∧ (∀ x, x ∈ groupLayout s → x ∉ layoutOffline s).
Proof.
  unfold allWidgets. rewrite !NoDup_app.
  intros (Hon & Hd1 & Hg & Hd2 & Hoff). repeat split; try done.
  - intros Hx. apply (Hd1 x); [done|]. apply elem_of_app. by left.
  - intros Hx. apply (Hd1 x); [done|]. apply elem_of_app. by right.
Qed.

Lemma elem_of_allWidgets s w :
  w ∈ allWidgets s ↔ ∃ l, w ∈ layoutItems s l.
Proof.
  unfold allWidgets. rewrite !elem_of_app. split.
  - intros [H|[H|H]]; [by exists LayoutOnline|by exists LayoutGroups|by exists LayoutOffline].
  - intros [[] H]; simpl in H; auto.
Qed.

Lemma getCurrentLayout_found s w cur (i : nat) :
  NoDup (allWidgets s) →
  activeChatroomWidget s = Some w →
  layoutItems s cur !! i = Some w →
  getCurrentLayout s = (Some cur, Z.of_nat i).
Proof.
  intros Hnd Ha Hi.
  destruct (allWidgets_nodup s Hnd) as (Hon & Hg & Hoff & Hd1 & Hd2).
  assert (Hin : w ∈ layoutItems s cur) by by eapply list_elem_of_lookup_2.
  unfold getCurrentLayout, indexOfFriendWidget, indexOfSortedWidget. rewrite Ha.
  destruct cur; simpl in Hi, Hin.
  - rewrite (indexOf_lookup w _ i) by done.
    destruct (Z.eqb_spec (Z.of_nat i) (-1)); [lia|done].
  - rewrite (indexOf_not_elem w (layoutOnline s)).
    2:{ intros Hx. by destruct (Hd1 w Hx). }
    rewrite (indexOf_not_elem w (layoutOffline s)) by (by apply Hd2).
    simpl. rewrite (indexOf_lookup w _ i) by done.
    destruct (Z.eqb_spec (Z.of_nat i) (-1)); [lia|done].
  - rewrite (indexOf_not_elem w (layoutOnline s)).
    2:{ intros Hx. by destruct (Hd1 w Hx). }
    simpl. rewrite (indexOf_lookup w _ i) by done.
    destruct (Z.eqb_spec (Z.of_nat i) (-1)); [lia|done].
Qed.


Lemma getCurrentLayout_cases s :
  getCurrentLayout s = (None, -1)
  ∨ ∃ w cur (i : nat), activeChatroomWidget s = Some w
      ∧ layoutItems s cur !! i = Some w
      ∧ getCurrentLayout s = (Some cur, Z.of_nat i).
Proof.
  unfold getCurrentLayout, indexOfFriendWidget, indexOfSortedWidget.
  destruct (activeChatroomWidget s) as [w|]; [|by left].
  destruct (indexOf_cases w (layoutOnline s)) as [[-> _]|(i & -> & Hi)].
  2:{ right. exists w, LayoutOnline, i.
      destruct (Z.eqb_spec (Z.of_nat i) (-1)); [lia|done]. }
  destruct (indexOf_cases w (layoutOffline s)) as [[-> _]|(i & -> & Hi)].
  2:{ right. exists w, LayoutOffline, i. simpl.
      destruct (Z.eqb_spec (Z.of_nat i) (-1)); [lia|done]. }
  destruct (indexOf_cases w (groupLayout s)) as [[-> _]|(i & -> & Hi)].
  2:{ right. exists w, LayoutGroups, i. simpl.
      destruct (Z.eqb_spec (Z.of_nat i) (-1)); [lia|done]. }
  by left.
Qed.

(** ** The order of the layouts *)

Lemma nextLayout_triple s a b c :
  layouts s = [a; b; c] → NoDup [a; b; c] →
  (nextLayout s a true = Some b ∧ nextLayout s b true = Some c
   ∧ nextLayout s c true = Some a)
  ∧ (nextLayout s a false = Some c ∧ nextLayout s c false = Some b
     ∧ nextLayout s b false = Some a).
Proof.
  intros Hl Hnd. unfold nextLayout. rewrite Hl.
  assert (a ≠ b ∧ a ≠ c ∧ b ≠ c) as (Hab & Hac & Hbc).
  { apply NoDup_cons in Hnd as [Ha Hnd]. apply NoDup_cons in Hnd as [Hb _].
    rewrite !elem_of_cons in Ha. rewrite elem_of_cons in Hb. tauto. }
  destruct a, b, c; try done; by vm_compute.
Qed.

(** ** The loop of [cycleContacts] *)

Lemma cycleLoop_in_range fuel s fw c idx :
  0 ≤ idx < count (layoutItems s c) →
  cycleLoop fuel s fw c idx = Some (c, idx).
Proof.
  intros H. destruct fuel; simpl;
    destruct (Z.ltb_spec idx 0); try lia;
    destruct (Z.geb_spec idx (count (layoutItems s c))); try lia; done.
Qed.

Lemma cycleLoop_over fuel s fw c c' idx :
  count (layoutItems s c) ≤ idx → 0 ≤ idx →
  nextLayout s c fw = Some c' →
  cycleLoop (S fuel) s fw c idx = cycleLoop fuel s fw c' 0.
Proof.
  intros H1 H2 Hn. simpl.
  destruct (Z.ltb_spec idx 0); try lia.
  destruct (Z.geb_spec idx (count (layoutItems s c))); try lia.
  simpl. by rewrite Hn.
Qed.

Lemma cycleLoop_under fuel s fw c c' idx :
  idx < 0 →
  nextLayout s c fw = Some c' →
  cycleLoop (S fuel) s fw c idx
  = cycleLoop fuel s fw c' (count (layoutItems s c') - 1).
Proof.
  intros H1 Hn. simpl.
  destruct (Z.ltb_spec idx 0); try lia.
  simpl. by rewrite Hn.
Qed.

Lemma itemAt_nat l (i : nat) : itemAt l (Z.of_nat i) = l !! i.
Proof.
  unfold itemAt. destruct (Z.ltb_spec (Z.of_nat i) 0); [lia|].
  by rewrite Nat2Z.id.
Qed.

Lemma cycleTarget_forward s x y z (i : nat) w :
  nextLayout s x true = Some y → nextLayout s y true = Some z →
  nextLayout s z true = Some x →
  layoutItems s x !! i = Some w →
  let rot := layoutItems s x ++ layoutItems s y ++ layoutItems s z in
  cycleTarget s true x (Z.of_nat i + 1) = rot !! ((i + 1) mod length rot)%nat.
Proof.
  intros Hx Hy Hz Hi rot. unfold cycleTarget, cycleFuel.
  pose proof (lookup_lt_Some _ _ _ Hi) as Hlt.
  assert (Hrot : length rot = (length (layoutItems s x) + length (layoutItems s y)
                     + length (layoutItems s z))%nat).
  { unfold rot. rewrite !length_app. lia. }
  destruct (decide (i + 1 < length (layoutItems s x))%nat) as [Hin|Hout].
  - rewrite cycleLoop_in_range by (unfold count; lia). simpl.
    replace (Z.of_nat i + 1) with (Z.of_nat (i + 1)) by lia.
    rewrite itemAt_nat, Nat.mod_small by lia.
    unfold rot. by rewrite lookup_app_l.
  - assert (Hlen : (i + 1)%nat = length (layoutItems s x)) by lia.
    rewrite (cycleLoop_over _ _ _ _ y) by (unfold count; try lia; done).
    destruct (layoutItems s y) as [|hy ty] eqn:Ey.
    + rewrite (cycleLoop_over _ _ _ _ z) by (rewrite ?Ey; unfold count; simpl; try lia; done).
      destruct (layoutItems s z) as [|hz tz] eqn:Ez.
      * rewrite (cycleLoop_over _ _ _ _ x) by (rewrite ?Ez; unfold count; simpl; try lia; done).
        rewrite cycleLoop_in_range by (unfold count; lia). simpl.
        rewrite (itemAt_nat _ 0). simpl in Hrot.
        replace (length rot) with (i + 1)%nat by lia.
        rewrite Nat.Div0.mod_same. unfold rot. by rewrite !app_nil_r.
      * rewrite cycleLoop_in_range by (rewrite Ez; unfold count; simpl; lia). simpl.
        rewrite Ez, (itemAt_nat _ 0). simpl in Hrot.
        rewrite Nat.mod_small by lia.
        unfold rot. rewrite lookup_app_r by lia. simpl.
        by replace (i + 1 - length (layoutItems s x))%nat with 0%nat by lia.
    + rewrite cycleLoop_in_range by (rewrite Ey; unfold count; simpl; lia). simpl.
      rewrite Ey, (itemAt_nat _ 0). simpl in Hrot.
      rewrite Nat.mod_small by lia.
      unfold rot. rewrite lookup_app_r by lia.
      by replace (i + 1 - length (layoutItems s x))%nat with 0%nat by lia.
Qed.

Lemma itemAt_last l : l ≠ [] → itemAt l (count l - 1) = l !! (length l - 1)%nat.
Proof.
  intros Hl. destruct l as [|h t]; [done|]. unfold count.
  replace (Z.of_nat (length (h :: t)) - 1) with (Z.of_nat (length (h :: t) - 1))
    by (simpl; lia).
  apply itemAt_nat.
Qed.

Lemma cycleTarget_backward s x y z (i : nat) w :
  nextLayout s x false = Some z → nextLayout s z false = Some y →
  nextLayout s y false = Some x →
  layoutItems s x !! i = Some w →
  let rot := layoutItems s x ++ layoutItems s y ++ layoutItems s z in
  cycleTarget s false x (Z.of_nat i - 1)
  = rot !! ((i + length rot - 1) mod length rot)%nat.
Proof.
  intros Hx Hz Hy Hi rot. unfold cycleTarget, cycleFuel.
  pose proof (lookup_lt_Some _ _ _ Hi) as Hlt.
  assert (Hrot : length rot = (length (layoutItems s x) + length (layoutItems s y)
                     + length (layoutItems s z))%nat).
  { unfold rot. rewrite !length_app. lia. }
  destruct i as [|i].
  - simpl Z.of_nat. replace (0 + length rot - 1)%nat with (length rot - 1)%nat by lia.
    rewrite Nat.mod_small by lia.
    rewrite (cycleLoop_under _ _ _ _ z) by (try lia; done).
    destruct (layoutItems s z) as [|hz tz] eqn:Ez.
    + rewrite (cycleLoop_under _ _ _ _ y) by (rewrite ?Ez; unfold count; simpl; try lia; done).
      destruct (layoutItems s y) as [|hy ty] eqn:Ey.
      * rewrite (cycleLoop_under _ _ _ _ x) by (rewrite ?Ey; unfold count; simpl; try lia; done).
        rewrite cycleLoop_in_range by (unfold count; lia). simpl.
        rewrite itemAt_last by (intros E; rewrite E in Hlt; simpl in Hlt; lia).
        unfold rot. rewrite !app_nil_r. done.
      * rewrite cycleLoop_in_range by (rewrite Ey; unfold count; simpl; lia). simpl.
        rewrite Ey, itemAt_last by done.
        unfold rot. rewrite app_nil_r.
        rewrite lookup_app_r by (rewrite length_app; simpl; lia).
        f_equal. rewrite length_app. simpl. lia.
    + rewrite cycleLoop_in_range by (rewrite Ez; unfold count; simpl; lia). simpl.
      rewrite Ez, itemAt_last by done.
      unfold rot. rewrite lookup_app_r by (rewrite !length_app; simpl; lia).
      rewrite lookup_app_r by (rewrite !length_app; simpl; lia).
      f_equal. rewrite !length_app. simpl. lia.
  - replace (S i + length rot - 1)%nat with (i + 1 * length rot)%nat by lia.
    rewrite Nat.Div0.mod_add, Nat.mod_small by lia.
    replace (Z.of_nat (S i) - 1) with (Z.of_nat i) by lia.
    rewrite cycleLoop_in_range by (unfold count; lia). simpl.
    rewrite itemAt_nat.
    unfold rot. by rewrite lookup_app_l by lia.
Qed.

(** Reading a rotated list. *)
Lemma lookup_rotated {A} (k l : list A) (j : nat) :
  (j < length (k ++ l))%nat →
  (l ++ k) !! j = (k ++ l) !! ((length k + j) mod length (k ++ l))%nat.
Proof.
  rewrite length_app. intros Hj.
  destruct (decide (j < length l)%nat) as [Hl|Hl].
  - rewrite Nat.mod_small by lia.
    rewrite lookup_app_l by done. rewrite lookup_app_r by lia.
    f_equal. lia.
  - replace (length k + j)%nat
      with ((j - length l) + 1 * (length k + length l))%nat by lia.
    rewrite Nat.Div0.mod_add, Nat.mod_small by lia.
    rewrite lookup_app_r by lia. by rewrite lookup_app_l by lia.
Qed.

(** ** One step around the ring *)

Lemma cyclic_rotate s x y z : cyclic s x y z → cyclic s y z x.
Proof. unfold cyclic. tauto. Qed.

Lemma cycleTarget_rotated s x y z (pre post : list Widget) (i : nat) w fw :
  cyclic s x y z →
  layoutItems s x !! i = Some w →
  post ++ pre = layoutItems s x ++ layoutItems s y ++ layoutItems s z →
  cycleTarget s fw x (Z.of_nat i + (if fw then 1 else -1))
  = (pre ++ post) !! ringStep fw (length (pre ++ post)) (length pre + i).
Proof.
  intros ((Hx & Hy & Hz) & (Hx' & Hz' & Hy')) Hi Hrot.
  pose proof (lookup_lt_Some _ _ _ Hi) as Hlt.
  assert (Hlen : length (pre ++ post) = length (post ++ pre)).
  { rewrite !length_app. lia. }
  assert (Hpos : (i < length (post ++ pre))%nat).
  { rewrite Hrot, length_app. lia. }
  destruct fw; unfold ringStep.
  - rewrite (cycleTarget_forward s x y z i w) by done.
    rewrite <- Hrot, <- Hlen.
    rewrite lookup_rotated by (apply Nat.mod_upper_bound; lia).
    rewrite Nat.Div0.add_mod_idemp_r. f_equal. f_equal. lia.
  - replace (Z.of_nat i + -1) with (Z.of_nat i - 1) by lia.
    rewrite (cycleTarget_backward s x y z i w) by done.
    rewrite <- Hrot, <- Hlen.
    rewrite lookup_rotated by (apply Nat.mod_upper_bound; lia).
    rewrite Nat.Div0.add_mod_idemp_r. f_equal. f_equal. lia.
Qed.

Lemma cycleTarget_ring_triple s a b c cur (i p : nat) w fw :
  layouts s = [a; b; c] → NoDup [a; b; c] →
  NoDup (ring s) →
  cur ∈ [a; b; c] →
  layoutItems s cur !! i = Some w →
  ring s !! p = Some w →
  cycleTarget s fw cur (Z.of_nat i + (if fw then 1 else -1))
  = ring s !! ringStep fw (length (ring s)) p.
Proof.
  intros Hl Hnd Hring Hcur Hi Hp.
  pose proof (nextLayout_triple s a b c Hl Hnd) as Hcyc.
  fold (cyclic s a b c) in Hcyc.
  assert (Hr : ring s = layoutItems s a ++ layoutItems s b ++ layoutItems s c).
  { unfold ring. rewrite Hl. simpl. by rewrite app_nil_r. }
  pose proof (lookup_lt_Some _ _ _ Hi) as Hlt.
  rewrite !elem_of_cons, elem_of_nil in Hcur.
  destruct Hcur as [->|[->|[->|[]]]].
  - assert (p = (length (@nil Widget) + i)%nat) as ->.
    { eapply NoDup_lookup; [exact Hring|exact Hp|].
      rewrite Hr. simpl. by apply lookup_app_l_Some. }
    rewrite Hr.
    apply (cycleTarget_rotated s a b c [] _ i w fw); [done|done|].
    by rewrite app_nil_r.
  - assert (p = (length (layoutItems s a) + i)%nat) as ->.
    { eapply NoDup_lookup; [exact Hring|exact Hp|].
      rewrite Hr. rewrite lookup_app_r by lia.
      replace (length (layoutItems s a) + i - length (layoutItems s a))%nat with i by lia.
      by apply lookup_app_l_Some. }
    rewrite Hr.
    apply (cycleTarget_rotated s b c a (layoutItems s a) _ i w fw);
      [by apply cyclic_rotate|done|].
    by rewrite <- app_assoc.
  - assert (p = (length (layoutItems s a ++ layoutItems s b) + i)%nat) as ->.
    { eapply NoDup_lookup; [exact Hring|exact Hp|].
      rewrite Hr, app_assoc. rewrite lookup_app_r by lia.
      rewrite <- Hi. f_equal. lia. }
    rewrite Hr, app_assoc.
    apply (cycleTarget_rotated s c a b (layoutItems s a ++ layoutItems s b) _ i w fw);
      [by do 2 apply cyclic_rotate|done|done].
Qed.

(** ** Activation and cycling on well-formed dialogs *)

Lemma ring_Permutation s :
  layouts s = [LayoutOnline; LayoutGroups; LayoutOffline]
  ∨ layouts s = [LayoutGroups; LayoutOnline; LayoutOffline] →
  ring s ≡ₚ allWidgets s.
Proof.
  unfold ring, allWidgets. intros [->| ->]; simpl; rewrite app_nil_r.
  - done.
  - rewrite !app_assoc. apply Permutation_app_tail, Permutation_app_comm.
Qed.

Lemma wf_ring_nodup s : wf s → NoDup (ring s).
Proof.
  intros Hwf. rewrite (ring_Permutation s (wf_layouts s Hwf)).
  apply (wf_nodup s Hwf).
Qed.

Lemma wf_ring_elem s w : wf s → w ∈ ring s ↔ w ∈ allWidgets s.
Proof. intros Hwf. by rewrite (ring_Permutation s (wf_layouts s Hwf)). Qed.

Lemma wf_ring_length s : wf s → length (ring s) = length (allWidgets s).
Proof. intros Hwf. by rewrite (ring_Permutation s (wf_layouts s Hwf)). Qed.

Lemma activate_shown s w :
  wf s → w ∈ allWidgets s →
  ∃ form, contactChatForms s !! wcontact w = Some form
    ∧ activate (Some w) s
      = Some (if decide (activeChatroomWidget s = Some w) then s
              else set_active (Some w) (Some form) s).
Proof.
  intros Hwf Hw.
  destruct (wf_forms s Hwf (wcontact w)) as [form Hform].
  { rewrite (wf_shown s Hwf w Hw). eauto. }
  exists form. split; [done|]. unfold activate.
  destruct (decide (activeChatroomWidget s = Some w)); [done|].
  simpl. by rewrite Hform.
Qed.

Lemma set_active_wf s w form :
  wf s → w ∈ allWidgets s → wf (set_active (Some w) form s).
Proof.
  intros [H1 H2 H3 H4 H5 H6 H7 H8 H9 H10] Hw.
  split; simpl; try done. intros w' [= <-]. done.
Qed.

Lemma activate_wf s s' w :
  wf s → w ∈ allWidgets s → activate (Some w) s = Some s' →
  wf s' ∧ activeChatroomWidget s' = Some w
  ∧ contactWidgets s' = contactWidgets s
  ∧ contactChatForms s' = contactChatForms s
  ∧ layoutOnline s' = layoutOnline s ∧ groupLayout s' = groupLayout s
  ∧ layoutOffline s' = layoutOffline s ∧ layouts s' = layouts s
  ∧ groupchatPosition s' = groupchatPosition s
  ∧ lifecycle s' = lifecycle s ∧ heapNext s' = heapNext s.
Proof.
  intros Hwf Hw Hact.
  destruct (activate_shown s w Hwf Hw) as (form & _ & Heq).
  rewrite Heq in Hact. injection Hact as <-.
  destruct (decide (activeChatroomWidget s = Some w)) as [Ha|Ha].
  - split; [done|]. repeat split; done.
  - split; [by apply set_active_wf|]. repeat split; done.
Qed.

Lemma cycleContacts_unfold s fw inv cur (i : nat) :
  getCurrentLayout s = (Some cur, Z.of_nat i) →
  cycleContacts fw inv s
  = (let d := cycleDirection s fw inv cur (Z.of_nat i) in
     chatWidget ← cycleTarget s d cur (Z.of_nat i + (if d then 1 else -1));
     activate (Some chatWidget) s).
Proof.
  intros Hcur. unfold cycleContacts, cycleTarget. rewrite Hcur.
  destruct (Z.eqb_spec (Z.of_nat i) (-1)); [lia|]. cbv zeta.
  destruct (cycleLoop cycleFuel s _ cur _) as [[c j]|]; [|done].
  cbn [mbind option_bind].
  destruct (itemAt _ _) as [cw|]; [|done]. cbn [mbind option_bind].
  destruct (decide (Some cw = activeChatroomWidget s)) as [E|E]; [|done].
  unfold activate. by rewrite decide_True.
Qed.

Lemma wf_cur_in_layouts s cur : wf s → cur ∈ layouts s.
Proof.
  intros Hwf. destruct (wf_layouts s Hwf) as [-> | ->];
    destruct cur; rewrite !elem_of_cons; tauto.
Qed.

Lemma wf_layouts_triple s :
  wf s → ∃ a b c, layouts s = [a; b; c] ∧ NoDup [a; b; c].
Proof.
  intros Hwf. destruct (wf_layouts s Hwf) as [E | E]; rewrite E;
    do 3 eexists; (split; [reflexivity|]);
    rewrite !NoDup_cons, !elem_of_cons, !elem_of_nil;
    repeat split; try apply NoDup_nil_2; intuition discriminate.
Qed.

(** On a well-formed dialog whose active widget sits at position [p] of the
    ring, [cycleContacts] activates the widget one position further, in the
    direction the first conditional settles. *)
Lemma cycleContacts_step s w (p : nat) fw inv :
  wf s → activeChatroomWidget s = Some w → ring s !! p = Some w →
  ∃ cur (i : nat) w',
    getCurrentLayout s = (Some cur, Z.of_nat i)
    ∧ layoutItems s cur !! i = Some w
    ∧ ring s !! ringStep (cycleDirection s fw inv cur (Z.of_nat i))
                  (length (ring s)) p = Some w'
    ∧ cycleContacts fw inv s = activate (Some w') s.
Proof.
  intros Hwf Ha Hp.
  assert (Hw : w ∈ allWidgets s) by by apply (wf_active s Hwf).
  apply elem_of_allWidgets in Hw as [cur Hcur].
  apply list_elem_of_lookup in Hcur as [i Hi].
  pose proof (getCurrentLayout_found s w cur i (wf_nodup s Hwf) Ha Hi) as Hg.
  destruct (wf_layouts_triple s Hwf) as (a & b & c & Hl & Hnd).
  pose proof (wf_cur_in_layouts s cur Hwf) as Hin. rewrite Hl in Hin.
  set (d := cycleDirection s fw inv cur (Z.of_nat i)).
  pose proof (cycleTarget_ring_triple s a b c cur i p w d Hl Hnd
                (wf_ring_nodup s Hwf) Hin Hi Hp) as Ht.
  pose proof (lookup_lt_Some _ _ _ Hp) as Hlt.
  destruct (lookup_lt_is_Some_2 (ring s) (ringStep d (length (ring s)) p))
    as [w' Hw'].
  { unfold ringStep. destruct d; apply Nat.mod_upper_bound; lia. }
  exists cur, i, w'. repeat split; try done.
  rewrite (cycleContacts_unfold s fw inv cur i Hg). fold d. simpl.
  rewrite Ht, Hw'. done.
Qed.

Lemma wf_managed_shown s id w :
  wf s → contactWidgets s !! id = Some (Some w) → w ∈ allWidgets s.
Proof.
  intros Hwf Hw. unfold allWidgets. destruct (wkind w) eqn:Hk.
  - pose proof (wf_friend s Hwf id w Hw Hk) as H.
    rewrite !elem_of_app in *. tauto.
  - pose proof (wf_group s Hwf id w Hw Hk) as H.
    rewrite !elem_of_app. tauto.
Qed.

(** The managed contacts are the shown widgets: there are as many. *)
Lemma wf_size s : wf s → size (contactWidgets s) = length (allWidgets s).
Proof.
  intros Hwf. rewrite <- length_map_to_list.
  rewrite <- (length_fmap (λ w, (wcontact w, Some w)) (allWidgets s)).
  apply Permutation_length, NoDup_Permutation.
  - apply NoDup_map_to_list.
  - apply NoDup_fmap_2; [|apply (wf_nodup s Hwf)].
    intros w1 w2 E. by injection E.
  - intros [id [w|]]; rewrite elem_of_map_to_list, list_elem_of_fmap; split.
    + intros Hw. exists w. split.
      * by rewrite (wf_key s Hwf id w Hw).
      * by eapply wf_managed_shown.
    + intros (w' & [= -> ->] & Hin). exact (wf_shown s Hwf w' Hin).
    + intros Hw. by destruct (wf_nonnull s Hwf id).
    + by intros (w' & [=] & _).
Qed.

Lemma cycleDirection_inverse s fw cur idx :
  cycleDirection s fw true cur idx = fw.
Proof. done. Qed.

Lemma ring_activate s s' :
  layoutOnline s' = layoutOnline s → groupLayout s' = groupLayout s →
  layoutOffline s' = layoutOffline s → layouts s' = layouts s →
  ring s' = ring s ∧ allWidgets s' = allWidgets s.
Proof.
  intros H1 H2 H3 H4. split.
  - unfold ring. rewrite H4. clear H4.
    induction (layouts s) as [|l ls IH]; [done|]. cbn. rewrite IH.
    f_equal. destruct l; simpl; congruence.
  - unfold allWidgets. congruence.
Qed.

(** One call of [cycleContacts] on a well-formed dialog with an active
    contact: it returns, the dialog stays well-formed, and the new active
    widget is the one [ringStep] points at. *)
Lemma cycleContacts_wf s w (p : nat) fw inv :
  wf s → activeChatroomWidget s = Some w → ring s !! p = Some w →
  ∃ s' w' cur (i : nat),
    cycleContacts fw inv s = Some s'
    ∧ wf s' ∧ ring s' = ring s ∧ allWidgets s' = allWidgets s
    ∧ contactWidgets s' = contactWidgets s
    ∧ contactChatForms s' = contactChatForms s
    ∧ lifecycle s' = lifecycle s
    ∧ activeChatroomWidget s' = Some w'
    ∧ getCurrentLayout s = (Some cur, Z.of_nat i)
    ∧ ring s !! ringStep (cycleDirection s fw inv cur (Z.of_nat i))
                  (length (ring s)) p = Some w'.
Proof.
  intros Hwf Ha Hp.
  destruct (cycleContacts_step s w p fw inv Hwf Ha Hp)
    as (cur & i & w' & Hg & Hi & Hw' & Hc).
  assert (Hin : w' ∈ allWidgets s).
  { apply (wf_ring_elem s w' Hwf). by eapply list_elem_of_lookup_2. }
  destruct (activate_shown s w' Hwf Hin) as (form & _ & Hact).
  destruct (activate_wf s _ w' Hwf Hin Hact)
    as (Hwf' & Ha' & Hcw & Hcf & H1 & H2 & H3 & H4 & _ & Hlc & _).
  destruct (ring_activate s _ H1 H2 H3 H4) as [Hr Hall].
  eexists _, w', cur, i. rewrite Hc. split; [exact Hact|].
  repeat (split; [done|]). done.
Qed.

Lemma cycleContacts_forward_iter (k : nat) :
  ∀ s w (p : nat),
    wf s → activeChatroomWidget s = Some w → ring s !! p = Some w →
    ∃ s' w',
      repeatOp k (cycleContacts true true) s = Some s'
      ∧ wf s' ∧ contactWidgets s' = contactWidgets s
      ∧ activeChatroomWidget s' = Some w'
      ∧ ring s !! ((p + k) mod length (ring s))%nat = Some w'.
Proof.
  induction k as [|k IH]; intros s w p Hwf Ha Hp.
  - exists s, w. pose proof (lookup_lt_Some _ _ _ Hp).
    rewrite Nat.add_0_r, Nat.mod_small by done. done.
  - destruct (cycleContacts_wf s w p true true Hwf Ha Hp)
      as (s1 & w1 & cur & i & Hc & Hwf1 & Hr1 & _ & Hcw1 & _ & _ & Ha1 & _ & Hw1).
    rewrite cycleDirection_inverse in Hw1. unfold ringStep in Hw1.
    rewrite <- Hr1 in Hw1.
    destruct (IH s1 w1 _ Hwf1 Ha1 Hw1) as (s' & w' & Hrep & Hwf' & Hcw' & Ha' & Hw').
    exists s', w'. simpl. rewrite Hc. simpl. split; [done|].
    split; [done|]. split; [congruence|]. split; [done|].
    rewrite Hr1 in Hw'. rewrite Nat.Div0.add_mod_idemp_l in Hw'.
    by replace (p + S k)%nat with (p + 1 + k)%nat by lia.
Qed.

(** ** Removing a widget from the layouts *)

Lemma removeSortedWidget_not_elem w l : w ∉ l → removeSortedWidget w l = l.
Proof.
  induction l as [|x l IH]; [done|]. rewrite not_elem_of_cons. intros [Hx Hl].
  simpl. rewrite decide_False by done. by rewrite IH.
Qed.

Lemma removeSortedWidget_filter w l :
  NoDup l → removeSortedWidget w l = filter (λ x, x ≠ w) l.
Proof.
  induction l as [|x l IH]; [done|]. intros [Hx Hl]%NoDup_cons. simpl.
  destruct (decide (x = w)) as [->|Hne].
  - rewrite filter_cons_False by (intros H; by apply H).
    rewrite <- IH by done. by rewrite removeSortedWidget_not_elem.
  - rewrite filter_cons_True by done. by rewrite IH.
Qed.

Lemma dropWidget_allWidgets w s :
  NoDup (allWidgets s) →
  allWidgets (dropWidget w s) = filter (λ x, x ≠ w) (allWidgets s).
Proof.
  intros Hnd. destruct (allWidgets_nodup s Hnd) as (Hon & Hg & Hoff & _).
  unfold allWidgets, dropWidget. simpl.
  rewrite !filter_app, !removeSortedWidget_filter by done. done.
Qed.

Lemma dropWidget_friend w s :
  w ∉ groupLayout s →
  removeFriendWidget w Online (removeFriendWidget w Offline s) = dropWidget w s.
Proof.
  intros Hw. unfold dropWidget, removeFriendWidget, set_groupLayout, set_friendLayout.
  simpl. by rewrite (removeSortedWidget_not_elem w (groupLayout s)).
Qed.

Lemma dropWidget_group w s :
  w ∉ layoutOnline s → w ∉ layoutOffline s →
  set_groupLayout (removeSortedWidget w (groupLayout s)) s = dropWidget w s.
Proof.
  intros H1 H2. unfold dropWidget, set_groupLayout, set_friendLayout. simpl.
  by rewrite (removeSortedWidget_not_elem w (layoutOnline s)),
    (removeSortedWidget_not_elem w (layoutOffline s)).
Qed.

Lemma chatroomCount_allWidgets s :
  chatroomCount s = Z.of_nat (length (allWidgets s)).
Proof.
  unfold chatroomCount, friendTotalCount, count, allWidgets.
  rewrite !length_app. lia.
Qed.

Lemma ringStep_fixed d n p : (p < n)%nat → ringStep d n p = p → n = 1%nat.
Proof.
  intros Hp. unfold ringStep. destruct d.
  - destruct (decide (p + 1 < n)%nat).
    + rewrite Nat.mod_small by done. lia.
    + replace (p + 1)%nat with n by lia. rewrite Nat.Div0.mod_same. lia.
  - destruct p as [|p].
    + rewrite Nat.mod_small by lia. lia.
    + replace (S p + n - 1)%nat with (p + 1 * n)%nat by lia.
      rewrite Nat.Div0.mod_add, Nat.mod_small by lia. lia.
Qed.

(** The replacement that [cycleContacts] picks for the active widget [w]:
    another shown widget, unless [w] is the only one. *)
Lemma cycleContacts_replacement s w fw inv :
  wf s → activeChatroomWidget s = Some w →
  ∃ s1 w',
    cycleContacts fw inv s = Some s1
    ∧ wf s1 ∧ allWidgets s1 = allWidgets s
    ∧ contactWidgets s1 = contactWidgets s
    ∧ contactChatForms s1 = contactChatForms s
    ∧ lifecycle s1 = lifecycle s
    ∧ activeChatroomWidget s1 = Some w'
    ∧ w' ∈ allWidgets s
    ∧ (w' = w → ∀ x, x ∈ allWidgets s → x = w).
Proof.
  intros Hwf Ha.
  assert (Hw : w ∈ ring s) by by apply wf_ring_elem, (wf_active s Hwf).
  apply list_elem_of_lookup in Hw as [p Hp].
  destruct (cycleContacts_wf s w p fw inv Hwf Ha Hp)
    as (s1 & w' & cur & i & Hc & Hwf1 & _ & Hall & Hcw & Hcf & Hlc & Ha1 & _ & Hw').
  exists s1, w'. repeat (split; [done|]).
  pose proof (wf_ring_nodup s Hwf) as Hnd.
  pose proof (lookup_lt_Some _ _ _ Hp) as Hlt.
  split.
  { apply (wf_ring_elem s w' Hwf). by eapply list_elem_of_lookup_2. }
  intros -> x Hx.
  assert (Hfix : ringStep (cycleDirection s fw inv cur (Z.of_nat i))
                   (length (ring s)) p = p) by (eapply NoDup_lookup; eauto).
  apply ringStep_fixed in Hfix; [|done].
  apply (wf_ring_elem s x Hwf) in Hx.
  apply list_elem_of_lookup in Hx as [q Hq].
  pose proof (lookup_lt_Some _ _ _ Hq).
  assert (q = p) as -> by lia. congruence.
Qed.

Lemma dropWidget_elem s w x :
  NoDup (allWidgets s) →
  x ∈ allWidgets (dropWidget w s) ↔ x ∈ allWidgets s ∧ x ≠ w.
Proof.
  intros Hnd. rewrite dropWidget_allWidgets by done.
  rewrite list_elem_of_filter. tauto.
Qed.

Lemma dropWidget_empty_iff s id w :
  wf s → contactWidgets s !! id = Some (Some w) →
  allWidgets (dropWidget w s) = [] ↔ delete id (contactWidgets s) = ∅.
Proof.
  intros Hwf Hw. split.
  - intros Hnil. apply map_empty. intros i.
    destruct (decide (i = id)) as [->|Hne]; [apply lookup_delete_eq|].
    rewrite lookup_delete_ne by done.
    destruct (contactWidgets s !! i) as [[x|]|] eqn:Hx;
      [|by destruct (wf_nonnull s Hwf i)|done]. exfalso.
    assert (Hin : x ∈ allWidgets (dropWidget w s)).
    { apply dropWidget_elem; [apply (wf_nodup s Hwf)|]. split.
      - by eapply wf_managed_shown.
      - intros ->. apply Hne.
        by rewrite <- (wf_key s Hwf i w Hx), <- (wf_key s Hwf id w Hw). }
    rewrite Hnil in Hin. by apply elem_of_nil in Hin.
  - intros Hemp. destruct (allWidgets (dropWidget w s)) as [|x l] eqn:Hl; [done|].
    exfalso.
    assert (Hin : x ∈ allWidgets (dropWidget w s)) by (rewrite Hl; left).
    apply dropWidget_elem in Hin as [Hin Hne]; [|apply (wf_nodup s Hwf)].
    pose proof (wf_shown s Hwf x Hin) as Hx.
    assert (Hid : wcontact x ≠ id) by (intros E; rewrite E in Hx; congruence).
    assert (Hd : delete id (contactWidgets s) !! wcontact x = Some (Some x))
      by by rewrite lookup_delete_ne.
    rewrite Hemp in Hd. by rewrite lookup_empty in Hd.
Qed.

Lemma removeEntry_dropWidget s id w :
  wf s → contactWidgets s !! id = Some (Some w) →
  (activeChatroomWidget s = Some w → ∀ x, x ∈ allWidgets s → x = w) →
  ∃ s',
    removeEntry id (dropWidget w s) = s'
    ∧ wf s'
    ∧ contactWidgets s' = delete id (contactWidgets s)
    ∧ contactChatForms s' = delete id (contactChatForms s)
    ∧ allWidgets s' = filter (λ x, x ≠ w) (allWidgets s)
    ∧ lifecycle s'
      = (if decide (delete id (contactWidgets s) = ∅) then Closing else lifecycle s)
    ∧ activeChatroomWidget s'
      = (if decide (delete id (contactWidgets s) = ∅) then None
         else activeChatroomWidget s).
Proof.
  intros Hwf Hw Hact. eexists. split; [reflexivity|].
  pose proof (wf_nodup s Hwf) as Hnd.
  pose proof (dropWidget_allWidgets w s Hnd) as Hall.
  pose proof (dropWidget_empty_iff s id w Hwf Hw) as Hemp.
  pose proof (dropWidget_elem s w) as Helem.
  assert (Hcount : (chatroomCount (dropWidget w s) =? 0)
                   = bool_decide (delete id (contactWidgets s) = ∅)).
  { rewrite chatroomCount_allWidgets.
    destruct (decide (delete id (contactWidgets s) = ∅)) as [E|E].
    - rewrite bool_decide_eq_true_2 by done. apply Hemp in E. by rewrite E.
    - rewrite bool_decide_eq_false_2 by done.
      destruct (allWidgets (dropWidget w s)) as [|x l]; [|done].
      exfalso. by apply E, Hemp. }
  unfold removeEntry. rewrite Hcount.
  assert (Hall' : ∀ s2, layoutOnline s2 = layoutOnline (dropWidget w s) →
     groupLayout s2 = groupLayout (dropWidget w s) →
     layoutOffline s2 = layoutOffline (dropWidget w s) →
     allWidgets s2 = filter (λ x, x ≠ w) (allWidgets s)).
  { intros s2 E1 E2 E3. rewrite <- Hall. unfold allWidgets. congruence. }
  destruct (decide (delete id (contactWidgets s) = ∅)) as [E|E].
  - rewrite bool_decide_eq_true_2 by done. unfold closeIfEmpty. simpl.
    rewrite bool_decide_eq_true_2 by done.
    split; [|by repeat split; try apply Hall'].
    pose proof (proj2 Hemp E) as Hnil. rewrite Hall in Hnil.
    split; simpl; try done.
    + apply (wf_layouts s Hwf).
    + rewrite Hall', Hnil by reflexivity. constructor.
    + rewrite Hall', Hnil by reflexivity.
      intros x Hx. by apply elem_of_nil in Hx.
    + rewrite E. intros i x Hx. by rewrite lookup_empty in Hx.
    + rewrite E. intros i x Hx. by rewrite lookup_empty in Hx.
    + rewrite E. intros i x Hx. by rewrite lookup_empty in Hx.
    + rewrite E. intros i [x Hx]. by rewrite lookup_empty in Hx.
    + rewrite Hall', Hnil by reflexivity.
      intros x Hx. by apply elem_of_nil in Hx.
    + rewrite E. intros i. by rewrite lookup_empty.
  - rewrite bool_decide_eq_false_2 by done. unfold closeIfEmpty. simpl.
    rewrite bool_decide_eq_false_2 by done.
    split; [|by repeat split; try apply Hall'].
    assert (Hother : ∀ i x, delete id (contactWidgets s) !! i = Some (Some x) →
              i ≠ id ∧ contactWidgets s !! i = Some (Some x) ∧ x ≠ w).
    { intros i x Hx. destruct (decide (i = id)) as [->|Hne].
      - by rewrite lookup_delete_eq in Hx.
      - rewrite lookup_delete_ne in Hx by done. repeat split; try done.
        intros ->. apply Hne.
        by rewrite <- (wf_key s Hwf i w Hx), <- (wf_key s Hwf id w Hw). }
    split; simpl.
    + apply (wf_layouts s Hwf).
    + rewrite Hall' by reflexivity. by apply NoDup_filter.
    + rewrite Hall' by reflexivity.
      intros x [Hne Hx]%list_elem_of_filter.
      pose proof (wf_shown s Hwf x Hx) as Hsx.
      rewrite lookup_delete_ne; [done|].
      intros Hid. rewrite <- Hid in Hsx. congruence.
    + intros i x (_ & Hx & _)%Hother. by apply (wf_key s Hwf).
    + intros i x (_ & Hx & Hne)%Hother Hk.
      pose proof (wf_friend s Hwf i x Hx Hk) as Hin.
      pose proof (allWidgets_nodup s Hnd) as (Hon & _ & Hoff & _).
      rewrite !removeSortedWidget_filter by done.
      rewrite <- filter_app. apply list_elem_of_filter. done.
    + intros i x (_ & Hx & Hne)%Hother Hk.
      pose proof (wf_group s Hwf i x Hx Hk) as Hin.
      pose proof (allWidgets_nodup s Hnd) as (_ & Hg & _).
      rewrite removeSortedWidget_filter by done.
      apply list_elem_of_filter. done.
    + intros i [x Hx]. destruct (decide (i = id)) as [->|Hne].
      { by rewrite lookup_delete_eq in Hx. }
      rewrite lookup_delete_ne in Hx by done.
      rewrite lookup_delete_ne by done. apply (wf_forms s Hwf). eauto.
    + rewrite Hall' by reflexivity. intros a Ha.
      pose proof (wf_active s Hwf a Ha) as Hin.
      apply list_elem_of_filter. split; [|done]. intros ->.
      apply E, Hemp. rewrite Hall.
      destruct (filter _ _) as [|x l] eqn:Hf; [done|]. exfalso.
      assert (Hx : x ∈ filter (λ x, x ≠ w) (allWidgets s)) by (rewrite Hf; left).
      apply list_elem_of_filter in Hx as [Hne Hx]. apply Hne.
      by apply (Hact Ha).
    + rewrite Hall' by reflexivity.
      intros x [_ Hx]%list_elem_of_filter. by apply (wf_heap s Hwf).
    + intros i. destruct (decide (i = id)) as [->|Hne].
      * by rewrite lookup_delete_eq.
      * rewrite lookup_delete_ne by done. apply (wf_nonnull s Hwf).
Qed.

(** ** Removal on well-formed dialogs *)

Lemma qobject_cast_Some kind p w :
  qobject_cast kind p = Some w ↔ p = Some w ∧ wkind w = kind.
Proof.
  unfold qobject_cast. destruct p as [x|]; [|by split; [|intros [? _]]].
  destruct (decide (wkind x = kind)) as [E|E]; split.
  - by intros [= ->].
  - by intros [[= ->] _].
  - done.
  - intros [[= ->] Hk]. by destruct E.
Qed.

Lemma subscript_entry m key p : m !! key = Some p → subscript m key = (p, m).
Proof. intros H. unfold subscript. by rewrite H. Qed.

Lemma removeFriend_inv id s s' :
  removeFriend id s = Some s' →
  ∃ w, contactWidgets s !! id = Some (Some w) ∧ wkind w = FriendWidget.
Proof.
  unfold removeFriend.
  destruct (qobject_cast _ _) as [w|] eqn:Hcast; [|done]. intros _.
  apply qobject_cast_Some in Hcast as [Hp Hk]. exists w. split; [|done].
  revert Hp. unfold subscript.
  destruct (contactWidgets s !! id) as [p|]; simpl; [|done]. by intros ->.
Qed.

Lemma removeGroup_inv id s s' :
  removeGroup id s = Some s' →
  ∃ w, contactWidgets s !! id = Some (Some w) ∧ wkind w = GroupWidget.
Proof.
  unfold removeGroup.
  destruct (qobject_cast _ _) as [w|] eqn:Hcast; [|done]. intros _.
  apply qobject_cast_Some in Hcast as [Hp Hk]. exists w. split; [|done].
  revert Hp. unfold subscript.
  destruct (contactWidgets s !! id) as [p|]; simpl; [|done]. by intros ->.
Qed.

Lemma removeFriend_entry id s w :
  contactWidgets s !! id = Some (Some w) → wkind w = FriendWidget →
  removeFriend id s
  = (s ← selectReplacement w s;
     Some (removeEntry id
             (removeFriendWidget w Online (removeFriendWidget w Offline s)))).
Proof.
  intros Hw Hk. unfold removeFriend.
  rewrite (subscript_entry _ _ _ Hw). unfold qobject_cast. cbn [fst].
  by rewrite decide_True.
Qed.

Lemma removeGroup_entry id s w :
  contactWidgets s !! id = Some (Some w) → wkind w = GroupWidget →
  removeGroup id s
  = (s ← selectReplacement w s;
     Some (removeEntry id
             (set_groupLayout (removeSortedWidget w (groupLayout s)) s))).
Proof.
  intros Hw Hk. unfold removeGroup.
  rewrite (subscript_entry _ _ _ Hw). unfold qobject_cast. cbn [fst].
  by rewrite decide_True.
Qed.

Lemma selectReplacement_wf s w :
  wf s →
  ∃ s1,
    selectReplacement w s = Some s1
    ∧ wf s1 ∧ allWidgets s1 = allWidgets s
    ∧ contactWidgets s1 = contactWidgets s
    ∧ contactChatForms s1 = contactChatForms s
    ∧ lifecycle s1 = lifecycle s
    ∧ (activeChatroomWidget s1 = Some w → ∀ x, x ∈ allWidgets s1 → x = w).
Proof.
  intros Hwf. unfold selectReplacement.
  destruct (decide (activeChatroomWidget s = Some w)) as [Ha|Ha].
  - destruct (cycleContacts_replacement s w true false Hwf Ha)
      as (s1 & w' & Hc & Hwf1 & Hall & Hcw & Hcf & Hlc & Ha1 & Hin & Hsame).
    exists s1. repeat (split; [done|]).
    rewrite Ha1, Hall. intros [= ->]. by apply Hsame.
  - exists s. repeat (split; [done|]). intros Ha'. done.
Qed.

Lemma removeFriend_wf s friendPk w :
  wf s → contactWidgets s !! friendPk = Some (Some w) → wkind w = FriendWidget →
  ∃ s1 s',
    selectReplacement w s = Some s1
    ∧ removeFriend friendPk s = Some s'
    ∧ s' = removeEntry friendPk (dropWidget w s1)
    ∧ wf s'
    ∧ contactWidgets s' = delete friendPk (contactWidgets s)
    ∧ allWidgets s' = filter (λ x, x ≠ w) (allWidgets s)
    ∧ lifecycle s'
      = (if decide (delete friendPk (contactWidgets s) = ∅) then Closing
         else lifecycle s)
    ∧ activeChatroomWidget s'
      = (if decide (delete friendPk (contactWidgets s) = ∅) then None
         else activeChatroomWidget s1).
Proof.
  intros Hwf Hw Hk.
  destruct (selectReplacement_wf s w Hwf)
    as (s1 & Hsel & Hwf1 & Hall & Hcw & Hcf & Hlc & Hact).
  assert (Hw1 : contactWidgets s1 !! friendPk = Some (Some w)) by by rewrite Hcw.
  destruct (removeEntry_dropWidget s1 friendPk w Hwf1 Hw1 Hact)
    as (s' & Hs' & Hwf' & Hcw' & Hcf' & Hall' & Hlc' & Ha').
  exists s1, s'. split; [done|].
  assert (Hng : w ∉ groupLayout s1).
  { pose proof (wf_friend s1 Hwf1 friendPk w Hw1 Hk) as Hin.
    destruct (allWidgets_nodup s1 (wf_nodup s1 Hwf1)) as (_ & _ & _ & Hd1 & Hd2).
    apply elem_of_app in Hin as [Hin|Hin].
    - by destruct (Hd1 w Hin).
    - intros Hg. by apply (Hd2 w Hg). }
  split.
  { rewrite (removeFriend_entry friendPk s w Hw Hk), Hsel.
    cbn [mbind option_bind].
    rewrite dropWidget_friend by done. by rewrite Hs'. }
  split; [done|].
  rewrite Hcw', Hall', Hlc', Ha', Hcw, Hall, Hlc. done.
Qed.

Lemma removeGroup_wf s groupId w :
  wf s → contactWidgets s !! groupId = Some (Some w) → wkind w = GroupWidget →
  ∃ s1 s',
    selectReplacement w s = Some s1
    ∧ removeGroup groupId s = Some s'
    ∧ s' = removeEntry groupId (dropWidget w s1)
    ∧ wf s'
    ∧ contactWidgets s' = delete groupId (contactWidgets s)
    ∧ allWidgets s' = filter (λ x, x ≠ w) (allWidgets s)
    ∧ lifecycle s'
      = (if decide (delete groupId (contactWidgets s) = ∅) then Closing
         else lifecycle s)
    ∧ activeChatroomWidget s'
      = (if decide (delete groupId (contactWidgets s) = ∅) then None
         else activeChatroomWidget s1).
Proof.
  intros Hwf Hw Hk.
  destruct (selectReplacement_wf s w Hwf)
    as (s1 & Hsel & Hwf1 & Hall & Hcw & Hcf & Hlc & Hact).
  assert (Hw1 : contactWidgets s1 !! groupId = Some (Some w)) by by rewrite Hcw.
  destruct (removeEntry_dropWidget s1 groupId w Hwf1 Hw1 Hact)
    as (s' & Hs' & Hwf' & Hcw' & Hcf' & Hall' & Hlc' & Ha').
  exists s1, s'. split; [done|].
  assert (Hnf : (w ∉ layoutOnline s1) ∧ (w ∉ layoutOffline s1)).
  { pose proof (wf_group s1 Hwf1 groupId w Hw1 Hk) as Hin.
    destruct (allWidgets_nodup s1 (wf_nodup s1 Hwf1)) as (_ & _ & _ & Hd1 & Hd2).
    split.
    - intros Hon. by destruct (Hd1 w Hon).
    - by apply Hd2. }
  split.
  { rewrite (removeGroup_entry groupId s w Hw Hk), Hsel.
    cbn [mbind option_bind].
    rewrite dropWidget_group by tauto. by rewrite Hs'. }
  split; [done|].
  rewrite Hcw', Hall', Hlc', Ha', Hcw, Hall, Hlc. done.
Qed.

(** ** Adding on well-formed dialogs *)

Lemma placed_allWidgets w s s' :
  placed w s s' → allWidgets s' ≡ₚ w :: allWidgets s.
Proof.
  unfold allWidgets.
  intros [(_ & E1 & E2 & E3)|[(_ & E1 & E2 & E3)|(_ & E1 & E2 & E3)]];
    rewrite E1, E2, E3.
  - done.
  - rewrite (app_assoc (layoutOnline s)), <- Permutation_middle.
    by rewrite <- app_assoc.
  - simpl. by rewrite <- Permutation_middle.
Qed.

Lemma insert_wf s s' id w form :
  wf s → contactWidgets s !! id = None →
  wptr w = heapNext s → wcontact w = id →
  placed w s s' →
  layouts s' = layouts s →
  contactWidgets s' = <[id := Some w]> (contactWidgets s) →
  contactChatForms s' = <[id := form]> (contactChatForms s) →
  activeChatroomWidget s' = Some w →
  heapNext s' = S (heapNext s) →
  wf s'.
Proof.
  intros Hwf Hnone Hptr Hid Hpl Hl Hcw Hcf Ha Hh.
  pose proof (placed_allWidgets w s s' Hpl) as Hall.
  assert (Hfresh : w ∉ allWidgets s).
  { intros Hin. pose proof (wf_heap s Hwf w Hin). lia. }
  split.
  - rewrite Hl. apply (wf_layouts s Hwf).
  - rewrite Hall. apply NoDup_cons. split; [done|apply (wf_nodup s Hwf)].
  - intros x. rewrite Hall, Hcw, elem_of_cons. intros [->|Hx].
    + rewrite Hid. apply lookup_insert_eq.
    + pose proof (wf_shown s Hwf x Hx) as Hsx.
      rewrite lookup_insert_ne; [done|]. intros E. rewrite <- E in Hsx. congruence.
  - intros i x. rewrite Hcw. destruct (decide (id = i)) as [<-|Hne].
    + rewrite lookup_insert_eq. by intros [= <-].
    + rewrite lookup_insert_ne by done. apply (wf_key s Hwf).
  - intros i x. rewrite Hcw. destruct (decide (id = i)) as [<-|Hne].
    + rewrite lookup_insert_eq. intros [= <-] Hk.
      destruct Hpl as [(_ & E1 & E2 & E3)|[(_ & E1 & E2 & E3)|(Hk' & _)]].
      * rewrite E1, E3. left.
      * rewrite E1, E3. apply elem_of_app. right. left.
      * congruence.
    + rewrite lookup_insert_ne by done. intros Hx Hk.
      pose proof (wf_friend s Hwf i x Hx Hk) as Hin.
      destruct Hpl as [(_ & E1 & E2 & E3)|[(_ & E1 & E2 & E3)|(_ & E1 & E2 & E3)]];
        rewrite E1, E3; rewrite ?elem_of_app, ?elem_of_cons in *; tauto.
  - intros i x. rewrite Hcw. destruct (decide (id = i)) as [<-|Hne].
    + rewrite lookup_insert_eq. intros [= <-] Hk.
      destruct Hpl as [(Hk' & _)|[(Hk' & _)|(_ & E1 & E2 & E3)]]; try congruence.
      rewrite E2. left.
    + rewrite lookup_insert_ne by done. intros Hx Hk.
      pose proof (wf_group s Hwf i x Hx Hk) as Hin.
      destruct Hpl as [(_ & E1 & E2 & E3)|[(_ & E1 & E2 & E3)|(_ & E1 & E2 & E3)]];
        rewrite E2; rewrite ?elem_of_cons; tauto.
  - intros i. rewrite Hcw, Hcf. destruct (decide (id = i)) as [<-|Hne].
    + rewrite !lookup_insert_eq. eauto.
    + rewrite !lookup_insert_ne by done. apply (wf_forms s Hwf).
  - intros x. rewrite Ha, Hall. intros [= <-]. left.
  - intros x. rewrite Hall, Hh, elem_of_cons. intros [->|Hx].
    + lia.
    + pose proof (wf_heap s Hwf x Hx). lia.
  - intros i. rewrite Hcw. destruct (decide (id = i)) as [<-|Hne].
    + by rewrite lookup_insert_eq.
    + rewrite lookup_insert_ne by done. apply (wf_nonnull s Hwf).
Qed.

Section Adding.

Variable closestSortedIndex : Widget → list Widget → nat.

Lemma addSortedWidget_Permutation w l :
  addSortedWidget closestSortedIndex w l ≡ₚ w :: l.
Proof.
  unfold addSortedWidget. rewrite <- Permutation_middle. by rewrite take_drop.
Qed.

Lemma activate_fresh_form w form s cw cf :
  ∃ s', activate (Some w) (set_contacts cw (<[wcontact w := form]> cf) s) = Some s'
    ∧ activeChatroomWidget s' = Some w
    ∧ contactWidgets s' = cw
    ∧ contactChatForms s' = <[wcontact w := form]> cf
    ∧ layouts s' = layouts s ∧ heapNext s' = heapNext s
    ∧ lifecycle s' = lifecycle s
    ∧ layoutOnline s' = layoutOnline s ∧ groupLayout s' = groupLayout s
    ∧ layoutOffline s' = layoutOffline s.
Proof.
  unfold activate. simpl.
  destruct (decide (activeChatroomWidget s = Some w)) as [Ha|Ha].
  - eexists. split; [reflexivity|]. by repeat split.
  - rewrite lookup_insert_eq. eexists. split; [reflexivity|]. by repeat split.
Qed.

Lemma addFriend_returns friendPk status form s :
  let w := mkWidget (heapNext s) FriendWidget friendPk in
  ∃ s',
    addFriend closestSortedIndex friendPk status form s = Some (w, s')
    ∧ activeChatroomWidget s' = Some w
    ∧ contactWidgets s' = <[friendPk := Some w]> (contactWidgets s)
    ∧ contactChatForms s' = <[friendPk := form]> (contactChatForms s)
    ∧ layouts s' = layouts s ∧ heapNext s' = S (heapNext s)
    ∧ lifecycle s' = lifecycle s
    ∧ groupLayout s' = groupLayout s
    ∧ layoutOnline s'
      = (let on := removeSortedWidget w (layoutOnline s) in
         match status with
         | Online => addSortedWidget closestSortedIndex w on
         | Offline => on
         end)
    ∧ layoutOffline s'
      = (let off := removeSortedWidget w (layoutOffline s) in
         match status with
         | Online => off
         | Offline => addSortedWidget closestSortedIndex w off
         end).
Proof.
  intros w. unfold addFriend, friendLayout_addFriendWidget. fold w.
  cbn [mbind option_bind].
  destruct status;
    match goal with
    | |- context [activate (Some w) (set_contacts ?cw (<[_ := _]> ?cf) ?s0)] =>
        destruct (activate_fresh_form w form s0 cw cf)
          as (s' & Hact & Ha & Hcw & Hcf & Hl & Hh & Hlc & Hon & Hg & Hoff)
    end;
    change (wcontact w) with friendPk in *;
    exists s'; rewrite Hact; cbn [mbind option_bind];
    (split; [done|]); rewrite Ha, Hcw, Hcf, Hl, Hh, Hlc, Hon, Hg, Hoff;
    by repeat split.
Qed.

Lemma addGroup_returns groupId form s :
  let w := mkWidget (heapNext s) GroupWidget groupId in
  ∃ s',
    addGroup closestSortedIndex groupId form s = Some (w, s')
    ∧ activeChatroomWidget s' = Some w
    ∧ contactWidgets s' = <[groupId := Some w]> (contactWidgets s)
    ∧ contactChatForms s' = <[groupId := form]> (contactChatForms s)
    ∧ layouts s' = layouts s ∧ heapNext s' = S (heapNext s)
    ∧ lifecycle s' = lifecycle s
    ∧ groupLayout s' = addSortedWidget closestSortedIndex w (groupLayout s)
    ∧ layoutOnline s' = layoutOnline s
    ∧ layoutOffline s' = layoutOffline s.
Proof.
  intros w. unfold addGroup. fold w.
  match goal with
  | |- context [activate (Some w) (set_contacts ?cw (<[_ := _]> ?cf) ?s0)] =>
      destruct (activate_fresh_form w form s0 cw cf)
        as (s' & Hact & Ha & Hcw & Hcf & Hl & Hh & Hlc & Hon & Hg & Hoff)
  end.
  change (wcontact w) with groupId in *.
  exists s'. rewrite Hact. cbn [mbind option_bind].
  split; [done|]. rewrite Ha, Hcw, Hcf, Hl, Hh, Hlc, Hon, Hg, Hoff.
  by repeat split.
Qed.

Lemma addFriend_wf friendPk status form s :
  wf s → contactWidgets s !! friendPk = None →
  ∃ w s',
    addFriend closestSortedIndex friendPk status form s = Some (w, s')
    ∧ wf s'
    ∧ contactWidgets s' = <[friendPk := Some w]> (contactWidgets s)
    ∧ wkind w = FriendWidget.
Proof.
  intros Hwf Hnone.
  destruct (addFriend_returns friendPk status form s)
    as (s' & Hadd & Ha & Hcw & Hcf & Hl & Hh & Hlc & Hg & Hon & Hoff).
  set (w := mkWidget (heapNext s) FriendWidget friendPk) in *.
  exists w, s'. split; [done|]. split; [|done].
  assert (Hfresh : w ∉ allWidgets s).
  { intros Hin. pose proof (wf_heap s Hwf w Hin) as Hlt. simpl in Hlt. lia. }
  unfold allWidgets in Hfresh. rewrite !elem_of_app in Hfresh.
  cbv zeta in Hon, Hoff.
  rewrite (removeSortedWidget_not_elem w (layoutOnline s)) in Hon by tauto.
  rewrite (removeSortedWidget_not_elem w (layoutOffline s)) in Hoff by tauto.
  apply (insert_wf s s' friendPk w form); try done.
  destruct status.
  - left. rewrite Hon, Hoff, Hg.
    repeat split; try done. apply addSortedWidget_Permutation.
  - right; left. rewrite Hon, Hoff, Hg.
    repeat split; try done. apply addSortedWidget_Permutation.
Qed.

Lemma addGroup_wf groupId form s :
  wf s → contactWidgets s !! groupId = None →
  ∃ w s',
    addGroup closestSortedIndex groupId form s = Some (w, s')
    ∧ wf s'
    ∧ contactWidgets s' = <[groupId := Some w]> (contactWidgets s)
    ∧ wkind w = GroupWidget.
Proof.
  intros Hwf Hnone.
  destruct (addGroup_returns groupId form s)
    as (s' & Hadd & Ha & Hcw & Hcf & Hl & Hh & Hlc & Hg & Hon & Hoff).
  set (w := mkWidget (heapNext s) GroupWidget groupId) in *.
  exists w, s'. split; [done|]. split; [|done].
  apply (insert_wf s s' groupId w form); try done.
  right; right. rewrite Hon, Hoff, Hg.
  repeat split; try done. apply addSortedWidget_Permutation.
Qed.

End Adding.

(** ** Checking well-formedness of a given dialog *)

Lemma wf_check s :
  layouts s = [LayoutOnline; LayoutGroups; LayoutOffline]
  ∨ layouts s = [LayoutGroups; LayoutOnline; LayoutOffline] →
  NoDup (allWidgets s) →
  Forall (λ w, contactWidgets s !! wcontact w = Some (Some w)
               ∧ (wptr w < heapNext s)%nat) (allWidgets s) →
  map_Forall (λ id widget,
      from_option (λ w,
        wcontact w = id
        ∧ (wkind w = FriendWidget → w ∈ layoutOnline s ++ layoutOffline s)
        ∧ (wkind w = GroupWidget → w ∈ groupLayout s)
        ∧ is_Some (contactChatForms s !! id)) False widget) (contactWidgets s) →
  from_option (λ w, w ∈ allWidgets s) True (activeChatroomWidget s) →
  wf s.
Proof.
  intros Hl Hnd Hall Hmap Ha. rewrite Forall_forall in Hall.
  split; try done.
  - intros w Hw. by apply Hall.
  - intros id w Hw. by apply (Hmap id _ Hw).
  - intros id w Hw. by apply (Hmap id _ Hw).
  - intros id w Hw. by apply (Hmap id _ Hw).
  - intros id [[w|] Hw]; [by apply (Hmap id _ Hw)|by destruct (Hmap id _ Hw)].
  - intros w Hw. by rewrite Hw in Ha.
  - intros w Hw. by apply Hall.
  - intros id Hw. by destruct (Hmap id _ Hw).
Qed.

Ltac by_computation := apply (bool_decide_unpack _); vm_compute; exact I.

Ltac check_wf :=
  apply wf_check;
  [ by (left + right)
  | by_computation
  | by_computation
  | by_computation
  | first [ exact I | simpl; by_computation ] ].

Lemma dialogABG_wf : wf dialogABG.
Proof. check_wf. Qed.

Lemma ContentDialog_new_wf groupchatPosition : wf (ContentDialog_new groupchatPosition).
Proof.
  apply wf_check; simpl.
  - destruct groupchatPosition; auto.
  - constructor.
  - constructor.
  - apply map_Forall_empty.
  - done.
Qed.

Lemma removeContact_wf s id w :
  wf s → contactWidgets s !! id = Some (Some w) →
  ∃ s1 s',
    selectReplacement w s = Some s1
    ∧ removeContact (wkind w) id s = Some s'
    ∧ s' = removeEntry id (dropWidget w s1)
    ∧ wf s'
    ∧ contactWidgets s' = delete id (contactWidgets s)
    ∧ allWidgets s' = filter (λ x, x ≠ w) (allWidgets s)
    ∧ lifecycle s'
      = (if decide (delete id (contactWidgets s) = ∅) then Closing
         else lifecycle s)
    ∧ activeChatroomWidget s'
      = (if decide (delete id (contactWidgets s) = ∅) then None
         else activeChatroomWidget s1).
Proof.
  intros Hwf Hw. destruct (wkind w) eqn:Hk; simpl.
  - by apply removeFriend_wf.
  - by apply removeGroup_wf.
Qed.

Lemma delete_empty_iff_size {A} (m : gmap string A) id x :
  m !! id = Some x → delete id m = ∅ ↔ size m = 1%nat.
Proof.
  intros Hx. rewrite <- map_size_empty_iff.
  rewrite <- (insert_delete_id m id x Hx) at 2.
  rewrite map_size_insert_None by apply lookup_delete_eq. lia.
Qed.

Lemma dialogA_wf : wf dialogA.
Proof. check_wf. Qed.

(** ** Other operations keep the invariant *)

Lemma reorderLayouts_wf newGroupOnTop s :
  wf s → ∃ s', reorderLayouts newGroupOnTop s = Some s' ∧ wf s'.
Proof.
  intros Hwf. unfold reorderLayouts.
  destruct Hwf as [Hl H2 H3 H4 H5 H6 H7 H8 H9 H10].
  destruct Hl as [E|E]; rewrite E; destruct newGroupOnTop; simpl;
    eexists; (split; [reflexivity|]); split; simpl; rewrite ?E; auto.
Qed.

Lemma focusContact_wf id s :
  wf s → ∃ s', focusContact id s = Some s' ∧ wf s'
    ∧ contactWidgets s' = contactWidgets s.
Proof.
  intros Hwf. unfold focusContact, focusCommon.
  destruct (contactWidgets s !! id) as [[w|]|] eqn:Hw;
    [|by destruct (wf_nonnull s Hwf id)|by exists s].
  pose proof (wf_managed_shown s id w Hwf Hw) as Hin.
  destruct (activate_shown s w Hwf Hin) as (form & _ & Hact).
  destruct (activate_wf s _ w Hwf Hin Hact) as (Hwf' & _ & Hcw & _).
  eexists. split; [exact Hact|]. by split.
Qed.

Lemma updateFriendStatus_managed closestSortedIndex id status s w :
  contactWidgets s !! id = Some (Some w) → wkind w = FriendWidget →
  ∃ s', updateFriendStatus closestSortedIndex id status s = Some s'
    ∧ contactWidgets s' = contactWidgets s
    ∧ activeChatroomWidget s' = activeChatroomWidget s
    ∧ groupLayout s' = groupLayout s.
Proof.
  intros Hw Hk. unfold updateFriendStatus, addFriendWidget, value.
  rewrite Hw. unfold qobject_cast. simpl. rewrite decide_True by done.
  unfold friendLayout_addFriendWidget.
  eexists. split; [reflexivity|]. by destruct status.
Qed.

(** ** The fuel of the loop *)

Lemma cycleLoop_unfold fuel s fw c idx :
  cycleLoop fuel s fw c idx
  = if (idx <? 0) || (idx >=? count (layoutItems s c)) then
      match fuel with
      | O => None
      | S fuel =>
          c' ← nextLayout s c fw;
          cycleLoop fuel s fw c'
            (if idx <? 0 then count (layoutItems s c') - 1
             else if idx >=? count (layoutItems s c) then 0 else idx)
      end
    else Some (c, idx).
Proof. by destruct fuel. Qed.

Lemma cycleLoop_more_fuel fuel s fw :
  ∀ c idx r, cycleLoop fuel s fw c idx = Some r →
    cycleLoop (S fuel) s fw c idx = Some r.
Proof.
  induction fuel as [|fuel IH]; intros c idx r.
  - rewrite (cycleLoop_unfold 1), (cycleLoop_unfold 0).
    by destruct ((idx <? 0) || (idx >=? count (layoutItems s c))).
  - rewrite (cycleLoop_unfold (S (S fuel))), (cycleLoop_unfold (S fuel)).
    destruct ((idx <? 0) || (idx >=? count (layoutItems s c))); [|done].
    destruct (nextLayout s c fw) as [c'|]; [|done].
    cbn [mbind option_bind]. apply IH.
Qed.

(** A set of empty layouts that [nextLayout] does not leave: the loop never
    stops in it. *)
Lemma cycleLoop_stuck s fw (E : LayoutId → Prop) :
  (∀ c, E c → layoutItems s c = []
            ∧ ∀ c', nextLayout s c fw = Some c' → E c') →
  ∀ fuel c idx, E c → idx = -1 ∨ idx = 0 →
    cycleLoop fuel s fw c idx = None.
Proof.
  intros HE. induction fuel as [|fuel IH]; intros c idx Hc Hidx;
    rewrite cycleLoop_unfold; destruct (HE c Hc) as [Hnil Hnext];
    rewrite Hnil; unfold count; simpl.
  - by destruct Hidx as [-> | ->].
  - destruct (nextLayout s c fw) as [c'|] eqn:Hn.
    2:{ by destruct Hidx as [-> | ->]. }
    destruct (HE c' (Hnext c' eq_refl)) as [Hnil' _].
    destruct Hidx as [-> | ->]; simpl; apply IH; try by apply Hnext.
    + left. rewrite Hnil'. done.
    + by right.
Qed.

Lemma out_of_range_settled (l : list Widget) idx :
  idx = count l - 1 ∨ idx = 0 →
  (idx <? 0) || (idx >=? count l) = true →
  l = [] ∧ (idx = -1 ∨ idx = 0).
Proof.
  intros Hset Hout. apply orb_true_iff in Hout.
  rewrite Z.ltb_lt, Z.geb_le in Hout. unfold count in *.
  destruct l as [|h t]; simpl length in *; [split; [done|lia]|lia].
Qed.

(** Three iterations decide the loop: more fuel gives the same result. *)
Lemma cycleLoop_fuel_enough fuel s fw c idx :
  (cycleFuel ≤ fuel)%nat →
  cycleLoop fuel s fw c idx = cycleLoop cycleFuel s fw c idx.
Proof.
  intros Hfuel.
  destruct (cycleLoop cycleFuel s fw c idx) as [r|] eqn:H3.
  - induction Hfuel as [|fuel Hle IH]; [done|]. by apply cycleLoop_more_fuel.
  - unfold cycleFuel in *. destruct fuel as [|[|[|fuel]]]; try lia. clear Hfuel.
    revert H3. rewrite (cycleLoop_unfold 3), (cycleLoop_unfold (S _)).
    destruct ((idx <? 0) || (idx >=? count (layoutItems s c))) eqn:Hout; [|done].
    destruct (nextLayout s c fw) as [c1|] eqn:Hn0; [|done].
    cbn [mbind option_bind].
    set (idx1 := if idx <? 0 then count (layoutItems s c1) - 1
                 else if idx >=? count (layoutItems s c) then 0 else idx).
    assert (Hset : idx1 = count (layoutItems s c1) - 1 ∨ idx1 = 0).
    { unfold idx1. destruct (idx <? 0); [by left|].
      simpl in Hout. rewrite Hout. by right. }
    clearbody idx1. clear Hout Hn0 idx c.
    rewrite (cycleLoop_unfold 2).
    destruct ((idx1 <? 0) || (idx1 >=? count (layoutItems s c1))) eqn:Hout1; [|done].
    destruct (out_of_range_settled _ _ Hset Hout1) as [Hnil1 Hidx1].
    destruct (nextLayout s c1 fw) as [c2|] eqn:Hn1.
    2:{ intros _. apply (cycleLoop_stuck s fw (λ x, x = c1)); [|done|done].
        intros x ->. split; [done|]. intros c'. by rewrite Hn1. }
    cbn [mbind option_bind].
    set (idx2 := if idx1 <? 0 then count (layoutItems s c2) - 1
                 else if idx1 >=? count (layoutItems s c1) then 0 else idx1).
    assert (Hset2 : idx2 = count (layoutItems s c2) - 1 ∨ idx2 = 0).
    { unfold idx2. destruct (idx1 <? 0); [by left|].
      simpl in Hout1. rewrite Hout1. by right. }
    clearbody idx2.
    rewrite (cycleLoop_unfold 1).
    destruct ((idx2 <? 0) || (idx2 >=? count (layoutItems s c2))) eqn:Hout2; [|done].
    destruct (out_of_range_settled _ _ Hset2 Hout2) as [Hnil2 _].
    destruct (nextLayout s c2 fw) as [c3|] eqn:Hn2.
    2:{ intros _. apply (cycleLoop_stuck s fw (λ x, x = c1 ∨ x = c2)); [|by left|done].
        intros x [-> | ->]; (split; [done|]); intros c'.
        - rewrite Hn1. intros [= <-]. by right.
        - by rewrite Hn2. }
    cbn [mbind option_bind].
    set (idx3 := if idx2 <? 0 then count (layoutItems s c3) - 1
                 else if idx2 >=? count (layoutItems s c2) then 0 else idx2).
    assert (Hset3 : idx3 = count (layoutItems s c3) - 1 ∨ idx3 = 0).
    { unfold idx3. destruct (idx2 <? 0); [by left|].
      simpl in Hout2. rewrite Hout2. by right. }
    clearbody idx3.
    rewrite (cycleLoop_unfold 0).
    destruct ((idx3 <? 0) || (idx3 >=? count (layoutItems s c3))) eqn:Hout3; [|done].
    destruct (out_of_range_settled _ _ Hset3 Hout3) as [Hnil3 _].
    intros _.
    apply (cycleLoop_stuck s fw (λ x, x = c1 ∨ x = c2 ∨ x = c3)); [|by left|done].
    intros x Hx. split; [by destruct Hx as [-> |[-> | ->]]|].
    intros c' Hc'.
    destruct Hx as [-> |[-> | ->]].
    + right; left. congruence.
    + right; right. congruence.
    + clear - Hn1 Hn2 Hc'. destruct c1, c2, c3, c'; auto; congruence.
Qed.

(** * The claims *)

(** ** Cycling *)

(** C1, as stated, fails: with [inverse = false] the third call does not
    wrap around to A. *)
Lemma cycleContacts_scenario_no_wrap :
  ¬ (activeAfter 1 false dialogABG = Some (Some wG)
     ∧ activeAfter 2 false dialogABG = Some (Some wB)
     ∧ activeAfter 3 false dialogABG = Some (Some wA)).
Proof. intros (_ & _ & H). vm_compute in H. discriminate H. Qed.

(** C1, as amended: with A online, B offline, G a group, groups not on top
    and A active, three successive calls of [cycleContacts] with
    [forward = true] and [inverse = false] activate G, then B, then G again
    (at the end of the last grouping the direction is flipped); with
    [inverse = true] they activate G, then B, then A (wrapping around). *)
Theorem cycleContacts_scenario :
  (activeAfter 1 false dialogABG = Some (Some wG)
   ∧ activeAfter 2 false dialogABG = Some (Some wB)
   ∧ activeAfter 3 false dialogABG = Some (Some wG))
  ∧ (activeAfter 1 true dialogABG = Some (Some wG)
     ∧ activeAfter 2 true dialogABG = Some (Some wB)
     ∧ activeAfter 3 true dialogABG = Some (Some wA)).
Proof. repeat split; by vm_compute. Qed.

(** C2, as stated, fails: in the scenario dialog (three managed contacts,
    no grouping empty, A active) three calls with [inverse = false] lead
    to G, not back to A. *)
Lemma cycleContacts_period_no_return :
  size (contactWidgets dialogABG) = 3%nat
  ∧ layoutOnline dialogABG ≠ [] ∧ groupLayout dialogABG ≠ []
  ∧ layoutOffline dialogABG ≠ []
  ∧ activeChatroomWidget dialogABG = Some wA
  ∧ activeAfter 3 false dialogABG = Some (Some wG)
  ∧ wG ≠ wA.
Proof. repeat split; done. Qed.

(** C2, as amended: on every well-formed dialog with N managed contacts
    and an active contact (whether or not a grouping is empty),
    [cycleContacts] returns and the contact it leaves active is a managed
    one, for every [forward] and [inverse]; N calls with [forward = true]
    and [inverse = true] lead back to the contact that was active, and no
    smaller positive number of calls does. *)
Theorem cycleContacts_period s w :
  wf s → activeChatroomWidget s = Some w →
  (∀ fw inv, ∃ s' w',
      cycleContacts fw inv s = Some s'
      ∧ activeChatroomWidget s' = Some w'
      ∧ contactWidgets s' = contactWidgets s
      ∧ contactWidgets s' !! wcontact w' = Some (Some w'))
  ∧ (∃ s', repeatOp (size (contactWidgets s)) (cycleContacts true true) s = Some s'
           ∧ activeChatroomWidget s' = Some w)
  ∧ (∀ k, (0 < k < size (contactWidgets s))%nat →
       ∃ s', repeatOp k (cycleContacts true true) s = Some s'
             ∧ activeChatroomWidget s' ≠ Some w).
Proof.
  intros Hwf Ha.
  assert (Hw : w ∈ ring s) by by apply wf_ring_elem, (wf_active s Hwf).
  apply list_elem_of_lookup in Hw as [p Hp].
  pose proof (lookup_lt_Some _ _ _ Hp) as Hlt.
  assert (HN : size (contactWidgets s) = length (ring s)).
  { by rewrite wf_size, wf_ring_length. }
  split; [|split].
  - intros fw inv.
    destruct (cycleContacts_wf s w p fw inv Hwf Ha Hp)
      as (s' & w' & _ & _ & Hc & Hwf' & _ & _ & Hcw & _ & _ & Ha' & _).
    exists s', w'. repeat (split; [done|]).
    apply (wf_shown s' Hwf'), (wf_active s' Hwf' w' Ha').
  - destruct (cycleContacts_forward_iter (length (ring s)) s w p Hwf Ha Hp)
      as (s' & w' & Hrep & _ & _ & Ha' & Hw').
    exists s'. rewrite HN. split; [done|].
    replace (p + length (ring s))%nat with (p + 1 * length (ring s))%nat in Hw' by lia.
    rewrite Nat.Div0.mod_add, Nat.mod_small in Hw' by done. congruence.
  - intros k Hk. rewrite HN in Hk.
    destruct (cycleContacts_forward_iter k s w p Hwf Ha Hp)
      as (s' & w' & Hrep & _ & _ & Ha' & Hw').
    exists s'. split; [done|]. rewrite Ha'. intros [= ->].
    assert (Hpos : ((p + k) mod length (ring s))%nat = p).
    { eapply NoDup_lookup; [by apply wf_ring_nodup|exact Hw'|exact Hp]. }
    destruct (decide (p + k < length (ring s))%nat).
    + rewrite Nat.mod_small in Hpos by done. lia.
    + replace (p + k)%nat
        with ((p + k - length (ring s)) + 1 * length (ring s))%nat in Hpos by lia.
      rewrite Nat.Div0.mod_add, Nat.mod_small in Hpos by lia. lia.
Qed.

Lemma cycleContacts_period_witness :
  wf dialogABG ∧ activeChatroomWidget dialogABG = Some wA
  ∧ ∃ s', repeatOp 3 (cycleContacts true true) dialogABG = Some s'
          ∧ activeChatroomWidget s' = Some wA.
Proof.
  split; [apply dialogABG_wf|]. split; [reflexivity|].
  exact (proj1 (proj2 (cycleContacts_period dialogABG wA dialogABG_wf eq_refl))).
Defined.

(** C3, as stated, fails: with B active at the end of the offline grouping
    the direction is flipped although the grouping a forward step lands
    on, the online one, is not empty. *)
Lemma cycleDirection_flips_before_nonempty :
  getCurrentLayout dialogABG_B = (Some LayoutOffline, 0)
  ∧ ¬ (cycleDirection dialogABG_B true false LayoutOffline 0 = negb true
       ↔ landsOnEmptyGrouping dialogABG_B LayoutOffline 0 = true).
Proof.
  split; [by vm_compute|]. intros [H _].
  assert (E : cycleDirection dialogABG_B true false LayoutOffline 0 = negb true)
    by by vm_compute.
  apply H in E. vm_compute in E. discriminate E.
Qed.

(** C3, as amended: with [inverse = false] the direction is flipped exactly
    when the active contact is the last contact displayed, that is, it is
    at the last position of its grouping and every grouping displayed
    after it (in the order [groupsOnTop] gives) is empty; in particular
    always at the end of the offline grouping. Otherwise, and always with
    [inverse = true], the direction is kept as given. *)
Theorem cycleDirection_flip s fw cur index :
  cycleDirection s fw false cur index
  = (if lastDisplayed s cur index then negb fw else fw)
  ∧ cycleDirection s fw true cur index = fw.
Proof.
  split; [|done].
  unfold cycleDirection, lastDisplayed, nextIsEmpty, displayOrder.
  destruct (index =? count (layoutItems s cur) - 1); [|done].
  destruct cur, (groupchatPosition s); simpl;
    destruct (layoutOnline s), (groupLayout s), (layoutOffline s); done.
Qed.

(** ** Removal *)

(** C4: when the contact being removed is the active one, [removeFriend] /
    [removeGroup] first selects a replacement with
    [cycleContacts(true, false)] and then removes the entry; afterwards a
    different contact, still managed, is active when other contacts
    remain, and the dialog is closing with no active contact when none
    remains. *)
Theorem remove_active_selects_replacement s id w :
  wf s → contactWidgets s !! id = Some (Some w) → activeChatroomWidget s = Some w →
  ∃ s1 s',
    cycleContacts true false s = Some s1
    ∧ removeContact (wkind w) id s = Some s'
    ∧ s' = removeEntry id (dropWidget w s1)
    ∧ if decide (size (contactWidgets s) = 1%nat)
      then lifecycle s' = Closing ∧ activeChatroomWidget s' = None
           ∧ contactWidgets s' = ∅
      else ∃ w', activeChatroomWidget s' = Some w' ∧ w' ≠ w
                 ∧ contactWidgets s' !! wcontact w' = Some (Some w').
Proof.
  intros Hwf Hw Ha.
  destruct (removeContact_wf s id w Hwf Hw)
    as (s1 & s' & Hsel & Hrem & Hs' & Hwf' & Hcw' & Hall' & Hlc' & Ha').
  unfold selectReplacement in Hsel. rewrite decide_True in Hsel by done.
  exists s1, s'. repeat (split; [done|]).
  pose proof (delete_empty_iff_size (contactWidgets s) id (Some w) Hw) as Hsize.
  destruct (decide (size (contactWidgets s) = 1%nat)) as [E|E].
  - apply Hsize in E. rewrite decide_True in Hlc' by done.
    rewrite decide_True in Ha' by done. by rewrite Hcw'.
  - assert (E' : delete id (contactWidgets s) ≠ ∅) by (intros H; by apply E, Hsize).
    rewrite decide_False in Ha' by done.
    destruct (cycleContacts_replacement s w true false Hwf Ha)
      as (s1' & w' & Hc & _ & _ & _ & _ & _ & Ha1 & _).
    assert (s1' = s1) as -> by congruence.
    exists w'. rewrite Ha', Ha1. split; [done|].
    assert (Hin : w' ∈ allWidgets s').
    { apply (wf_active s' Hwf'). by rewrite Ha'. }
    split; [|by apply (wf_shown s' Hwf')].
    rewrite Hall' in Hin. by apply list_elem_of_filter in Hin as [Hne _].
Qed.

Lemma remove_active_selects_replacement_witness :
  wf dialogABG ∧ contactWidgets dialogABG !! "A" = Some (Some wA)
  ∧ activeChatroomWidget dialogABG = Some wA
  ∧ ∃ s1 s',
      cycleContacts true false dialogABG = Some s1
      ∧ removeContact (wkind wA) "A" dialogABG = Some s'
      ∧ s' = removeEntry "A" (dropWidget wA s1)
      ∧ if decide (size (contactWidgets dialogABG) = 1%nat)
        then lifecycle s' = Closing ∧ activeChatroomWidget s' = None
             ∧ contactWidgets s' = ∅
        else ∃ w', activeChatroomWidget s' = Some w' ∧ w' ≠ wA
                   ∧ contactWidgets s' !! wcontact w' = Some (Some w').
Proof.
  split; [apply dialogABG_wf|]. split; [reflexivity|]. split; [reflexivity|].
  apply (remove_active_selects_replacement dialogABG "A" wA);
    [apply dialogABG_wf|reflexivity|reflexivity].
Defined.

(** C5: a removal moves an open dialog to [Closing] exactly when it removes
    the last managed contact: the dialog is closing afterwards if and only
    if the contact map is then empty, which is the case if and only if
    the removed contact was the only one. *)
Theorem close_iff_last_removed s id w :
  wf s → lifecycle s = Open → contactWidgets s !! id = Some (Some w) →
  ∃ s',
    removeContact (wkind w) id s = Some s'
    ∧ contactWidgets s' = delete id (contactWidgets s)
    ∧ (lifecycle s' = Closing ↔ contactWidgets s' = ∅)
    ∧ (contactWidgets s' = ∅ ↔ size (contactWidgets s) = 1%nat).
Proof.
  intros Hwf Hopen Hw.
  destruct (removeContact_wf s id w Hwf Hw)
    as (s1 & s' & _ & Hrem & _ & _ & Hcw' & _ & Hlc' & _).
  exists s'. repeat (split; [done|]). rewrite Hcw', Hlc', Hopen.
  split; [|by apply (delete_empty_iff_size _ id (Some w))].
  destruct (decide (delete id (contactWidgets s) = ∅)); split; done.
Qed.

Lemma close_iff_last_removed_witness :
  wf dialogA ∧ lifecycle dialogA = Open
  ∧ contactWidgets dialogA !! "A" = Some (Some wA)
  ∧ ∃ s',
      removeContact (wkind wA) "A" dialogA = Some s'
      ∧ contactWidgets s' = delete "A" (contactWidgets dialogA)
      ∧ (lifecycle s' = Closing ↔ contactWidgets s' = ∅)
      ∧ (contactWidgets s' = ∅ ↔ size (contactWidgets dialogA) = 1%nat).
Proof.
  split; [apply dialogA_wf|]. split; [reflexivity|]. split; [reflexivity|].
  apply (close_iff_last_removed dialogA "A" wA);
    [apply dialogA_wf|reflexivity|reflexivity].
Defined.

(** ** Drag and drop *)

(** C6: the drop-acceptance check [!hasContact(id)] is true exactly for
    the ids the dialog does not manage, and [dragEnterEvent] accepts the
    drag of a contact the directory knows exactly when the dialog does not
    manage its id. *)
Theorem drop_accepted_iff_not_managed s id :
  (negb (hasContact s id) = true ↔ id ∉ dom (contactWidgets s))
  ∧ ∀ findFriend findGroup key,
      (findFriend key = Some id →
       (dragEnterEvent findFriend findGroup s (DragFriend key) = true
        ↔ id ∉ dom (contactWidgets s)))
      ∧ (is_Some (findGroup id) →
         (dragEnterEvent findFriend findGroup s (DragGroup id) = true
          ↔ id ∉ dom (contactWidgets s))).
Proof.
  assert (H : negb (hasContact s id) = true ↔ id ∉ dom (contactWidgets s)).
  { unfold hasContact. rewrite elem_of_dom, negb_true_iff.
    apply bool_decide_eq_false. }
  split; [done|]. intros findFriend findGroup key. split.
  - intros Hf. simpl. by rewrite Hf.
  - intros [g Hg]. simpl. by rewrite Hg.
Qed.

Lemma drop_accepted_iff_not_managed_witness :
  Some "C" = Some "C" ∧ is_Some (Some "C")
  ∧ dragEnterEvent Some Some dialogABG (DragFriend "C") = true
  ∧ dragEnterEvent Some Some dialogABG (DragGroup "G") = false.
Proof.
  split; [reflexivity|]. split; [by exists "C"|]. split.
  - apply (proj1 (proj2 (drop_accepted_iff_not_managed dialogABG "C") Some Some "C")
             eq_refl).
    by vm_compute.
  - destruct (dragEnterEvent Some Some dialogABG (DragGroup "G")) eqn:E; [|done].
    exfalso.
    apply (proj2 (proj2 (drop_accepted_iff_not_managed dialogABG "G") Some Some "G")
             (ex_intro _ "G" eq_refl)) in E.
    apply E. by vm_compute.
Defined.

(** ** Adding *)

(** C9: [addFriend] and [addGroup] always return, and the widget they
    create for the contact is then the active widget of the dialog and the
    entry of the contact. *)
Theorem add_activates closestSortedIndex s id status form :
  (∃ w s',
      addFriend closestSortedIndex id status form s = Some (w, s')
      ∧ activeChatroomWidget s' = Some w ∧ wcontact w = id
      ∧ contactWidgets s' !! id = Some (Some w))
  ∧ (∃ w s',
        addGroup closestSortedIndex id form s = Some (w, s')
        ∧ activeChatroomWidget s' = Some w ∧ wcontact w = id
        ∧ contactWidgets s' !! id = Some (Some w)).
Proof.
  split.
  - destruct (addFriend_returns closestSortedIndex id status form s)
      as (s' & Hadd & Ha & Hcw & _).
    eexists _, s'. split; [exact Hadd|]. split; [done|]. split; [done|].
    rewrite Hcw. apply lookup_insert_eq.
  - destruct (addGroup_returns closestSortedIndex id form s)
      as (s' & Hadd & Ha & Hcw & _).
    eexists _, s'. split; [exact Hadd|]. split; [done|]. split; [done|].
    rewrite Hcw. apply lookup_insert_eq.
Qed.

(** ** Focus and status updates *)

Lemma focusContact_unmanaged s id :
  contactWidgets s !! id = None → focusContact id s = Some s.
Proof. intros H. unfold focusContact, focusCommon. by rewrite H. Qed.

Lemma updateFriendStatus_unmanaged closestSortedIndex s id status :
  contactWidgets s !! id = None →
  updateFriendStatus closestSortedIndex id status s
  = friendLayout_addFriendWidget closestSortedIndex None status s.
Proof.
  intros H. unfold updateFriendStatus, addFriendWidget, value. by rewrite H.
Qed.

(** C8: for an id the dialog does not manage, a focus request and a status
    update return and leave the dialog unchanged. [focusCommon] tests for
    the id itself; [updateFriendStatus] makes no test and hands the null
    widget to the friend layout, for which a status update of an unknown
    contact is a no-op. *)
Theorem focus_status_unmanaged_noop closestSortedIndex s id status :
  contactWidgets s !! id = None →
  focusContact id s = Some s
  ∧ updateFriendStatus closestSortedIndex id status s = Some s.
Proof.
  intros H. split; [by apply focusContact_unmanaged|].
  by rewrite updateFriendStatus_unmanaged.
Qed.

Lemma focus_status_unmanaged_noop_witness :
  ∃ w s,
    addGroup appendIndex "G" 12%nat (ContentDialog_new false) = Some (w, s)
    ∧ contactWidgets s !! "C" = None
    ∧ focusContact "C" s = Some s
    ∧ updateFriendStatus appendIndex "C" Offline s = Some s.
Proof.
  eexists _, _. split; [reflexivity|]. split; [reflexivity|].
  apply (focus_status_unmanaged_noop appendIndex). reflexivity.
Defined.

(** ** Sequences of additions and removals *)

Lemma kinds_lookup (cw : gmap string (option Widget)) (m : gmap string WidgetKind) id :
  fmap wkind <$> cw = Some <$> m →
  (m !! id = None → cw !! id = None)
  ∧ (∀ k, m !! id = Some k → ∃ w, cw !! id = Some (Some w) ∧ wkind w = k).
Proof.
  intros E. apply (f_equal (λ x, x !! id)) in E. rewrite !lookup_fmap in E.
  split.
  - intros Hm. rewrite Hm in E. by destruct (cw !! id).
  - intros k Hm. rewrite Hm in E.
    destruct (cw !! id) as [[w|]|]; try done. exists w. split; [done|].
    simpl in E. congruence.
Qed.

Lemma runOps_replay closestSortedIndex ops :
  ∀ s m, wf s → fmap wkind <$> contactWidgets s = Some <$> m → validOps ops m →
    ∃ s', runOps closestSortedIndex ops s = Some s' ∧ wf s'
      ∧ fmap wkind <$> contactWidgets s' = Some <$> replay ops m.
Proof.
  induction ops as [|op ops IH]; intros s m Hwf Hm Hvalid.
  - by exists s.
  - destruct (kinds_lookup _ _ (match op with
                                | OpAddFriend id _ _ | OpAddGroup id _
                                | OpRemoveFriend id | OpRemoveGroup id => id
                                end) Hm) as [Hnone Hsome].
    destruct op as [id st form|id form|id|id]; simpl in Hvalid;
      destruct Hvalid as [Hid Hvalid].
    + destruct (addFriend_wf closestSortedIndex id st form s Hwf (Hnone Hid))
        as (w & s1 & Hadd & Hwf1 & Hcw1 & Hk).
      assert (E : fmap wkind <$> contactWidgets s1
                  = Some <$> <[id := FriendWidget]> m).
      { by rewrite Hcw1, !fmap_insert, Hm, <- Hk. }
      destruct (IH s1 _ Hwf1 E Hvalid) as (s' & Hrun & Hwf' & Hcw').
      exists s'. simpl. rewrite Hadd. simpl. by rewrite Hrun, Hcw'.
    + destruct (addGroup_wf closestSortedIndex id form s Hwf (Hnone Hid))
        as (w & s1 & Hadd & Hwf1 & Hcw1 & Hk).
      assert (E : fmap wkind <$> contactWidgets s1
                  = Some <$> <[id := GroupWidget]> m).
      { by rewrite Hcw1, !fmap_insert, Hm, <- Hk. }
      destruct (IH s1 _ Hwf1 E Hvalid) as (s' & Hrun & Hwf' & Hcw').
      exists s'. simpl. rewrite Hadd. simpl. by rewrite Hrun, Hcw'.
    + destruct (Hsome _ Hid) as (w & Hw & Hk).
      destruct (removeFriend_wf s id w Hwf Hw Hk)
        as (_ & s1 & _ & Hrem & _ & Hwf1 & Hcw1 & _).
      assert (E : fmap wkind <$> contactWidgets s1 = Some <$> delete id m).
      { by rewrite Hcw1, !fmap_delete, Hm. }
      destruct (IH s1 _ Hwf1 E Hvalid) as (s' & Hrun & Hwf' & Hcw').
      exists s'. simpl. rewrite Hrem. simpl. by rewrite Hrun, Hcw'.
    + destruct (Hsome _ Hid) as (w & Hw & Hk).
      destruct (removeGroup_wf s id w Hwf Hw Hk)
        as (_ & s1 & _ & Hrem & _ & Hwf1 & Hcw1 & _).
      assert (E : fmap wkind <$> contactWidgets s1 = Some <$> delete id m).
      { by rewrite Hcw1, !fmap_delete, Hm. }
      destruct (IH s1 _ Hwf1 E Hvalid) as (s' & Hrun & Hwf' & Hcw').
      exists s'. simpl. rewrite Hrem. simpl. by rewrite Hrun, Hcw'.
Qed.

Lemma activate_contactWidgets widget s s' :
  activate widget s = Some s' → contactWidgets s' = contactWidgets s.
Proof.
  unfold activate. destruct (decide (activeChatroomWidget s = widget)).
  - by intros [= <-].
  - destruct widget as [w|]; [|done]. simpl.
    destruct (contactChatForms s !! wcontact w); [|done]. by intros [= <-].
Qed.

Lemma cycleContacts_contactWidgets fw inv s s' :
  cycleContacts fw inv s = Some s' → contactWidgets s' = contactWidgets s.
Proof.
  unfold cycleContacts. destruct (getCurrentLayout s) as [[cur|] index].
  2:{ by intros [= <-]. }
  destruct (index =? -1); [by intros [= <-]|]. cbv zeta.
  destruct (cycleLoop cycleFuel s _ cur _) as [[c j]|]; [|done].
  cbn [mbind option_bind].
  destruct (itemAt _ _) as [cw|]; [|done]. cbn [mbind option_bind].
  destruct (decide (Some cw = activeChatroomWidget s)); [by intros [= <-]|].
  apply activate_contactWidgets.
Qed.

Lemma selectReplacement_contactWidgets w s s' :
  selectReplacement w s = Some s' → contactWidgets s' = contactWidgets s.
Proof.
  unfold selectReplacement. destruct (decide _); [|by intros [= <-]].
  apply cycleContacts_contactWidgets.
Qed.

Lemma removeEntry_contactWidgets id s :
  contactWidgets (removeEntry id s) = delete id (contactWidgets s).
Proof.
  unfold removeEntry, closeIfEmpty.
  destruct (chatroomCount s =? 0); simpl; by destruct (bool_decide _).
Qed.

Lemma removeFriend_contactWidgets id s s' :
  removeFriend id s = Some s' →
  contactWidgets s' = delete id (contactWidgets s).
Proof.
  intros Hrem. destruct (removeFriend_inv id s s' Hrem) as (w & Hw & Hk).
  rewrite (removeFriend_entry id s w Hw Hk) in Hrem.
  destruct (selectReplacement _ s) as [s1|] eqn:Hsel; [|done].
  cbn [mbind option_bind] in Hrem. injection Hrem as <-.
  rewrite removeEntry_contactWidgets. simpl.
  by rewrite (selectReplacement_contactWidgets _ _ _ Hsel).
Qed.

Lemma removeGroup_contactWidgets id s s' :
  removeGroup id s = Some s' →
  contactWidgets s' = delete id (contactWidgets s).
Proof.
  intros Hrem. destruct (removeGroup_inv id s s' Hrem) as (w & Hw & Hk).
  rewrite (removeGroup_entry id s w Hw Hk) in Hrem.
  destruct (selectReplacement _ s) as [s1|] eqn:Hsel; [|done].
  cbn [mbind option_bind] in Hrem. injection Hrem as <-.
  rewrite removeEntry_contactWidgets. simpl.
  by rewrite (selectReplacement_contactWidgets _ _ _ Hsel).
Qed.

(** Whatever the sequence, if it runs to its end the managed ids are those
    of the replay. *)
Lemma runOps_dom closestSortedIndex ops :
  ∀ s s' (m : gmap string WidgetKind),
    dom (contactWidgets s) = dom m →
    runOps closestSortedIndex ops s = Some s' →
    dom (contactWidgets s') = dom (replay ops m).
Proof.
  induction ops as [|op ops IH]; intros s s' m Hdom; simpl.
  - by intros [= <-].
  - destruct (runOp closestSortedIndex op s) as [s1|] eqn:Hop; [|done].
    cbn [mbind option_bind]. intros Hrun.
    destruct op as [id st form|id form|id|id]; simpl in Hop.
    + destruct (addFriend_returns closestSortedIndex id st form s)
        as (s1' & Hadd & _ & Hcw & _).
      rewrite Hadd in Hop. injection Hop as <-.
      apply (IH s1' s' _); [|done]. by rewrite Hcw, !dom_insert_L, Hdom.
    + destruct (addGroup_returns closestSortedIndex id form s)
        as (s1' & Hadd & _ & Hcw & _).
      rewrite Hadd in Hop. injection Hop as <-.
      apply (IH s1' s' _); [|done]. by rewrite Hcw, !dom_insert_L, Hdom.
    + apply removeFriend_contactWidgets in Hop.
      apply (IH s1 s' _); [|done]. by rewrite Hop, !dom_delete_L, Hdom.
    + apply removeGroup_contactWidgets in Hop.
      apply (IH s1 s' _); [|done]. by rewrite Hop, !dom_delete_L, Hdom.
Qed.

(** What a replay manages lies between "added and never removed" and
    "there before or added". *)
Lemma replay_dom_bounds ops :
  ∀ m : gmap string WidgetKind,
    (dom m ∪ addedIds ops) ∖ removedIds ops ⊆ dom (replay ops m)
    ∧ dom (replay ops m) ⊆ dom m ∪ addedIds ops.
Proof.
  induction ops as [|op ops IH]; intros m; simpl.
  - set_solver.
  - destruct op as [id st form|id form|id|id]; simpl.
    + destruct (IH (<[id := FriendWidget]> m)) as [H1 H2].
      rewrite dom_insert_L in H1, H2. set_solver.
    + destruct (IH (<[id := GroupWidget]> m)) as [H1 H2].
      rewrite dom_insert_L in H1, H2. set_solver.
    + destruct (IH (delete id m)) as [H1 H2].
      rewrite dom_delete_L in H1, H2. set_solver.
    + destruct (IH (delete id m)) as [H1 H2].
      rewrite dom_delete_L in H1, H2. set_solver.
Qed.

(** C7, as stated, fails: after adding B and A, removing A and adding A
    again, the dialog manages A and B, while the added ids minus the
    removed ids are just B. *)
Lemma managed_ids_not_set_difference :
  validOps opsReadd ∅
  ∧ ∃ s, runOps appendIndex opsReadd (ContentDialog_new false) = Some s
         ∧ dom (contactWidgets s) ≠ addedIds opsReadd ∖ removedIds opsReadd.
Proof.
  split; [by vm_compute|].
  eexists. split; [by vm_compute|]. intros H.
  apply (f_equal (λ X : gset string, bool_decide ("A" ∈ X))) in H.
  vm_compute in H. discriminate H.
Qed.

(** C7, as amended: for every sequence of [addFriend], [addGroup],
    [removeFriend] and [removeGroup] on a new dialog, if the sequence runs
    to its end, the managed ids are those of the sequence replayed in
    order (an add enters the id, a removal takes it out); they are the
    added ids minus the removed ids whenever no removed id is managed at
    the end, that is, whenever no id is added again after its removal.
    The sequence does run to its end when an id is added only while it is
    not managed and removed only while it is managed as a contact of that
    kind. *)
Theorem managed_ids_replay closestSortedIndex groupsOnTop ops :
  (∀ s, runOps closestSortedIndex ops (ContentDialog_new groupsOnTop) = Some s →
     dom (contactWidgets s) = dom (replay ops ∅)
     ∧ (removedIds ops ## dom (contactWidgets s) →
        dom (contactWidgets s) = addedIds ops ∖ removedIds ops))
  ∧ (validOps ops ∅ →
     ∃ s, runOps closestSortedIndex ops (ContentDialog_new groupsOnTop) = Some s
          ∧ fmap wkind <$> contactWidgets s = Some <$> replay ops ∅).
Proof.
  split.
  - intros s Hrun.
    assert (Hdom : dom (contactWidgets s) = dom (replay ops ∅)).
    { by apply (runOps_dom closestSortedIndex ops (ContentDialog_new groupsOnTop)). }
    split; [done|]. intros Hdisj. rewrite Hdom in *.
    destruct (replay_dom_bounds ops ∅) as [H1 H2].
    rewrite dom_empty_L in H1, H2. set_solver.
  - intros Hvalid.
    destruct (runOps_replay closestSortedIndex ops (ContentDialog_new groupsOnTop) ∅)
      as (s & Hrun & _ & Hcw); [apply ContentDialog_new_wf| |done|].
    { simpl. by rewrite !fmap_empty. }
    by exists s.
Qed.

Lemma managed_ids_replay_witness :
  validOps opsReadd ∅
  ∧ ∃ s,
      runOps appendIndex opsReadd (ContentDialog_new false) = Some s
      ∧ fmap wkind <$> contactWidgets s = Some <$> replay opsReadd ∅
      ∧ dom (contactWidgets s) = dom (replay opsReadd ∅).
Proof.
  assert (H : validOps opsReadd ∅) by (by vm_compute).
  split; [exact H|].
  destruct (proj2 (managed_ids_replay appendIndex false opsReadd) H)
    as (s & Hrun & Hcw).
  exists s. split; [exact Hrun|]. split; [exact Hcw|].
  exact (proj1 (proj1 (managed_ids_replay appendIndex false opsReadd) s Hrun)).
Defined.

(** * Further properties of the code *)

(** ** The order of the layouts *)

Lemma nextLayout_steps s layout fw :
  Z.of_nat (length (layouts s)) < 2 ^ 63 →
  (layout ∉ layouts s → nextLayout s layout fw = None)
  ∧ (layout ∈ layouts s →
     ∃ (i : nat) next,
       indexOf layout (layouts s) = Z.of_nat i
       ∧ layouts s !! i = Some layout
       ∧ nextLayout s layout fw = Some next
       ∧ next ∈ layouts s
       ∧ layouts s
         !! (if fw then (i + 1) mod length (layouts s)
             else (i + length (layouts s) - 1) mod length (layouts s))%nat
         = Some next).
Proof.
  intros Hsize. split.
  - intros Hno. unfold nextLayout. by rewrite indexOf_not_elem.
  - intros Hin.
    destruct (indexOf_cases layout (layouts s)) as [[_ Hno]|(i & Hi & Hl)]; [done|].
    pose proof (lookup_lt_Some _ _ _ Hl) as Hlt.
    unfold nextLayout. rewrite Hi.
    destruct (Z.eqb_spec (Z.of_nat i) (-1)); [lia|]. cbv zeta.
    set (len := length (layouts s)) in *.
    assert (Hidx : Z.to_nat
              ((((if fw then Z.of_nat i + 1 else Z.of_nat i - 1) + Z.of_nat len)
                 mod 2 ^ 64) mod Z.of_nat len)
            = (if fw then (i + 1) mod len else (i + len - 1) mod len)%nat).
    { assert (2 ^ 63 < 2 ^ 64) by done.
      rewrite (Z.mod_small _ (2 ^ 64)) by (destruct fw; lia).
      destruct fw.
      - replace (Z.of_nat i + 1 + Z.of_nat len) with (Z.of_nat (i + 1) + 1 * Z.of_nat len) by lia.
        rewrite Z.mod_add by lia. rewrite <- Nat2Z.inj_mod. apply Nat2Z.id.
      - replace (Z.of_nat i - 1 + Z.of_nat len) with (Z.of_nat (i + len - 1)) by lia.
        rewrite <- Nat2Z.inj_mod. apply Nat2Z.id. }
    rewrite Hidx.
    destruct (lookup_lt_is_Some_2 (layouts s)
                (if fw then (i + 1) mod len else (i + len - 1) mod len)%nat) as [next Hnext].
    { fold len. destruct fw; apply Nat.mod_upper_bound; lia. }
    exists i, next. repeat (split; [done|]). split; [|done].
    by eapply list_elem_of_lookup_2.
Qed.

(** X1: [nextLayout] gives null exactly for a layout that is not in
    [layouts]; for one that is, it gives a layout of the list, the one
    cyclically after (or before) its first position: the unsigned sum
    [next + size] brings the index [-1] to the last element. *)
Theorem nextLayout_cyclic s layout fw :
  Z.of_nat (length (layouts s)) < 2 ^ 63 →
  (layout ∉ layouts s → nextLayout s layout fw = None)
  ∧ (layout ∈ layouts s →
     ∃ (i : nat) next,
       indexOf layout (layouts s) = Z.of_nat i
       ∧ layouts s !! i = Some layout
       ∧ nextLayout s layout fw = Some next
       ∧ next ∈ layouts s
       ∧ layouts s
         !! (if fw then (i + 1) mod length (layouts s)
             else (i + length (layouts s) - 1) mod length (layouts s))%nat
         = Some next).
Proof.
  intros Hsize. destruct (nextLayout_steps s layout fw Hsize) as [Hnone Hsome].
  split; [exact Hnone|exact Hsome].
Qed.

Lemma nextLayout_cyclic_witness :
  Z.of_nat (length (layouts dialogABG)) < 2 ^ 63
  ∧ ∃ next, nextLayout dialogABG LayoutOnline false = Some next
            ∧ next ∈ layouts dialogABG.
Proof.
  assert (H : Z.of_nat (length (layouts dialogABG)) < 2 ^ 63) by (by vm_compute).
  split; [exact H|].
  destruct (proj2 (nextLayout_cyclic dialogABG LayoutOnline false H))
    as (i & next & _ & _ & Hn & Hin & _).
  { by apply (bool_decide_unpack _). }
  by exists next.
Defined.

(** X2: when [layouts] holds no layout twice, a step of [nextLayout] in one
    direction is undone by a step in the other. *)
Theorem nextLayout_round_trip s layout fw next :
  Z.of_nat (length (layouts s)) < 2 ^ 63 →
  NoDup (layouts s) →
  nextLayout s layout fw = Some next →
  nextLayout s next (negb fw) = Some layout.
Proof.
  intros Hsize Hnd Hn.
  destruct (decide (layout ∈ layouts s)) as [Hin|Hno].
  2:{ rewrite (proj1 (nextLayout_steps s layout fw Hsize) Hno) in Hn. done. }
  destruct (proj2 (nextLayout_steps s layout fw Hsize) Hin)
    as (i & next' & Hi & Hl & Hn' & Hin' & Hl').
  assert (next' = next) as -> by congruence.
  pose proof (lookup_lt_Some _ _ _ Hl) as Hlt.
  destruct (proj2 (nextLayout_steps s next (negb fw) Hsize) Hin')
    as (j & back & Hj & Hlj & Hback & _ & Hlb).
  rewrite Hback. f_equal.
  set (n := length (layouts s)) in *.
  assert (Hjv : j = (if fw then (i + 1) mod n else (i + n - 1) mod n)%nat).
  { eapply NoDup_lookup; eauto. }
  assert (Hb : (if negb fw then (j + 1) mod n else (j + n - 1) mod n)%nat = i).
  { subst j. destruct fw; simpl.
    - destruct (decide (i + 1 < n)%nat).
      + rewrite (Nat.mod_small (i + 1)) by done.
        replace (i + 1 + n - 1)%nat with (i + 1 * n)%nat by lia.
        rewrite Nat.Div0.mod_add. by apply Nat.mod_small.
      + replace (i + 1)%nat with n by lia. rewrite Nat.Div0.mod_same.
        rewrite Nat.mod_small by lia. lia.
    - destruct i as [|i].
      + rewrite (Nat.mod_small (0 + n - 1)) by lia.
        replace (0 + n - 1 + 1)%nat with n by lia. apply Nat.Div0.mod_same.
      + replace (S i + n - 1)%nat with (i + 1 * n)%nat by lia.
        rewrite Nat.Div0.mod_add, (Nat.mod_small i) by lia.
        rewrite Nat.mod_small by lia. lia. }
  rewrite Hb in Hlb. congruence.
Qed.

Lemma nextLayout_round_trip_witness :
  Z.of_nat (length (layouts dialogABG)) < 2 ^ 63
  ∧ NoDup (layouts dialogABG)
  ∧ nextLayout dialogABG LayoutOffline true = Some LayoutOnline
  ∧ nextLayout dialogABG LayoutOnline (negb true) = Some LayoutOffline.
Proof.
  assert (H1 : Z.of_nat (length (layouts dialogABG)) < 2 ^ 63) by (by vm_compute).
  assert (H2 : NoDup (layouts dialogABG)) by (by apply (bool_decide_unpack _)).
  assert (H3 : nextLayout dialogABG LayoutOffline true = Some LayoutOnline)
    by (by vm_compute).
  split; [exact H1|]. split; [exact H2|]. split; [exact H3|].
  exact (nextLayout_round_trip dialogABG LayoutOffline true LayoutOnline H1 H2 H3).
Defined.

(** ** The current layout *)

(** X3: [getCurrentLayout] does what its comment says. It gives the null
    layout and [-1] exactly when the active widget is null or in none of
    the three layouts; otherwise the index it returns is a valid index of
    the layout it returns, at which the active widget sits, and the layout
    is the first one holding the widget in the order online, offline,
    groups. *)
Theorem getCurrentLayout_correct s :
  match getCurrentLayout s with
  | (None, index) =>
      index = -1 ∧ ∀ w, activeChatroomWidget s = Some w → w ∉ allWidgets s
  | (Some layout, index) =>
      0 ≤ index < count (layoutItems s layout)
      ∧ is_Some (activeChatroomWidget s)
      ∧ itemAt (layoutItems s layout) index = activeChatroomWidget s
      ∧ (layout = LayoutOffline →
         ∀ w, activeChatroomWidget s = Some w → w ∉ layoutOnline s)
      ∧ (layout = LayoutGroups →
         ∀ w, activeChatroomWidget s = Some w →
           (w ∉ layoutOnline s) ∧ (w ∉ layoutOffline s))
  end.
Proof.
  unfold getCurrentLayout, indexOfFriendWidget, indexOfSortedWidget.
  destruct (activeChatroomWidget s) as [w|]; [|by split].
  assert (Hfound : ∀ l (i : nat), l !! i = Some w →
            0 ≤ Z.of_nat i < count l ∧ itemAt l (Z.of_nat i) = Some w).
  { intros l i Hi. pose proof (lookup_lt_Some _ _ _ Hi).
    rewrite itemAt_nat. unfold count. split; [lia|done]. }
  destruct (indexOf_cases w (layoutOnline s)) as [[-> Hon]|(i & -> & Hi)].
  2:{ destruct (Z.eqb_spec (Z.of_nat i) (-1)); [lia|]. simpl.
      destruct (Hfound _ _ Hi) as [Hr Hat].
      split; [done|]. split; [eauto|]. split; [done|]. split; intros E; discriminate E. }
  destruct (indexOf_cases w (layoutOffline s)) as [[-> Hoff]|(i & -> & Hi)].
  2:{ destruct (Z.eqb_spec (Z.of_nat i) (-1)); [lia|]. simpl.
      destruct (Hfound _ _ Hi) as [Hr Hat].
      split; [done|]. split; [eauto|]. split; [done|]. split.
      - by intros _ w' [= <-].
      - intros E; discriminate E. }
  destruct (indexOf_cases w (groupLayout s)) as [[-> Hg]|(i & -> & Hi)].
  2:{ destruct (Z.eqb_spec (Z.of_nat i) (-1)); [lia|]. simpl.
      destruct (Hfound _ _ Hi) as [Hr Hat].
      split; [done|]. split; [eauto|]. split; [done|]. split.
      - intros E; discriminate E.
      - by intros _ w' [= <-]. }
  simpl. split; [done|]. intros w' [= <-]. unfold allWidgets.
  rewrite !elem_of_app. tauto.
Qed.

(** ** Cycling *)

(** X4: the loop of [cycleContacts] stops after at most three changes of
    layout or not at all: whatever number of iterations it is allowed,
    either it has not stopped within them or it gives the result of three
    iterations. *)
Theorem cycleLoop_three_iterations fuel s fw c idx :
  cycleLoop fuel s fw c idx = None
  ∨ cycleLoop fuel s fw c idx = cycleLoop cycleFuel s fw c idx.
Proof.
  destruct (decide (cycleFuel ≤ fuel)%nat) as [Hle|Hlt].
  - right. by apply cycleLoop_fuel_enough.
  - destruct (cycleLoop fuel s fw c idx) as [r|] eqn:Hr; [right|by left].
    symmetry. unfold cycleFuel in *.
    destruct fuel as [|[|[|fuel]]];
      [do 3 apply cycleLoop_more_fuel|do 2 apply cycleLoop_more_fuel
      |apply cycleLoop_more_fuel|lia]; exact Hr.
Qed.

Lemma cycleDirection_last s w cur (i p : nat) :
  wf s → layouts s = displayOrder (groupchatPosition s) →
  layoutItems s cur !! i = Some w → ring s !! p = Some w →
  cycleDirection s true false cur (Z.of_nat i)
  = bool_decide (p + 1 < length (ring s))%nat.
Proof.
  intros Hwf Hlay Hi Hp.
  pose proof (wf_ring_nodup s Hwf) as Hnd.
  pose proof (lookup_lt_Some _ _ _ Hi) as Hlt.
  unfold cycleDirection, nextIsEmpty, count.
  unfold displayOrder in Hlay.
  assert (Hpos : ∀ q, ring s !! q = Some w → p = q).
  { intros q Hq. eapply NoDup_lookup; eauto. }
  revert Hnd Hp Hpos. unfold ring. rewrite Hlay.
  destruct (groupchatPosition s); simpl; rewrite app_nil_r;
    intros Hnd Hp Hpos; destruct cur; simpl in Hi, Hlt |- *;
    match goal with
    | |- context [?a =? ?x] => destruct (Z.eqb_spec a x)
    end; simpl;
    first
    [ rewrite (Hpos i) by (by apply lookup_app_l_Some)
    | rewrite (Hpos (length (groupLayout s) + i)%nat)
        by (rewrite lookup_app_r by lia;
            replace (length (groupLayout s) + i - length (groupLayout s))%nat
              with i by lia; by apply lookup_app_l_Some)
    | rewrite (Hpos (length (layoutOnline s) + i)%nat)
        by (rewrite lookup_app_r by lia;
            replace (length (layoutOnline s) + i - length (layoutOnline s))%nat
              with i by lia; by apply lookup_app_l_Some)
    | rewrite (Hpos (length (groupLayout s ++ layoutOnline s) + i)%nat)
        by (rewrite app_assoc, lookup_app_r by lia;
            rewrite <- Hi; f_equal; lia)
    | rewrite (Hpos (length (layoutOnline s ++ groupLayout s) + i)%nat)
        by (rewrite app_assoc, lookup_app_r by lia;
            rewrite <- Hi; f_equal; lia)
    | idtac "no position" ];
    rewrite !length_app;
    destruct (layoutOnline s) as [|? ?], (groupLayout s) as [|? ?],
      (layoutOffline s) as [|? ?]; simpl in *;
    first [ lia
          | symmetry; apply bool_decide_eq_true_2; lia
          | symmetry; apply bool_decide_eq_false_2; lia ].
Qed.

(** X5: the replacement [removeFriend] and [removeGroup] ask for. On a
    well-formed dialog whose [layouts] follow the [groupchatPosition]
    setting, [cycleContacts(true, false)] activates the contact displayed
    after the active one, or, when the active one is displayed last, the
    contact displayed before it; it never wraps around to the first. *)
Theorem cycleContacts_next_or_previous s w (p : nat) :
  wf s → layouts s = displayOrder (groupchatPosition s) →
  activeChatroomWidget s = Some w → ring s !! p = Some w →
  ∃ s', cycleContacts true false s = Some s'
        ∧ activeChatroomWidget s'
          = ring s !! (if decide (p + 1 < length (ring s))%nat
                       then p + 1 else p - 1)%nat.
Proof.
  intros Hwf Hlay Ha Hp.
  destruct (cycleContacts_step s w p true false Hwf Ha Hp)
    as (cur & i & w' & Hg & Hi & Hw' & Hc).
  rewrite (cycleDirection_last s w cur i p Hwf Hlay Hi Hp) in Hw'.
  assert (Hin : w' ∈ allWidgets s).
  { apply (wf_ring_elem s w' Hwf). by eapply list_elem_of_lookup_2. }
  destruct (activate_shown s w' Hwf Hin) as (form & _ & Hact).
  destruct (activate_wf s _ w' Hwf Hin Hact) as (_ & Ha' & _).
  eexists. rewrite Hc. split; [exact Hact|]. rewrite Ha', <- Hw'.
  pose proof (lookup_lt_Some _ _ _ Hp) as Hlt. f_equal.
  unfold ringStep. destruct (decide (p + 1 < length (ring s))%nat) as [H|H].
  - rewrite bool_decide_eq_true_2 by done. by rewrite Nat.mod_small.
  - rewrite bool_decide_eq_false_2 by done.
    assert (length (ring s) = S p) as -> by lia.
    destruct p as [|p]; [done|].
    replace (S p + S (S p) - 1)%nat with (p + 1 * S (S p))%nat by lia.
    rewrite Nat.Div0.mod_add, Nat.mod_small by lia. lia.
Qed.

Lemma cycleContacts_next_or_previous_witness :
  wf dialogABG_B
  ∧ layouts dialogABG_B = displayOrder (groupchatPosition dialogABG_B)
  ∧ activeChatroomWidget dialogABG_B = Some wB
  ∧ ring dialogABG_B !! 2%nat = Some wB
  ∧ ∃ s', cycleContacts true false dialogABG_B = Some s'
          ∧ activeChatroomWidget s' = Some wG.
Proof.
  assert (Hwf : wf dialogABG_B) by check_wf.
  split; [exact Hwf|]. split; [reflexivity|]. split; [reflexivity|].
  split; [reflexivity|].
  exact (cycleContacts_next_or_previous dialogABG_B wB 2 Hwf eq_refl eq_refl eq_refl).
Defined.

Lemma ringStep_inverse d n p :
  (p < n)%nat → ringStep (negb d) n (ringStep d n p) = p.
Proof.
  intros Hp. unfold ringStep. destruct d; simpl.
  - destruct (decide (p + 1 < n)%nat).
    + rewrite (Nat.mod_small (p + 1)) by done.
      replace (p + 1 + n - 1)%nat with (p + 1 * n)%nat by lia.
      rewrite Nat.Div0.mod_add. by apply Nat.mod_small.
    + replace (p + 1)%nat with n by lia. rewrite Nat.Div0.mod_same.
      rewrite Nat.mod_small by lia. lia.
  - destruct p as [|p].
    + rewrite (Nat.mod_small (0 + n - 1)) by lia.
      replace (0 + n - 1 + 1)%nat with n by lia. apply Nat.Div0.mod_same.
    + replace (S p + n - 1)%nat with (p + 1 * n)%nat by lia.
      rewrite Nat.Div0.mod_add, (Nat.mod_small p) by lia.
      rewrite Nat.mod_small by lia. lia.
Qed.

(** X6: with [inverse = true], on a well-formed dialog with an active
    contact, a step of [cycleContacts] in one direction followed by a step
    in the other leaves the contact that was active active again. *)
Theorem cycleContacts_there_and_back s w fw :
  wf s → activeChatroomWidget s = Some w →
  ∃ s1 s2,
    cycleContacts fw true s = Some s1
    ∧ cycleContacts (negb fw) true s1 = Some s2
    ∧ activeChatroomWidget s2 = Some w
    ∧ contactWidgets s2 = contactWidgets s
    ∧ allWidgets s2 = allWidgets s.
Proof.
  intros Hwf Ha.
  assert (Hw : w ∈ ring s) by by apply wf_ring_elem, (wf_active s Hwf).
  apply list_elem_of_lookup in Hw as [p Hp].
  pose proof (lookup_lt_Some _ _ _ Hp) as Hlt.
  destruct (cycleContacts_wf s w p fw true Hwf Ha Hp)
    as (s1 & w1 & c1 & i1 & Hc1 & Hwf1 & Hr1 & Hall1 & Hcw1 & _ & _ & Ha1 & _ & Hw1).
  rewrite cycleDirection_inverse in Hw1. rewrite <- Hr1 in Hw1.
  destruct (cycleContacts_wf s1 w1 _ (negb fw) true Hwf1 Ha1 Hw1)
    as (s2 & w2 & c2 & i2 & Hc2 & Hwf2 & Hr2 & Hall2 & Hcw2 & _ & _ & Ha2 & _ & Hw2).
  rewrite cycleDirection_inverse in Hw2.
  rewrite Hr1, ringStep_inverse, Hp in Hw2 by done.
  exists s1, s2. repeat (split; [done|]). split; [congruence|].
  split; congruence.
Qed.

Lemma cycleContacts_there_and_back_witness :
  wf dialogABG ∧ activeChatroomWidget dialogABG = Some wA
  ∧ ∃ s1 s2,
      cycleContacts false true dialogABG = Some s1
      ∧ cycleContacts (negb false) true s1 = Some s2
      ∧ activeChatroomWidget s2 = Some wA
      ∧ contactWidgets s2 = contactWidgets dialogABG
      ∧ allWidgets s2 = allWidgets dialogABG.
Proof.
  split; [apply dialogABG_wf|]. split; [reflexivity|].
  exact (cycleContacts_there_and_back dialogABG wA false dialogABG_wf eq_refl).
Defined.

Lemma itemAt_elem l idx w : itemAt l idx = Some w → w ∈ l.
Proof.
  unfold itemAt. destruct (idx <? 0); [done|]. apply list_elem_of_lookup_2.
Qed.

Lemma cycleContacts_cases s s' fw inv :
  cycleContacts fw inv s = Some s' →
  s' = s
  ∨ ∃ w form,
      w ∈ allWidgets s
      ∧ contactChatForms s !! wcontact w = Some form
      ∧ activeChatroomWidget s ≠ Some w
      ∧ s' = set_active (Some w) (Some form) s.
Proof.
  unfold cycleContacts. destruct (getCurrentLayout s) as [[cur|] index].
  2:{ intros [= <-]. by left. }
  destruct (index =? -1); [intros [= <-]; by left|]. cbv zeta.
  destruct (cycleLoop cycleFuel s _ cur _) as [[c j]|]; [|done].
  cbn [mbind option_bind].
  destruct (itemAt _ _) as [cw|] eqn:Hat; [|done]. cbn [mbind option_bind].
  destruct (decide (Some cw = activeChatroomWidget s)); [intros [= <-]; by left|].
  unfold activate. rewrite decide_False by done. simpl.
  destruct (contactChatForms s !! wcontact cw) as [form|] eqn:Hf; [|done].
  intros [= <-]. right. exists cw, form. repeat split; try done.
  apply elem_of_allWidgets. exists c. by eapply itemAt_elem.
Qed.

(** X7: whatever the dialog, [cycleContacts] changes nothing but the active
    widget and the form shown: when it returns, the dialog is either
    unchanged or differs in that a widget held by one of the layouts,
    other than the one that was active, is active and the chat form of its
    contact is shown. *)
Theorem cycleContacts_only_activates s s' fw inv :
  cycleContacts fw inv s = Some s' →
  s' = s
  ∨ ∃ w form,
      w ∈ allWidgets s
      ∧ contactChatForms s !! wcontact w = Some form
      ∧ activeChatroomWidget s ≠ Some w
      ∧ s' = set_active (Some w) (Some form) s.
Proof. apply cycleContacts_cases. Qed.

Lemma cycleContacts_only_activates_witness :
  cycleContacts true true dialogABG = Some (set_active (Some wG) (Some 12%nat) dialogABG)
  ∧ (set_active (Some wG) (Some 12%nat) dialogABG = dialogABG
     ∨ ∃ w form,
         w ∈ allWidgets dialogABG
         ∧ contactChatForms dialogABG !! wcontact w = Some form
         ∧ activeChatroomWidget dialogABG ≠ Some w
         ∧ set_active (Some wG) (Some 12%nat) dialogABG
           = set_active (Some w) (Some form) dialogABG).
Proof.
  assert (H : cycleContacts true true dialogABG
              = Some (set_active (Some wG) (Some 12%nat) dialogABG))
    by (by vm_compute).
  split; [exact H|].
  exact (cycleContacts_only_activates dialogABG _ true true H).
Defined.

(** ** Removal, field by field *)

Lemma selectReplacement_cases w s s1 :
  selectReplacement w s = Some s1 →
  s1 = s
  ∨ ∃ w' form,
      w' ∈ allWidgets s
      ∧ contactChatForms s !! wcontact w' = Some form
      ∧ activeChatroomWidget s ≠ Some w'
      ∧ s1 = set_active (Some w') (Some form) s.
Proof.
  unfold selectReplacement. destruct (decide _); [|intros [= <-]; by left].
  apply cycleContacts_cases.
Qed.

Lemma chatroomCount_dropWidget s id w :
  wf s → contactWidgets s !! id = Some (Some w) →
  (chatroomCount (dropWidget w s) =? 0)
  = bool_decide (delete id (contactWidgets s) = ∅).
Proof.
  intros Hwf Hw. pose proof (dropWidget_empty_iff s id w Hwf Hw) as Hemp.
  rewrite chatroomCount_allWidgets.
  destruct (decide (delete id (contactWidgets s) = ∅)) as [E|E].
  - rewrite bool_decide_eq_true_2 by done. apply Hemp in E. by rewrite E.
  - rewrite bool_decide_eq_false_2 by done.
    destruct (allWidgets (dropWidget w s)) as [|x l]; [|done].
    exfalso. by apply E, Hemp.
Qed.

(** The dialog after a removal, in terms of the dialog [s1] that the
    selection of the replacement leaves. *)
Lemma removeContact_fields s id w :
  wf s → contactWidgets s !! id = Some (Some w) →
  ∃ s1 s',
    selectReplacement w s = Some s1
    ∧ removeContact (wkind w) id s = Some s'
    ∧ wf s1 ∧ wf s'
    ∧ contactWidgets s' = delete id (contactWidgets s)
    ∧ contactChatForms s' = delete id (contactChatForms s)
    ∧ layoutOnline s' = filter (λ x, x ≠ w) (layoutOnline s)
    ∧ groupLayout s' = filter (λ x, x ≠ w) (groupLayout s)
    ∧ layoutOffline s' = filter (λ x, x ≠ w) (layoutOffline s)
    ∧ layouts s' = layouts s
    ∧ (if decide (delete id (contactWidgets s) = ∅)
       then activeChatroomWidget s' = None ∧ contentLayout s' = None
            ∧ deleteLaterCalled s' = true ∧ lifecycle s' = Closing
       else activeChatroomWidget s' = activeChatroomWidget s1
            ∧ contentLayout s' = contentLayout s1
            ∧ deleteLaterCalled s' = deleteLaterCalled s
            ∧ lifecycle s' = lifecycle s).
Proof.
  intros Hwf Hw.
  destruct (removeContact_wf s id w Hwf Hw)
    as (s1 & s' & Hsel & Hrem & Hs' & Hwf' & Hcw' & _).
  destruct (selectReplacement_wf s w Hwf)
    as (s1' & Hsel' & Hwf1 & _ & Hcw1 & Hcf1 & _).
  assert (s1' = s1) as -> by congruence.
  exists s1, s'. repeat (split; [done|]).
  assert (Hw1 : contactWidgets s1 !! id = Some (Some w)) by by rewrite Hcw1.
  pose proof (chatroomCount_dropWidget s1 id w Hwf1 Hw1) as Hcount.
  rewrite Hcw1 in Hcount.
  assert (Hsame : layoutOnline s1 = layoutOnline s ∧ groupLayout s1 = groupLayout s
                  ∧ layoutOffline s1 = layoutOffline s ∧ layouts s1 = layouts s
                  ∧ deleteLaterCalled s1 = deleteLaterCalled s
                  ∧ lifecycle s1 = lifecycle s).
  { destruct (selectReplacement_cases w s s1 Hsel) as [->|(w' & form & _ & _ & _ & ->)];
      by repeat split. }
  destruct Hsame as (Eon & Eg & Eoff & El & Ed & Elc).
  destruct (allWidgets_nodup s (wf_nodup s Hwf)) as (Hon & Hg & Hoff & _).
  subst s'. unfold removeEntry, closeIfEmpty.
  destruct (decide (delete id (contactWidgets s) = ∅)) as [E|E].
  - rewrite bool_decide_eq_true_2 in Hcount by done. rewrite Hcount. simpl.
    rewrite Hcw1, Hcf1. rewrite bool_decide_eq_true_2 by done. simpl.
    rewrite Eon, Eg, Eoff, El, !removeSortedWidget_filter by done.
    by repeat split.
  - rewrite bool_decide_eq_false_2 in Hcount by done. rewrite Hcount. simpl.
    rewrite Hcw1, Hcf1. rewrite bool_decide_eq_false_2 by done. simpl.
    rewrite Eon, Eg, Eoff, El, Ed, Elc, !removeSortedWidget_filter by done.
    by repeat split.
Qed.

(** X8: [removeFriend] returns exactly for the ids managed as friends and
    [removeGroup] exactly for the ids managed as groups, on a well-formed
    dialog; for any other id the widget they fetch is null and they
    dereference it. *)
Theorem remove_returns_iff s id :
  wf s →
  (is_Some (removeFriend id s)
   ↔ ∃ w, contactWidgets s !! id = Some (Some w) ∧ wkind w = FriendWidget)
  ∧ (is_Some (removeGroup id s)
     ↔ ∃ w, contactWidgets s !! id = Some (Some w) ∧ wkind w = GroupWidget).
Proof.
  intros Hwf. split; split.
  - intros [s' Hs']. by eapply removeFriend_inv.
  - intros (w & Hw & Hk).
    destruct (removeFriend_wf s id w Hwf Hw Hk) as (_ & s' & _ & Hrem & _). eauto.
  - intros [s' Hs']. by eapply removeGroup_inv.
  - intros (w & Hw & Hk).
    destruct (removeGroup_wf s id w Hwf Hw Hk) as (_ & s' & _ & Hrem & _). eauto.
Qed.

Lemma remove_returns_iff_witness :
  wf dialogABG
  ∧ is_Some (removeFriend "A" dialogABG)
  ∧ removeGroup "A" dialogABG = None
  ∧ removeFriend "C" dialogABG = None.
Proof.
  split; [apply dialogABG_wf|]. split.
  - apply (proj1 (remove_returns_iff dialogABG "A" dialogABG_wf)).
    exists wA. by split.
  - split; reflexivity.
Defined.

(** X9: a removal takes exactly the widget of the removed contact out of
    the layouts, the other widgets keeping their places and order, and
    forgets the widget and the chat form of the contact; the dialog stays
    well-formed and manages one contact less. *)
Theorem remove_effect s id w :
  wf s → contactWidgets s !! id = Some (Some w) →
  ∃ s',
    removeContact (wkind w) id s = Some s'
    ∧ wf s'
    ∧ contactWidgets s' = delete id (contactWidgets s)
    ∧ contactChatForms s' = delete id (contactChatForms s)
    ∧ layoutOnline s' = filter (λ x, x ≠ w) (layoutOnline s)
    ∧ groupLayout s' = filter (λ x, x ≠ w) (groupLayout s)
    ∧ layoutOffline s' = filter (λ x, x ≠ w) (layoutOffline s)
    ∧ layouts s' = layouts s
    ∧ (w ∉ allWidgets s')
    ∧ S (size (contactWidgets s')) = size (contactWidgets s).
Proof.
  intros Hwf Hw.
  destruct (removeContact_fields s id w Hwf Hw)
    as (s1 & s' & _ & Hrem & _ & Hwf' & Hcw & Hcf & Hon & Hg & Hoff & Hl & _).
  exists s'. repeat (split; [done|]). split.
  - unfold allWidgets. rewrite Hon, Hg, Hoff, !elem_of_app, !list_elem_of_filter.
    tauto.
  - rewrite Hcw. rewrite <- (insert_delete_id (contactWidgets s) id (Some w) Hw) at 2.
    by rewrite map_size_insert_None by apply lookup_delete_eq.
Qed.

Lemma remove_effect_witness :
  wf dialogABG ∧ contactWidgets dialogABG !! "G" = Some (Some wG)
  ∧ ∃ s',
      removeContact (wkind wG) "G" dialogABG = Some s'
      ∧ wf s'
      ∧ contactWidgets s' = delete "G" (contactWidgets dialogABG)
      ∧ contactChatForms s' = delete "G" (contactChatForms dialogABG)
      ∧ layoutOnline s' = filter (λ x, x ≠ wG) (layoutOnline dialogABG)
      ∧ groupLayout s' = filter (λ x, x ≠ wG) (groupLayout dialogABG)
      ∧ layoutOffline s' = filter (λ x, x ≠ wG) (layoutOffline dialogABG)
      ∧ layouts s' = layouts dialogABG
      ∧ (wG ∉ allWidgets s')
      ∧ S (size (contactWidgets s')) = size (contactWidgets dialogABG).
Proof.
  split; [apply dialogABG_wf|]. split; [reflexivity|].
  exact (remove_effect dialogABG "G" wG dialogABG_wf eq_refl).
Defined.

(** X10: removing a contact other than the active one changes neither the
    active contact, nor the form shown, nor the lifecycle of the dialog. *)
Theorem remove_other_keeps_active s id w a :
  wf s → contactWidgets s !! id = Some (Some w) →
  activeChatroomWidget s = Some a → a ≠ w →
  ∃ s',
    removeContact (wkind w) id s = Some s'
    ∧ activeChatroomWidget s' = Some a
    ∧ contentLayout s' = contentLayout s
    ∧ lifecycle s' = lifecycle s
    ∧ deleteLaterCalled s' = deleteLaterCalled s.
Proof.
  intros Hwf Hw Ha Hne.
  destruct (removeContact_fields s id w Hwf Hw)
    as (s1 & s' & Hsel & Hrem & _ & _ & _ & _ & _ & _ & _ & _ & Hrest).
  unfold selectReplacement in Hsel.
  rewrite decide_False in Hsel by congruence. injection Hsel as <-.
  exists s'. split; [done|].
  rewrite decide_False in Hrest.
  - destruct Hrest as (-> & -> & -> & ->). by rewrite Ha.
  - intros E. apply (dropWidget_empty_iff s id w Hwf Hw) in E.
    assert (Hin : a ∈ allWidgets (dropWidget w s)).
    { apply dropWidget_elem; [apply (wf_nodup s Hwf)|].
      split; [by apply (wf_active s Hwf)|done]. }
    rewrite E in Hin. by apply elem_of_nil in Hin.
Qed.

Lemma remove_other_keeps_active_witness :
  wf dialogABG ∧ contactWidgets dialogABG !! "B" = Some (Some wB)
  ∧ activeChatroomWidget dialogABG = Some wA ∧ wA ≠ wB
  ∧ ∃ s',
      removeContact (wkind wB) "B" dialogABG = Some s'
      ∧ activeChatroomWidget s' = Some wA
      ∧ contentLayout s' = contentLayout dialogABG
      ∧ lifecycle s' = lifecycle dialogABG
      ∧ deleteLaterCalled s' = deleteLaterCalled dialogABG.
Proof.
  assert (Hne : wA ≠ wB) by done.
  split; [apply dialogABG_wf|]. split; [reflexivity|]. split; [reflexivity|].
  split; [exact Hne|].
  exact (remove_other_keeps_active dialogABG "B" wB wA dialogABG_wf eq_refl eq_refl Hne).
Defined.

(** X11: the two emptiness tests of a removal agree on a well-formed
    dialog. [deleteLater()] is called (and the active widget and the
    content pane are cleared) under [chatroomCount() == 0], [close()]
    under [contactWidgets.isEmpty()]: both happen, or neither, and both
    exactly when the removed contact was the last one. *)
Theorem remove_deleteLater_iff_close s id w :
  wf s → contactWidgets s !! id = Some (Some w) →
  deleteLaterCalled s = false → lifecycle s = Open →
  ∃ s',
    removeContact (wkind w) id s = Some s'
    ∧ (deleteLaterCalled s' = true ↔ lifecycle s' = Closing)
    ∧ (lifecycle s' = Closing ↔ size (contactWidgets s) = 1%nat)
    ∧ (lifecycle s' = Closing →
       activeChatroomWidget s' = None ∧ contentLayout s' = None).
Proof.
  intros Hwf Hw Hd Ho.
  destruct (removeContact_fields s id w Hwf Hw)
    as (s1 & s' & _ & Hrem & _ & _ & _ & _ & _ & _ & _ & _ & Hrest).
  pose proof (delete_empty_iff_size (contactWidgets s) id (Some w) Hw) as Hsize.
  exists s'. split; [done|].
  destruct (decide (delete id (contactWidgets s) = ∅)) as [E|E].
  - destruct Hrest as (Ha & Hc & Hd' & Hl'). rewrite Hd', Hl'.
    repeat split; try done. intros _. by apply Hsize.
  - destruct Hrest as (Ha & Hc & Hd' & Hl'). rewrite Hd', Hl', Hd, Ho.
    repeat split; try done. intros H. exfalso. by apply E, Hsize.
Qed.

Lemma remove_deleteLater_iff_close_witness :
  wf dialogA ∧ contactWidgets dialogA !! "A" = Some (Some wA)
  ∧ deleteLaterCalled dialogA = false ∧ lifecycle dialogA = Open
  ∧ ∃ s',
      removeContact (wkind wA) "A" dialogA = Some s'
      ∧ (deleteLaterCalled s' = true ↔ lifecycle s' = Closing)
      ∧ (lifecycle s' = Closing ↔ size (contactWidgets dialogA) = 1%nat)
      ∧ (lifecycle s' = Closing →
         activeChatroomWidget s' = None ∧ contentLayout s' = None).
Proof.
  split; [apply dialogA_wf|]. split; [reflexivity|]. split; [reflexivity|].
  split; [reflexivity|].
  exact (remove_deleteLater_iff_close dialogA "A" wA dialogA_wf eq_refl eq_refl eq_refl).
Defined.

(** ** Adding, field by field *)

Lemma filter_ne_id (w : Widget) (l : list Widget) :
  w ∉ l → filter (λ x, x ≠ w) l = l.
Proof.
  induction l as [|x l IH]; [done|]. rewrite not_elem_of_cons. intros [Hx Hl].
  rewrite filter_cons_True by done. by rewrite IH.
Qed.

Section AddingFields.

Variable closestSortedIndex : Widget → list Widget → nat.

Lemma filter_addSortedWidget w (l : list Widget) :
  w ∉ l → filter (λ x, x ≠ w) (addSortedWidget closestSortedIndex w l) = l.
Proof.
  intros Hw. unfold addSortedWidget.
  rewrite filter_app, filter_cons_False by (intros H; by apply H).
  rewrite <- filter_app, take_drop. by apply filter_ne_id.
Qed.

Lemma elem_of_addSortedWidget w (l : list Widget) x :
  x ∈ addSortedWidget closestSortedIndex w l ↔ x = w ∨ x ∈ l.
Proof. by rewrite addSortedWidget_Permutation, elem_of_cons. Qed.

Lemma length_addSortedWidget w l :
  length (addSortedWidget closestSortedIndex w l) = S (length l).
Proof. by rewrite addSortedWidget_Permutation. Qed.

(** X12: adding a friend the dialog does not manage keeps the dialog
    well-formed; the new widget becomes the entry of the id and is placed
    in the online or the offline grouping according to the status, the
    widgets already shown keeping their groupings and order; the form is
    registered for the id and one more contact is managed. *)
Theorem addFriend_places id status form s :
  wf s → contactWidgets s !! id = None →
  ∃ w s',
    addFriend closestSortedIndex id status form s = Some (w, s')
    ∧ wf s'
    ∧ wkind w = FriendWidget ∧ wcontact w = id
    ∧ contactWidgets s' = <[id := Some w]> (contactWidgets s)
    ∧ contactChatForms s' = <[id := form]> (contactChatForms s)
    ∧ w ∈ (match status with
           | Online => layoutOnline s'
           | Offline => layoutOffline s'
           end)
    ∧ filter (λ x, x ≠ w) (layoutOnline s') = layoutOnline s
    ∧ filter (λ x, x ≠ w) (layoutOffline s') = layoutOffline s
    ∧ groupLayout s' = groupLayout s
    ∧ size (contactWidgets s') = S (size (contactWidgets s)).
Proof.
  intros Hwf Hnone.
  destruct (addFriend_wf closestSortedIndex id status form s Hwf Hnone)
    as (w & s' & Hadd & Hwf' & Hcw & Hk).
  destruct (addFriend_returns closestSortedIndex id status form s)
    as (s'' & Hadd' & _ & _ & Hcf & _ & _ & _ & Hg & Hon & Hoff).
  rewrite Hadd in Hadd'. injection Hadd' as -> <-.
  set (w := mkWidget (heapNext s) FriendWidget id) in *.
  assert (Hfresh : w ∉ allWidgets s).
  { intros Hin. pose proof (wf_heap s Hwf w Hin) as Hlt. simpl in Hlt. lia. }
  unfold allWidgets in Hfresh. rewrite !elem_of_app in Hfresh.
  cbv zeta in Hon, Hoff.
  rewrite (removeSortedWidget_not_elem w (layoutOnline s)) in Hon by tauto.
  rewrite (removeSortedWidget_not_elem w (layoutOffline s)) in Hoff by tauto.
  exists w, s'. repeat (split; [done|]).
  rewrite Hon, Hoff, Hcw.
  rewrite map_size_insert_None by done.
  destruct status; rewrite ?filter_addSortedWidget, ?elem_of_addSortedWidget,
    ?filter_ne_id by tauto; repeat split; auto.
Qed.

(** X13: adding a group the dialog does not manage keeps the dialog
    well-formed; the new widget becomes the entry of the id and is placed
    in the group layout, the widgets already shown keeping their places
    and order; the form is registered and one more contact is managed. *)
Theorem addGroup_places id form s :
  wf s → contactWidgets s !! id = None →
  ∃ w s',
    addGroup closestSortedIndex id form s = Some (w, s')
    ∧ wf s'
    ∧ wkind w = GroupWidget ∧ wcontact w = id
    ∧ contactWidgets s' = <[id := Some w]> (contactWidgets s)
    ∧ contactChatForms s' = <[id := form]> (contactChatForms s)
    ∧ w ∈ groupLayout s'
    ∧ filter (λ x, x ≠ w) (groupLayout s') = groupLayout s
    ∧ layoutOnline s' = layoutOnline s
    ∧ layoutOffline s' = layoutOffline s
    ∧ size (contactWidgets s') = S (size (contactWidgets s)).
Proof.
  intros Hwf Hnone.
  destruct (addGroup_wf closestSortedIndex id form s Hwf Hnone)
    as (w & s' & Hadd & Hwf' & Hcw & Hk).
  destruct (addGroup_returns closestSortedIndex id form s)
    as (s'' & Hadd' & _ & _ & Hcf & _ & _ & _ & Hg & Hon & Hoff).
  rewrite Hadd in Hadd'. injection Hadd' as -> <-.
  set (w := mkWidget (heapNext s) GroupWidget id) in *.
  assert (Hfresh : w ∉ allWidgets s).
  { intros Hin. pose proof (wf_heap s Hwf w Hin) as Hlt. simpl in Hlt. lia. }
  unfold allWidgets in Hfresh. rewrite !elem_of_app in Hfresh.
  exists w, s'. repeat (split; [done|]).
  rewrite Hg, Hcw, map_size_insert_None by done.
  rewrite filter_addSortedWidget, elem_of_addSortedWidget by tauto.
  repeat split; auto.
Qed.

End AddingFields.

Lemma addFriend_places_witness :
  wf dialogABG ∧ contactWidgets dialogABG !! "C" = None
  ∧ ∃ w s',
      addFriend appendIndex "C" Offline 13 dialogABG = Some (w, s')
      ∧ wf s' ∧ w ∈ layoutOffline s'
      ∧ size (contactWidgets s') = 4%nat.
Proof.
  split; [apply dialogABG_wf|]. split; [reflexivity|].
  destruct (addFriend_places appendIndex "C" Offline 13 dialogABG dialogABG_wf eq_refl)
    as (w & s' & Hadd & Hwf & _ & _ & _ & _ & Hin & _ & _ & _ & Hsize).
  exists w, s'. repeat (split; [assumption|]). exact Hsize.
Defined.

Lemma addGroup_places_witness :
  wf dialogABG ∧ contactWidgets dialogABG !! "H" = None
  ∧ ∃ w s',
      addGroup appendIndex "H" 14 dialogABG = Some (w, s')
      ∧ wf s' ∧ w ∈ groupLayout s'
      ∧ size (contactWidgets s') = 4%nat.
Proof.
  split; [apply dialogABG_wf|]. split; [reflexivity|].
  destruct (addGroup_places appendIndex "H" 14 dialogABG dialogABG_wf eq_refl)
    as (w & s' & Hadd & Hwf & _ & _ & _ & _ & Hin & _ & _ & _ & Hsize).
  exists w, s'. repeat (split; [assumption|]). exact Hsize.
Defined.

(** X14: adding an id the dialog already manages does not replace the old
    widget. On a well-formed dialog [addFriend] and [addGroup] return, the
    id is rebound to the new widget and no id is gained, but the old
    widget stays in its layout: the layouts hold one widget more than
    there are managed contacts and the dialog is no longer well-formed. *)
Theorem add_again_orphans closestSortedIndex id status form s w0 :
  wf s → contactWidgets s !! id = Some (Some w0) →
  (∃ w s',
      addFriend closestSortedIndex id status form s = Some (w, s')
      ∧ w ≠ w0 ∧ contactWidgets s' !! id = Some (Some w)
      ∧ dom (contactWidgets s') = dom (contactWidgets s)
      ∧ w0 ∈ allWidgets s'
      ∧ chatroomCount s' = Z.of_nat (size (contactWidgets s')) + 1
      ∧ ¬ wf s')
  ∧ (∃ w s',
        addGroup closestSortedIndex id form s = Some (w, s')
        ∧ w ≠ w0 ∧ contactWidgets s' !! id = Some (Some w)
        ∧ dom (contactWidgets s') = dom (contactWidgets s)
        ∧ w0 ∈ allWidgets s'
        ∧ chatroomCount s' = Z.of_nat (size (contactWidgets s')) + 1
        ∧ ¬ wf s').
Proof.
  intros Hwf Hw0.
  pose proof (wf_managed_shown s id w0 Hwf Hw0) as Hin0.
  pose proof (wf_key s Hwf id w0 Hw0) as Hkey.
  assert (Hgen : ∀ w s',
    wptr w = heapNext s →
    contactWidgets s' = <[id := Some w]> (contactWidgets s) →
    allWidgets s' ≡ₚ w :: allWidgets s →
    w ≠ w0 ∧ contactWidgets s' !! id = Some (Some w)
    ∧ dom (contactWidgets s') = dom (contactWidgets s)
    ∧ w0 ∈ allWidgets s'
    ∧ chatroomCount s' = Z.of_nat (size (contactWidgets s')) + 1
    ∧ ¬ wf s').
  { intros w s' Hptr Hcw Hall.
    assert (Hne : w ≠ w0).
    { intros ->. pose proof (wf_heap s Hwf w0 Hin0). lia. }
    split; [done|]. split; [rewrite Hcw; apply lookup_insert_eq|].
    split. { rewrite Hcw. apply dom_insert_lookup_L. eauto. }
    split. { rewrite Hall. by right. }
    split.
    { rewrite chatroomCount_allWidgets, Hall, Hcw.
      rewrite map_size_insert_Some by eauto. rewrite (wf_size s Hwf).
      simpl. lia. }
    intros Hwf'.
    assert (Hin' : w0 ∈ allWidgets s') by (rewrite Hall; by right).
    pose proof (wf_shown s' Hwf' w0 Hin') as Hs.
    rewrite Hkey, Hcw, lookup_insert_eq in Hs. congruence. }
  assert (Hfresh : ∀ w, wptr w = heapNext s → w ∉ allWidgets s).
  { intros w Hptr Hin. pose proof (wf_heap s Hwf w Hin). lia. }
  split.
  - destruct (addFriend_returns closestSortedIndex id status form s)
      as (s' & Hadd & _ & Hcw & _ & _ & _ & _ & Hg & Hon & Hoff).
    set (w := mkWidget (heapNext s) FriendWidget id) in *.
    exists w, s'. split; [done|]. apply Hgen; [done|done|].
    specialize (Hfresh w eq_refl). unfold allWidgets in *.
    rewrite !elem_of_app in Hfresh. cbv zeta in Hon, Hoff.
    rewrite (removeSortedWidget_not_elem w (layoutOnline s)) in Hon by tauto.
    rewrite (removeSortedWidget_not_elem w (layoutOffline s)) in Hoff by tauto.
    rewrite Hon, Hoff, Hg. destruct status.
    + by rewrite addSortedWidget_Permutation.
    + rewrite addSortedWidget_Permutation.
      rewrite (app_assoc (layoutOnline s)), <- Permutation_middle.
      by rewrite <- app_assoc.
  - destruct (addGroup_returns closestSortedIndex id form s)
      as (s' & Hadd & _ & Hcw & _ & _ & _ & _ & Hg & Hon & Hoff).
    set (w := mkWidget (heapNext s) GroupWidget id) in *.
    exists w, s'. split; [done|]. apply Hgen; [done|done|].
    unfold allWidgets. rewrite Hon, Hoff, Hg, addSortedWidget_Permutation.
    simpl. by rewrite <- Permutation_middle.
Qed.

Lemma add_again_orphans_witness :
  wf dialogABG ∧ contactWidgets dialogABG !! "A" = Some (Some wA)
  ∧ ∃ w s',
      addFriend appendIndex "A" Online 10 dialogABG = Some (w, s')
      ∧ w ≠ wA ∧ wA ∈ allWidgets s' ∧ ¬ wf s'.
Proof.
  split; [apply dialogABG_wf|]. split; [reflexivity|].
  destruct (proj1 (add_again_orphans appendIndex "A" Online 10 dialogABG wA
                     dialogABG_wf eq_refl))
    as (w & s' & Hadd & Hne & _ & _ & Hin & _ & Hnwf).
  exists w, s'. repeat (split; [assumption|]). exact Hnwf.
Defined.

(** ** Status updates *)

Lemma Permutation_filter_ne (w : Widget) (l : list Widget) :
  NoDup l → w ∈ l → l ≡ₚ w :: filter (λ x, x ≠ w) l.
Proof.
  induction l as [|x l IH]; intros Hnd Hin; [by apply elem_of_nil in Hin|].
  apply NoDup_cons in Hnd as [Hx Hnd].
  destruct (decide (x = w)) as [->|Hne].
  - rewrite filter_cons_False by (intros H; by apply H).
    by rewrite filter_ne_id.
  - rewrite filter_cons_True by done.
    apply elem_of_cons in Hin as [->|Hin]; [done|].
    rewrite (IH Hnd Hin) at 1. apply perm_swap.
Qed.

Lemma wf_friendLayout s on off :
  wf s → on ++ off ≡ₚ layoutOnline s ++ layoutOffline s →
  wf (set_friendLayout on off s).
Proof.
  intros [H1 H2 H3 H4 H5 H6 H7 H8 H9] Hperm.
  assert (Hall : allWidgets (set_friendLayout on off s) ≡ₚ allWidgets s).
  { unfold allWidgets. simpl.
    rewrite (Permutation_app_swap_app on), Hperm.
    by rewrite (Permutation_app_swap_app (groupLayout s)). }
  split; simpl; try done.
  - by rewrite Hall.
  - intros w. rewrite Hall. apply H3.
  - intros id w Hw Hk. rewrite Hperm. by eapply H5.
  - intros w Hw. rewrite Hall. by apply H8.
  - intros w. rewrite Hall. apply H9.
Qed.

Section StatusUpdates.

Variable closestSortedIndex : Widget → list Widget → nat.

Lemma updateFriendStatus_entry id status s w :
  contactWidgets s !! id = Some (Some w) → wkind w = FriendWidget →
  updateFriendStatus closestSortedIndex id status s
  = friendLayout_addFriendWidget closestSortedIndex (Some w) status s.
Proof.
  intros Hw Hk. unfold updateFriendStatus, addFriendWidget, value.
  rewrite Hw. unfold qobject_cast. simpl. by rewrite decide_True.
Qed.

Lemma updateFriendStatus_fields id status s w :
  wf s → contactWidgets s !! id = Some (Some w) → wkind w = FriendWidget →
  ∃ on off,
    updateFriendStatus closestSortedIndex id status s
    = Some (set_friendLayout on off s)
    ∧ wf (set_friendLayout on off s)
    ∧ (w ∈ on ↔ status = Online) ∧ (w ∈ off ↔ status = Offline)
    ∧ filter (λ x, x ≠ w) on = filter (λ x, x ≠ w) (layoutOnline s)
    ∧ filter (λ x, x ≠ w) off = filter (λ x, x ≠ w) (layoutOffline s).
Proof.
  intros Hwf Hw Hk.
  destruct (allWidgets_nodup s (wf_nodup s Hwf)) as (Hon & _ & Hoff & Hd1 & _).
  pose proof (wf_friend s Hwf id w Hw Hk) as Hin.
  assert (Hnd : NoDup (layoutOnline s ++ layoutOffline s)).
  { apply NoDup_app. repeat split; try done. intros x Hx. by destruct (Hd1 x Hx). }
  pose proof (Permutation_filter_ne w _ Hnd Hin) as Hperm.
  rewrite filter_app in Hperm.
  set (ron := filter (λ x, x ≠ w) (layoutOnline s)) in *.
  set (roff := filter (λ x, x ≠ w) (layoutOffline s)) in *.
  assert (Hron : w ∉ ron) by (unfold ron; rewrite list_elem_of_filter; tauto).
  assert (Hroff : w ∉ roff) by (unfold roff; rewrite list_elem_of_filter; tauto).
  rewrite (updateFriendStatus_entry id status s w Hw Hk).
  unfold friendLayout_addFriendWidget.
  rewrite !removeSortedWidget_filter by done. fold ron roff.
  destruct status.
  - exists (addSortedWidget closestSortedIndex w ron), roff.
    split; [done|]. split.
    { apply wf_friendLayout; [done|].
      by rewrite addSortedWidget_Permutation, Hperm. }
    rewrite filter_addSortedWidget, elem_of_addSortedWidget by done.
    rewrite (filter_ne_id w roff) by done.
    repeat split; auto; try done; try (intros H; by destruct (Hroff H)).
  - exists ron, (addSortedWidget closestSortedIndex w roff).
    split; [done|]. split.
    { apply wf_friendLayout; [done|].
      by rewrite addSortedWidget_Permutation, <- Permutation_middle, Hperm. }
    rewrite filter_addSortedWidget, elem_of_addSortedWidget by done.
    rewrite (filter_ne_id w ron) by done.
    repeat split; auto; try done; try (intros H; by destruct (Hron H)).
Qed.

Lemma updateFriendStatus_cases id status s s' :
  updateFriendStatus closestSortedIndex id status s = Some s' →
  s' = s ∨ ∃ w, contactWidgets s !! id = Some (Some w) ∧ wkind w = FriendWidget.
Proof.
  unfold updateFriendStatus, addFriendWidget.
  destruct (qobject_cast _ _) as [w|] eqn:Hcast; simpl.
  - intros _. right. exists w.
    apply qobject_cast_Some in Hcast as [Hv Hk]. split; [|done].
    revert Hv. unfold value. by destruct (contactWidgets s !! id) as [p|]; simpl; [intros ->|].
  - intros [= <-]. by left.
Qed.

Lemma set_contacts_id s : set_contacts (contactWidgets s) (contactChatForms s) s = s.
Proof. by destruct s. Qed.

(** For a key that has an entry [contactWidgets[friendPk]] inserts nothing. *)
Lemma updateFriendWidget_entry findFriend id s :
  is_Some (contactWidgets s !! id) →
  updateFriendWidget closestSortedIndex findFriend id s
  = (status ← findFriend id; updateFriendStatus closestSortedIndex id status s).
Proof.
  intros [p Hp]. unfold updateFriendWidget, updateFriendStatus, addFriendWidget.
  rewrite (subscript_entry _ _ _ Hp), set_contacts_id.
  unfold value. by rewrite Hp.
Qed.

(** X15: a status update of a managed friend moves its widget: after
    [updateFriendStatus] the widget is in the online grouping exactly when
    the status is [Online] and in the offline grouping exactly when it is
    [Offline]; the other widgets keep their groupings and order, nothing
    else of the dialog changes and it stays well-formed.
    [updateFriendWidget] does the same with the status the friend list
    reports. *)
Theorem updateFriendStatus_moves id status s w :
  wf s → contactWidgets s !! id = Some (Some w) → wkind w = FriendWidget →
  ∃ s',
    updateFriendStatus closestSortedIndex id status s = Some s'
    ∧ (∀ findFriend, findFriend id = Some status →
         updateFriendWidget closestSortedIndex findFriend id s = Some s')
    ∧ wf s'
    ∧ (w ∈ layoutOnline s' ↔ status = Online)
    ∧ (w ∈ layoutOffline s' ↔ status = Offline)
    ∧ filter (λ x, x ≠ w) (layoutOnline s') = filter (λ x, x ≠ w) (layoutOnline s)
    ∧ filter (λ x, x ≠ w) (layoutOffline s') = filter (λ x, x ≠ w) (layoutOffline s)
    ∧ s' = set_friendLayout (layoutOnline s') (layoutOffline s') s.
Proof.
  intros Hwf Hw Hk.
  destruct (updateFriendStatus_fields id status s w Hwf Hw Hk)
    as (on & off & Hupd & Hwf' & H1 & H2 & H3 & H4).
  exists (set_friendLayout on off s). split; [done|]. split.
  { intros findFriend Hf. rewrite updateFriendWidget_entry, Hf by by eexists.
    exact Hupd. }
  do 5 (split; [done|]). reflexivity.
Qed.

End StatusUpdates.

Lemma updateFriendStatus_moves_witness :
  wf dialogABG ∧ contactWidgets dialogABG !! "A" = Some (Some wA)
  ∧ wkind wA = FriendWidget
  ∧ ∃ s',
      updateFriendStatus appendIndex "A" Offline dialogABG = Some s'
      ∧ wf s' ∧ wA ∈ layoutOffline s' ∧ wA ∉ layoutOnline s'.
Proof.
  split; [apply dialogABG_wf|]. split; [reflexivity|]. split; [reflexivity|].
  destruct (updateFriendStatus_moves appendIndex "A" Offline dialogABG wA
              dialogABG_wf eq_refl eq_refl)
    as (s' & Hupd & _ & Hwf & Hon & Hoff & _).
  exists s'. split; [exact Hupd|]. split; [exact Hwf|]. split.
  - by apply Hoff.
  - intros H. apply Hon in H. discriminate H.
Defined.

(** ** The order of the layouts and the setting *)

Lemma reorderLayouts_cases top s s' :
  reorderLayouts top s = Some s' → s' = s ∨ ∃ ls, s' = set_layouts ls s.
Proof.
  unfold reorderLayouts. destruct (layouts s) as [|first rest]; [done|].
  destruct (bool_decide _); [intros [= <-]; by left|].
  destruct rest as [|second rest]; [done|]. intros [= <-]. right. eauto.
Qed.

(** X16: on a well-formed dialog [reorderLayouts] returns and leaves
    [layouts] in the order of the constructor for the position asked for,
    changing nothing else; it keeps the dialog well-formed and the
    contacts of the ring, and asking for the same position again changes
    nothing. *)
Theorem reorderLayouts_order top s :
  wf s →
  ∃ s',
    reorderLayouts top s = Some s'
    ∧ layouts s' = displayOrder top
    ∧ s' = set_layouts (displayOrder top) s
    ∧ wf s'
    ∧ ring s' ≡ₚ ring s
    ∧ reorderLayouts top s' = Some s'.
Proof.
  intros Hwf.
  destruct (reorderLayouts_wf top s Hwf) as (s' & Hre & Hwf').
  exists s'. split; [done|].
  assert (Hs' : s' = set_layouts (displayOrder top) s).
  { revert Hre. unfold reorderLayouts, displayOrder.
    destruct s as [cw cf on off g ls a c gp lc dl hn].
    destruct (wf_layouts _ Hwf) as [E|E]; simpl in E; subst ls;
      destruct top; simpl; by intros [= <-]. }
  split; [by rewrite Hs'|]. split; [done|]. split; [done|]. split.
  - rewrite (ring_Permutation s' (wf_layouts s' Hwf')).
    rewrite (ring_Permutation s (wf_layouts s Hwf)).
    rewrite Hs'. done.
  - rewrite Hs'. unfold reorderLayouts, displayOrder. by destruct top.
Qed.

Lemma reorderLayouts_order_witness :
  wf dialogABG
  ∧ ∃ s',
      reorderLayouts true dialogABG = Some s'
      ∧ layouts s' = [LayoutGroups; LayoutOnline; LayoutOffline]
      ∧ wf s'.
Proof.
  split; [apply dialogABG_wf|].
  destruct (reorderLayouts_order true dialogABG dialogABG_wf)
    as (s' & Hre & Hl & _ & Hwf & _).
  exists s'. split; [exact Hre|]. split; [exact Hl|exact Hwf].
Defined.

(** ** What every dialog produced by the operations satisfies *)

Lemma consistent_new top : consistent (ContentDialog_new top).
Proof. split; [apply ContentDialog_new_wf|done..]. Qed.

Lemma consistent_set_active s w form :
  consistent s → w ∈ allWidgets s →
  contactChatForms s !! wcontact w = Some form →
  consistent (set_active (Some w) (Some form) s).
Proof.
  intros [Hwf Ha Hc Hd] Hin Hform. split; simpl.
  - by apply set_active_wf.
  - split; [done|]. intros E. pose proof (wf_shown s Hwf w Hin) as Hw.
    rewrite E in Hw. by rewrite lookup_empty in Hw.
  - done.
  - done.
Qed.

Lemma consistent_activated s s' :
  consistent s →
  (s' = s
   ∨ ∃ w form, w ∈ allWidgets s
       ∧ contactChatForms s !! wcontact w = Some form
       ∧ activeChatroomWidget s ≠ Some w
       ∧ s' = set_active (Some w) (Some form) s) →
  consistent s'.
Proof.
  intros Hc [->|(w & form & Hin & Hform & _ & ->)]; [done|].
  by apply consistent_set_active.
Qed.

Lemma consistent_set_friendLayout s on off :
  consistent s → wf (set_friendLayout on off s) →
  consistent (set_friendLayout on off s).
Proof. intros [Hwf Ha Hc Hd] Hwf'. by split. Qed.

Lemma consistent_set_layouts s ls :
  consistent s → wf (set_layouts ls s) → consistent (set_layouts ls s).
Proof. intros [Hwf Ha Hc Hd] Hwf'. by split. Qed.

Lemma consistent_set_groupchatPosition s top :
  consistent s → consistent (set_groupchatPosition top s).
Proof.
  intros [[H1 H2 H3 H4 H5 H6 H7 H8 H9] Ha Hc Hd]. split; [|done..].
  by split.
Qed.

Section Consistency.

Variable closestSortedIndex : Widget → list Widget → nat.

Lemma addFriend_shown_form id status form s w s' :
  wf s → addFriend closestSortedIndex id status form s = Some (w, s') →
  contentLayout s' = Some form
  ∧ deleteLaterCalled s' = deleteLaterCalled s.
Proof.
  intros Hwf.
  assert (Hfresh : activeChatroomWidget s
                   ≠ Some (mkWidget (heapNext s) FriendWidget id)).
  { intros Ha. pose proof (wf_heap s Hwf _ (wf_active s Hwf _ Ha)) as H.
    simpl in H. lia. }
  unfold addFriend, friendLayout_addFriendWidget. cbn [mbind option_bind].
  destruct status; unfold activate; simpl;
    rewrite decide_False by done; rewrite lookup_insert_eq; simpl;
    by intros [= <- <-].
Qed.

Lemma addGroup_shown_form id form s w s' :
  wf s → addGroup closestSortedIndex id form s = Some (w, s') →
  contentLayout s' = Some form
  ∧ deleteLaterCalled s' = deleteLaterCalled s.
Proof.
  intros Hwf.
  assert (Hfresh : activeChatroomWidget s
                   ≠ Some (mkWidget (heapNext s) GroupWidget id)).
  { intros Ha. pose proof (wf_heap s Hwf _ (wf_active s Hwf _ Ha)) as H.
    simpl in H. lia. }
  unfold addGroup. unfold activate; simpl.
  rewrite decide_False by done. rewrite lookup_insert_eq. simpl.
  by intros [= <- <-].
Qed.

Lemma consistent_added s s' id w form :
  consistent s → wf s' →
  activeChatroomWidget s' = Some w → wcontact w = id →
  contactWidgets s' = <[id := Some w]> (contactWidgets s) →
  contactChatForms s' = <[id := form]> (contactChatForms s) →
  contentLayout s' = Some form →
  deleteLaterCalled s' = deleteLaterCalled s →
  lifecycle s' = lifecycle s →
  consistent s'.
Proof.
  intros [Hwf Ha Hc Hd] Hwf' Ha' Hid Hcw Hcf Hcont Hdel Hlc. split.
  - done.
  - rewrite Ha', Hcw. split; [done|]. intros E.
    apply (f_equal (λ m, m !! id)) in E.
    by rewrite lookup_insert_eq, lookup_empty in E.
  - rewrite Ha', Hcont, Hcf. simpl. by rewrite Hid, lookup_insert_eq.
  - by rewrite Hdel, Hlc.
Qed.

Lemma consistent_addFriend id status form s w s' :
  consistent s → contactWidgets s !! id = None →
  addFriend closestSortedIndex id status form s = Some (w, s') →
  consistent s'.
Proof.
  intros Hc Hnone Hadd. pose proof (cons_wf s Hc) as Hwf.
  destruct (addFriend_wf closestSortedIndex id status form s Hwf Hnone)
    as (w1 & s1 & Hadd1 & Hwf1 & _).
  destruct (addFriend_returns closestSortedIndex id status form s)
    as (s2 & Hadd2 & Ha & Hcw & Hcf & _ & _ & Hlc & _).
  destruct (addFriend_shown_form id status form s w s' Hwf Hadd) as [Hcont Hdel].
  assert (s1 = s') as -> by congruence.
  assert (s2 = s' ∧ w = mkWidget (heapNext s) FriendWidget id) as [-> ->]
    by (split; congruence).
  by eapply (consistent_added s s' id).
Qed.

Lemma consistent_addGroup id form s w s' :
  consistent s → contactWidgets s !! id = None →
  addGroup closestSortedIndex id form s = Some (w, s') →
  consistent s'.
Proof.
  intros Hc Hnone Hadd. pose proof (cons_wf s Hc) as Hwf.
  destruct (addGroup_wf closestSortedIndex id form s Hwf Hnone)
    as (w1 & s1 & Hadd1 & Hwf1 & _).
  destruct (addGroup_returns closestSortedIndex id form s)
    as (s2 & Hadd2 & Ha & Hcw & Hcf & _ & _ & Hlc & _).
  destruct (addGroup_shown_form id form s w s' Hwf Hadd) as [Hcont Hdel].
  assert (s1 = s') as -> by congruence.
  assert (s2 = s' ∧ w = mkWidget (heapNext s) GroupWidget id) as [-> ->]
    by (split; congruence).
  by eapply (consistent_added s s' id).
Qed.

Lemma consistent_removed s id w s' :
  consistent s → contactWidgets s !! id = Some (Some w) →
  removeContact (wkind w) id s = Some s' →
  consistent s'.
Proof.
  intros Hc Hw Hrem. pose proof (cons_wf s Hc) as Hwf.
  destruct (removeContact_fields s id w Hwf Hw)
    as (s1 & s'' & Hsel & Hrem' & Hwf1 & Hwf' & Hcw & Hcf & Hon & Hg & Hoff & _ & Hrest).
  assert (s'' = s') as -> by congruence.
  assert (Hc1 : consistent s1).
  { apply (consistent_activated s s1 Hc), (selectReplacement_cases w s s1 Hsel). }
  assert (Hcw1 : contactWidgets s1 = contactWidgets s)
    by by apply (selectReplacement_contactWidgets w).
  assert (Hcf1 : contactChatForms s1 = contactChatForms s).
  { destruct (selectReplacement_cases w s s1 Hsel) as [->|(? & ? & _ & _ & _ & ->)]; done. }
  destruct (decide (delete id (contactWidgets s) = ∅)) as [E|E].
  - destruct Hrest as (Ha & Hcont & Hd & Hl). split; [exact Hwf'| | |].
    + by rewrite Ha, Hcw.
    + by rewrite Ha, Hcont.
    + by rewrite Hd, Hl.
  - destruct Hrest as (Ha & Hcont & Hd & Hl).
    destruct (activeChatroomWidget s1) as [a|] eqn:Ha1.
    2:{ exfalso. apply (cons_active s1 Hc1) in Ha1. rewrite Hcw1 in Ha1.
        rewrite Ha1 in Hw. by rewrite lookup_empty in Hw. }
    split; [exact Hwf'| | |].
    + rewrite Ha, Hcw. split; [done|]. intros H. by destruct (E H).
    + rewrite Ha, Hcont, Hcf, (cons_content s1 Hc1), Ha1, Hcf1. simpl.
      assert (Hin : a ∈ allWidgets s') by by apply (wf_active s' Hwf').
      unfold allWidgets in Hin.
      rewrite Hon, Hg, Hoff, <- !filter_app in Hin.
      apply list_elem_of_filter in Hin as [Hne Hin].
      fold (allWidgets s) in Hin.
      pose proof (wf_shown s Hwf a Hin) as Hsa.
      rewrite lookup_delete_ne; [done|].
      intros Hid. rewrite <- Hid in Hsa. congruence.
    + rewrite Hd, Hl. apply (cons_delete s Hc).
Qed.

Lemma consistent_updateFriendStatus id status s s' :
  consistent s →
  updateFriendStatus closestSortedIndex id status s = Some s' →
  consistent s'.
Proof.
  intros Hc Hupd.
  destruct (updateFriendStatus_cases closestSortedIndex id status s s' Hupd)
    as [->|(w & Hw & Hk)]; [done|].
  destruct (updateFriendStatus_fields closestSortedIndex id status s w
              (cons_wf s Hc) Hw Hk) as (on & off & Hupd' & Hwf' & _).
  assert (s' = set_friendLayout on off s) as -> by congruence.
  by apply consistent_set_friendLayout.
Qed.

(** *** Keys bound to the null pointer *)

Lemma wf_lifecycle l s : wf (set_lifecycle l s) ↔ wf s.
Proof. split; intros [H1 H2 H3 H4 H5 H6 H7 H8 H9 H10]; by split. Qed.

Lemma widgetEntries_lookup s id w :
  widgetEntries s !! id = Some (Some w) ↔ contactWidgets s !! id = Some (Some w).
Proof.
  unfold widgetEntries. rewrite map_lookup_filter_Some. simpl.
  split; [by intros [? _]|]. by intros H.
Qed.

Lemma widgetEntries_None s id :
  contactWidgets s !! id = None → widgetEntries s !! id = None.
Proof. intros H. apply map_lookup_filter_None. by left. Qed.

Lemma widgetEntries_null s id :
  contactWidgets s !! id = Some None → widgetEntries s !! id = None.
Proof.
  intros H. apply map_lookup_filter_None. right. intros x Hx. simpl.
  rewrite H in Hx. injection Hx as <-. by intros E.
Qed.

Lemma value_widgetEntries s id :
  value (widgetEntries s) id = value (contactWidgets s) id.
Proof.
  unfold value. destruct (contactWidgets s !! id) as [[w|]|] eqn:H.
  - by rewrite (proj2 (widgetEntries_lookup s id w) H).
  - by rewrite widgetEntries_null.
  - by rewrite widgetEntries_None.
Qed.

Lemma widgetEntries_all s :
  (∀ id, contactWidgets s !! id ≠ Some None) →
  widgetEntries s = contactWidgets s.
Proof.
  intros Hnn. apply map_filter_id. intros id x Hx. simpl. intros ->.
  by destruct (Hnn id).
Qed.

Lemma widgetEntries_empty_iff s :
  wf (purge s) → widgetEntries s = ∅ ↔ allWidgets s = [].
Proof.
  intros Hwf. rewrite <- map_size_empty_iff.
  pose proof (wf_size (purge s) Hwf) as Hsize. simpl in Hsize.
  change (allWidgets (purge s)) with (allWidgets s) in Hsize.
  rewrite Hsize. by destruct (allWidgets s).
Qed.

Lemma coherent_shadow s : coherent s → consistent (shadow s).
Proof.
  intros [Hwf Ha Hc Hcl Hd]. split.
  - by apply wf_lifecycle.
  - simpl. by rewrite widgetEntries_empty_iff.
  - done.
  - simpl. by destruct (deleteLaterCalled s).
Qed.

Lemma reframe_coherent s l :
  consistent (reframe (widgetEntries s) l s) →
  (lifecycle s = Closing → deleteLaterCalled s = true) →
  (deleteLaterCalled s = true →
   lifecycle s = Closing ∨ ∃ id, contactWidgets s !! id = Some None) →
  coherent s.
Proof.
  intros [Hwf Ha Hc _] Hcl Hd.
  assert (Hwf' : wf (purge s)) by by apply (wf_lifecycle l).
  split; try done. simpl in Ha. by rewrite <- widgetEntries_empty_iff.
Qed.

Lemma coherent_nonnull s :
  coherent s → (∀ id, contactWidgets s !! id ≠ Some None) → consistent s.
Proof.
  intros Hc Hnn. pose proof (coherent_shadow s Hc) as [Hwf Ha Hcont _].
  destruct Hc as [_ _ _ Hcl Hd].
  pose proof (widgetEntries_all s Hnn) as E.
  assert (Hs : purge s = s).
  { unfold purge. rewrite E. by destruct s. }
  apply wf_lifecycle in Hwf. change (wf (purge s)) in Hwf. rewrite Hs in Hwf.
  split; try done.
  - simpl in Ha. by rewrite E in Ha.
  - split; [|done]. intros H. destruct (Hd H) as [?|[id Hid]]; [done|].
    by destruct (Hnn id).
Qed.

(** *** The operations on a dialog and on its shadow *)

Lemma reframe_activate m l widget s :
  activate widget (reframe m l s) = reframe m l <$> activate widget s.
Proof.
  unfold activate. simpl. destruct (decide _); [done|].
  destruct widget as [w|]; [|done]. simpl.
  by destruct (contactChatForms s !! wcontact w).
Qed.

Lemma reframe_cycleLoop m l fuel s fw :
  ∀ c i, cycleLoop fuel (reframe m l s) fw c i = cycleLoop fuel s fw c i.
Proof.
  induction fuel as [|fuel IH]; intros c i; simpl.
  - by destruct c.
  - change (nextLayout (reframe m l s)) with (nextLayout s).
    change (layoutItems (reframe m l s)) with (layoutItems s).
    destruct (_ || _); [|done].
    destruct (nextLayout s c fw) as [c'|]; [|done]. simpl. apply IH.
Qed.

Lemma reframe_cycleContacts m l fw inv s :
  cycleContacts fw inv (reframe m l s) = reframe m l <$> cycleContacts fw inv s.
Proof.
  unfold cycleContacts.
  change (getCurrentLayout (reframe m l s)) with (getCurrentLayout s).
  destruct (getCurrentLayout s) as [[cur|] index]; [|done].
  destruct (index =? -1); [done|]. cbv zeta.
  change (cycleDirection (reframe m l s)) with (cycleDirection s).
  rewrite reframe_cycleLoop.
  destruct (cycleLoop cycleFuel s _ cur _) as [[c j]|]; [|done].
  cbn [mbind option_bind].
  change (layoutItems (reframe m l s)) with (layoutItems s).
  destruct (itemAt _ _) as [cw|]; [|done]. cbn [mbind option_bind].
  change (activeChatroomWidget (reframe m l s)) with (activeChatroomWidget s).
  destruct (decide _); [done|]. apply reframe_activate.
Qed.

Lemma reframe_selectReplacement m l w s :
  selectReplacement w (reframe m l s) = reframe m l <$> selectReplacement w s.
Proof.
  unfold selectReplacement.
  change (activeChatroomWidget (reframe m l s)) with (activeChatroomWidget s).
  destruct (decide _); [apply reframe_cycleContacts|done].
Qed.

Lemma reframe_removeEntry m l id s :
  removeEntry id (reframe m l s)
  = reframe (delete id m) (if decide (delete id m = ∅) then Closing else l)
      (removeEntry id s).
Proof.
  unfold removeEntry, closeIfEmpty.
  change (chatroomCount (reframe m l s)) with (chatroomCount s).
  destruct (chatroomCount s =? 0); simpl;
    destruct (decide (delete id m = ∅));
    rewrite ?bool_decide_eq_true_2, ?bool_decide_eq_false_2 by done;
    by destruct (bool_decide (delete id (contactWidgets s) = ∅)).
Qed.

Lemma reframe_removeFriend m l id s w s' :
  contactWidgets s !! id = Some (Some w) → m !! id = Some (Some w) →
  wkind w = FriendWidget → removeFriend id s = Some s' →
  removeFriend id (reframe m l s)
  = Some (reframe (delete id m) (if decide (delete id m = ∅) then Closing else l) s').
Proof.
  intros Hw Hm Hk Hrem.
  rewrite (removeFriend_entry id s w Hw Hk) in Hrem.
  rewrite (removeFriend_entry id (reframe m l s) w Hm Hk).
  rewrite reframe_selectReplacement.
  destruct (selectReplacement w s) as [s1|]; [|done].
  cbn [mbind option_bind fmap option_fmap option_map] in *.
  injection Hrem as <-. f_equal.
  exact (reframe_removeEntry m l id
           (removeFriendWidget w Online (removeFriendWidget w Offline s1))).
Qed.

Lemma reframe_removeGroup m l id s w s' :
  contactWidgets s !! id = Some (Some w) → m !! id = Some (Some w) →
  wkind w = GroupWidget → removeGroup id s = Some s' →
  removeGroup id (reframe m l s)
  = Some (reframe (delete id m) (if decide (delete id m = ∅) then Closing else l) s').
Proof.
  intros Hw Hm Hk Hrem.
  rewrite (removeGroup_entry id s w Hw Hk) in Hrem.
  rewrite (removeGroup_entry id (reframe m l s) w Hm Hk).
  rewrite reframe_selectReplacement.
  destruct (selectReplacement w s) as [s1|]; [|done].
  cbn [mbind option_bind fmap option_fmap option_map] in *.
  injection Hrem as <-. f_equal.
  exact (reframe_removeEntry m l id
           (set_groupLayout (removeSortedWidget w (groupLayout s1)) s1)).
Qed.

Lemma reframe_addFriend m l id status form s w s' :
  addFriend closestSortedIndex id status form s = Some (w, s') →
  addFriend closestSortedIndex id status form (reframe m l s)
  = Some (w, reframe (<[id := Some w]> m) l s').
Proof.
  unfold addFriend, friendLayout_addFriendWidget. cbn [mbind option_bind].
  destruct status; unfold activate; simpl;
    destruct (decide _); rewrite ?lookup_insert_eq; simpl;
    by intros [= <- <-].
Qed.

Lemma reframe_addGroup m l id form s w s' :
  addGroup closestSortedIndex id form s = Some (w, s') →
  addGroup closestSortedIndex id form (reframe m l s)
  = Some (w, reframe (<[id := Some w]> m) l s').
Proof.
  unfold addGroup. unfold activate; simpl.
  destruct (decide _); rewrite ?lookup_insert_eq; simpl;
    by intros [= <- <-].
Qed.

Lemma reframe_updateFriendStatus m l id status s :
  value m id = value (contactWidgets s) id →
  updateFriendStatus closestSortedIndex id status (reframe m l s)
  = reframe m l <$> updateFriendStatus closestSortedIndex id status s.
Proof.
  intros Hv. unfold updateFriendStatus, addFriendWidget. simpl. rewrite Hv.
  destruct (qobject_cast _ _) as [w|]; [|done]. simpl. by destruct status.
Qed.

Lemma reframe_reorderLayouts m l top s :
  reorderLayouts top (reframe m l s) = reframe m l <$> reorderLayouts top s.
Proof.
  unfold reorderLayouts. simpl. destruct (layouts s) as [|first rest]; [done|].
  destruct (bool_decide _); [done|]. by destruct rest.
Qed.

(** *** Every operation keeps the invariant *)

Lemma coherent_new top : coherent (ContentDialog_new top).
Proof.
  apply (reframe_coherent _ Open); [|done|done].
  replace (widgetEntries (ContentDialog_new top)) with (∅ : gmap string (option Widget))
    by (symmetry; apply map_filter_empty).
  apply consistent_new.
Qed.

Lemma coherent_flags s s' l :
  coherent s →
  consistent (reframe (widgetEntries s') l s') →
  lifecycle s' = lifecycle s →
  deleteLaterCalled s' = deleteLaterCalled s →
  (∀ id, contactWidgets s !! id = Some None → contactWidgets s' !! id = Some None) →
  coherent s'.
Proof.
  intros [_ _ _ Hcl Hd] Hc Hlc Hdl Hnull.
  apply (reframe_coherent s' l Hc); rewrite Hlc, Hdl; [done|].
  intros H. destruct (Hd H) as [?|[id Hid]]; [by left|]. right. eauto.
Qed.

Lemma coherent_activated s s' :
  coherent s →
  (s' = s
   ∨ ∃ w form, w ∈ allWidgets s
       ∧ contactChatForms s !! wcontact w = Some form
       ∧ activeChatroomWidget s ≠ Some w
       ∧ s' = set_active (Some w) (Some form) s) →
  coherent s'.
Proof.
  intros Hc Hs'. pose proof (coherent_shadow s Hc) as Hsh.
  destruct Hs' as [->|(w & form & Hin & Hform & Hne & ->)]; [done|].
  eapply (coherent_flags s _ _ Hc); [|done..].
  apply (consistent_set_active (shadow s) w form Hsh Hin Hform).
Qed.

Lemma friendLayout_addFriendWidget_flags widget status s s' :
  friendLayout_addFriendWidget closestSortedIndex widget status s = Some s' →
  contactWidgets s' = contactWidgets s ∧ lifecycle s' = lifecycle s
  ∧ deleteLaterCalled s' = deleteLaterCalled s.
Proof.
  unfold friendLayout_addFriendWidget. destruct widget as [w|].
  - intros [= <-]. by destruct status.
  - by intros [= <-].
Qed.

Lemma coherent_updateFriendStatus id status s s' :
  coherent s →
  updateFriendStatus closestSortedIndex id status s = Some s' →
  coherent s'.
Proof.
  intros Hc Hupd.
  pose proof (friendLayout_addFriendWidget_flags _ _ _ _ Hupd) as (Hcw & Hlc & Hdl).
  pose proof (reframe_updateFriendStatus (widgetEntries s)
                (if deleteLaterCalled s then Closing else Open) id status s
                (value_widgetEntries s id)) as Hfr.
  rewrite Hupd in Hfr. simpl in Hfr.
  eapply (coherent_flags s s' _ Hc); [|done|done|by rewrite Hcw].
  replace (widgetEntries s') with (widgetEntries s)
    by (unfold widgetEntries; by rewrite Hcw).
  exact (consistent_updateFriendStatus id status _ _ (coherent_shadow s Hc) Hfr).
Qed.

Lemma coherent_null_key id s :
  coherent s → contactWidgets s !! id = None →
  coherent (set_contacts (<[id := None]> (contactWidgets s)) (contactChatForms s) s).
Proof.
  intros Hc Hnone. pose proof (coherent_shadow s Hc) as Hsh.
  eapply (coherent_flags s _ _ Hc); [|done|done|].
  - unfold widgetEntries at 1. simpl.
    rewrite map_filter_insert_False by (simpl; by intros H).
    rewrite delete_id by done. exact Hsh.
  - intros i Hi. simpl. rewrite lookup_insert_ne; [done|]. intros <-. congruence.
Qed.

Lemma updateFriendWidget_unfold findFriend id s :
  updateFriendWidget closestSortedIndex findFriend id s
  = (status ← findFriend id;
     updateFriendStatus closestSortedIndex id status
       (set_contacts (subscript (contactWidgets s) id).2 (contactChatForms s) s)).
Proof.
  unfold updateFriendWidget, updateFriendStatus, addFriendWidget, subscript, value.
  destruct (contactWidgets s !! id) as [p|] eqn:Hp; simpl.
  - by rewrite Hp.
  - by rewrite lookup_insert_eq.
Qed.

Lemma coherent_updateFriendWidget findFriend id s s' :
  coherent s →
  updateFriendWidget closestSortedIndex findFriend id s = Some s' →
  coherent s'.
Proof.
  intros Hc. rewrite updateFriendWidget_unfold.
  destruct (findFriend id) as [status|]; [|done]. cbn [mbind option_bind].
  apply coherent_updateFriendStatus. unfold subscript.
  destruct (contactWidgets s !! id) as [p|] eqn:Hp; simpl.
  - by rewrite set_contacts_id.
  - by apply coherent_null_key.
Qed.

Lemma coherent_addFriend id status form s w s' :
  coherent s → contactWidgets s !! id = None →
  addFriend closestSortedIndex id status form s = Some (w, s') →
  coherent s'.
Proof.
  intros Hc Hnone Hadd. pose proof (coherent_shadow s Hc) as Hsh.
  pose proof (reframe_addFriend (widgetEntries s)
                (if deleteLaterCalled s then Closing else Open) _ _ _ _ _ _ Hadd)
    as Hfr.
  destruct (addFriend_returns closestSortedIndex id status form s)
    as (s2 & Hadd2 & _ & Hcw & _ & _ & _ & Hlc & _).
  assert (s2 = s' ∧ mkWidget (heapNext s) FriendWidget id = w) as [-> Ew]
    by (split; congruence).
  rewrite Ew in Hcw.
  destruct (addFriend_shown_form id status form _ _ _ (cons_wf _ Hsh) Hfr)
    as [_ Hdl].
  assert (Hent : widgetEntries s' = <[id := Some w]> (widgetEntries s)).
  { unfold widgetEntries. rewrite Hcw. by apply map_filter_insert_True. }
  eapply (coherent_flags s s' _ Hc); [|done|done|].
  - rewrite Hent.
    exact (consistent_addFriend id status form _ _ _ Hsh
             (widgetEntries_None s id Hnone) Hfr).
  - intros i Hi. rewrite Hcw, lookup_insert_ne; [done|]. intros <-. congruence.
Qed.

Lemma coherent_addGroup id form s w s' :
  coherent s → contactWidgets s !! id = None →
  addGroup closestSortedIndex id form s = Some (w, s') →
  coherent s'.
Proof.
  intros Hc Hnone Hadd. pose proof (coherent_shadow s Hc) as Hsh.
  pose proof (reframe_addGroup (widgetEntries s)
                (if deleteLaterCalled s then Closing else Open) _ _ _ _ _ Hadd)
    as Hfr.
  destruct (addGroup_returns closestSortedIndex id form s)
    as (s2 & Hadd2 & _ & Hcw & _ & _ & _ & Hlc & _).
  assert (s2 = s' ∧ mkWidget (heapNext s) GroupWidget id = w) as [-> Ew]
    by (split; congruence).
  rewrite Ew in Hcw.
  destruct (addGroup_shown_form id form _ _ _ (cons_wf _ Hsh) Hfr) as [_ Hdl].
  assert (Hent : widgetEntries s' = <[id := Some w]> (widgetEntries s)).
  { unfold widgetEntries. rewrite Hcw. by apply map_filter_insert_True. }
  eapply (coherent_flags s s' _ Hc); [|done|done|].
  - rewrite Hent.
    exact (consistent_addGroup id form _ _ _ Hsh
             (widgetEntries_None s id Hnone) Hfr).
  - intros i Hi. rewrite Hcw, lookup_insert_ne; [done|]. intros <-. congruence.
Qed.

Lemma removeEntry_flags id s :
  lifecycle (removeEntry id s)
  = (if decide (delete id (contactWidgets s) = ∅) then Closing else lifecycle s).
Proof.
  unfold removeEntry, closeIfEmpty.
  destruct (chatroomCount s =? 0); simpl;
    destruct (decide (delete id (contactWidgets s) = ∅));
    by rewrite ?bool_decide_eq_true_2, ?bool_decide_eq_false_2 by done.
Qed.

Lemma coherent_removed s id w s' :
  coherent s → contactWidgets s !! id = Some (Some w) →
  removeContact (wkind w) id s = Some s' →
  coherent s'.
Proof.
  intros Hc Hw Hrem. pose proof (coherent_shadow s Hc) as Hsh.
  set (l := if deleteLaterCalled s then Closing else Open) in *.
  set (l' := if decide (delete id (widgetEntries s) = ∅) then Closing else l).
  assert (Hm : widgetEntries s !! id = Some (Some w))
    by by apply widgetEntries_lookup.
  assert (Hfr : removeContact (wkind w) id (shadow s)
                = Some (reframe (delete id (widgetEntries s)) l' s')).
  { destruct (wkind w) eqn:Hk; simpl in *.
    - by apply (reframe_removeFriend _ _ _ _ w).
    - by apply (reframe_removeGroup _ _ _ _ w). }
  assert (Hcw : contactWidgets s' = delete id (contactWidgets s)).
  { destruct (wkind w); simpl in Hrem.
    - by apply removeFriend_contactWidgets.
    - by apply removeGroup_contactWidgets. }
  assert (Hlc : lifecycle s'
                = (if decide (delete id (contactWidgets s) = ∅)
                   then Closing else lifecycle s)).
  { destruct (wkind w) eqn:Hk; simpl in Hrem.
    - rewrite (removeFriend_entry id s w Hw Hk) in Hrem.
      destruct (selectReplacement w s) as [s1|] eqn:Hsel; [|done].
      cbn [mbind option_bind] in Hrem. injection Hrem as <-.
      rewrite removeEntry_flags. simpl.
      rewrite (selectReplacement_contactWidgets w s s1 Hsel).
      destruct (selectReplacement_cases w s s1 Hsel)
        as [->|(? & ? & _ & _ & _ & ->)]; done.
    - rewrite (removeGroup_entry id s w Hw Hk) in Hrem.
      destruct (selectReplacement w s) as [s1|] eqn:Hsel; [|done].
      cbn [mbind option_bind] in Hrem. injection Hrem as <-.
      rewrite removeEntry_flags. simpl.
      rewrite (selectReplacement_contactWidgets w s s1 Hsel).
      destruct (selectReplacement_cases w s s1 Hsel)
        as [->|(? & ? & _ & _ & _ & ->)]; done. }
  assert (Hent : widgetEntries s' = delete id (widgetEntries s)).
  { unfold widgetEntries. rewrite Hcw. apply map_filter_delete. }
  pose proof (consistent_removed (shadow s) id w _ Hsh Hm Hfr) as Hc'.
  rewrite <- Hent in Hc'.
  pose proof (cons_delete _ Hc') as Hdel. simpl in Hdel.
  destruct Hc as [_ _ _ Hcl Hd].
  apply (reframe_coherent s' l' Hc').
  - rewrite Hlc. intros Hclosing. apply Hdel. unfold l'.
    destruct (decide (delete id (contactWidgets s) = ∅)) as [E|E].
    + rewrite <- Hent. unfold widgetEntries. rewrite Hcw, E.
      by rewrite map_filter_empty, decide_True.
    + destruct (decide _); [done|]. unfold l. by rewrite (Hcl Hclosing).
  - intros Hdl. apply Hdel in Hdl. rewrite Hlc. unfold l' in Hdl.
    destruct (decide (delete id (widgetEntries s) = ∅)) as [E|E].
    + destruct (decide (delete id (contactWidgets s) = ∅)) as [E'|E']; [by left|].
      right. rewrite <- Hcw in E'. apply map_choose in E' as (i & x & Hx).
      exists i. destruct x as [x|]; [|done].
      apply widgetEntries_lookup in Hx. rewrite Hent, E in Hx.
      by rewrite lookup_empty in Hx.
    + unfold l in Hdl. destruct (deleteLaterCalled s) eqn:Hs; [|done].
      destruct (Hd eq_refl) as [Hclosing|[i Hi]].
      * left. rewrite Hclosing. by destruct (decide _).
      * right. exists i. rewrite Hcw, lookup_delete_ne; [done|].
        intros <-. congruence.
Qed.

Lemma coherent_reachable s : reachable closestSortedIndex s → coherent s.
Proof.
  induction 1 as [top|s id status form w s' _ IH Hnone Hadd
                      |s id form w s' _ IH Hnone Hadd
                      |s id s' _ IH Hrem|s id s' _ IH Hrem
                      |s fw inv s' _ IH Hcyc|s id s' _ IH Hfoc
                      |s id status s' _ IH Hupd|s findFriend id s' _ IH Hupd
                      |s top s' _ IH Hre|s top _ IH].
  - apply coherent_new.
  - by eapply coherent_addFriend.
  - by eapply coherent_addGroup.
  - destruct (removeFriend_inv id s s' Hrem) as (w & Hw & Hk).
    apply (coherent_removed s id w s' IH Hw). by rewrite Hk.
  - destruct (removeGroup_inv id s s' Hrem) as (w & Hw & Hk).
    apply (coherent_removed s id w s' IH Hw). by rewrite Hk.
  - apply (coherent_activated s s' IH). by eapply cycleContacts_cases.
  - revert Hfoc. unfold focusContact, focusCommon.
    destruct (contactWidgets s !! id) as [[w|]|] eqn:Hw.
    + intros Hact. apply (coherent_activated s s' IH).
      revert Hact. unfold activate.
      destruct (decide _) as [E|E]; [intros [= <-]; by left|]. simpl.
      destruct (contactChatForms s !! wcontact w) as [form|] eqn:Hf; [|done].
      intros [= <-]. right. exists w, form. repeat split; try done.
      apply (wf_managed_shown (purge s) id w (coh_wf s IH)).
      by apply widgetEntries_lookup.
    + unfold activate. destruct (decide _); [|done]. by intros [= <-].
    + by intros [= <-].
  - by eapply coherent_updateFriendStatus.
  - by eapply coherent_updateFriendWidget.
  - pose proof (coherent_shadow s IH) as Hsh.
    pose proof (reframe_reorderLayouts (widgetEntries s)
                  (if deleteLaterCalled s then Closing else Open) top s) as Hfr.
    rewrite Hre in Hfr. simpl in Hfr.
    destruct (reorderLayouts_wf top _ (cons_wf _ Hsh)) as (s'' & Hre' & Hwf').
    fold (shadow s) in Hfr. rewrite Hfr in Hre'. injection Hre' as <-.
    destruct (reorderLayouts_cases top s s' Hre) as [->|(ls & ->)]; [done|].
    eapply (coherent_flags s _ _ IH); [|done..].
    by apply (consistent_set_layouts (shadow s) ls Hsh).
  - pose proof (coherent_shadow s IH) as Hsh.
    eapply (coherent_flags s _ _ IH); [|done..].
    apply (consistent_set_groupchatPosition (shadow s) top Hsh).
Qed.

(** X17: every dialog produced from a new one by [addFriend] and [addGroup]
    of ids that have no entry at that point, [removeFriend], [removeGroup],
    [cycleContacts], [focusContact], [updateFriendStatus],
    [updateFriendWidget], [reorderLayouts] and changes of the setting is
    coherent: keys bound to the null pointer apart (only
    [updateFriendWidget] of an id without entry makes one), it is
    well-formed; a contact is active exactly when a widget is displayed;
    the content pane shows the chat form registered for the active
    contact; a closing dialog has asked for its deletion. When no key is
    bound to the null pointer the dialog is well-formed as it is, a contact
    is active exactly when contacts are managed, and the dialog has asked
    for its deletion exactly when it is closing. *)
Theorem reachable_coherent s :
  reachable closestSortedIndex s →
  coherent s
  ∧ ((∀ id, contactWidgets s !! id ≠ Some None) → consistent s).
Proof.
  intros Hreach. pose proof (coherent_reachable s Hreach) as Hc.
  split; [done|]. by apply coherent_nonnull.
Qed.

End Consistency.

Lemma reachable_coherent_witness :
  ∃ s,
    reachable appendIndex s
    ∧ contactWidgets s = {[ "B" := None; "A" := Some wA ]}
    ∧ coherent s.
Proof.
  assert (H : reachable appendIndex
                (mkDialog {[ "B" := None; "A" := Some wA ]} {[ "A" := 10%nat ]}
                   [wA] [] [] [LayoutOnline; LayoutGroups; LayoutOffline]
                   (Some wA) (Some 10%nat) false Open false 1)).
  { apply (reach_updateFriendWidget appendIndex dialogA (λ _, Some Online) "B");
      [|reflexivity].
    apply (reach_addFriend appendIndex (ContentDialog_new false)
             "A" Online 10%nat wA dialogA);
      [apply reach_new|reflexivity|reflexivity]. }
  eexists. split; [exact H|]. split; [reflexivity|].
  exact (proj1 (reachable_coherent appendIndex _ H)).
Defined.

(** ** Cycling without a current contact *)



(** ** Focusing a contact *)

(** X18: focusing a contact the dialog manages makes its widget the active
    one and shows the chat form registered for it, changing nothing else;
    the dialog stays consistent and focusing the contact again changes
    nothing. *)
Theorem focusContact_shows s id w :
  consistent s → contactWidgets s !! id = Some (Some w) →
  ∃ s' form,
    focusContact id s = Some s'
    ∧ contactChatForms s !! id = Some form
    ∧ s' = set_active (Some w) (Some form) s
    ∧ isActiveWidget s' (value (contactWidgets s') id) = true
    ∧ contentLayout s' = Some form
    ∧ consistent s'
    ∧ focusContact id s' = Some s'.
Proof.
  intros Hc Hw. pose proof (cons_wf s Hc) as Hwf.
  pose proof (wf_key s Hwf id w Hw) as Hk.
  destruct (wf_forms s Hwf id) as [form Hform]; [by eexists|].
  exists (set_active (Some w) (Some form) s), form.
  assert (Hfoc : focusContact id s = Some (set_active (Some w) (Some form) s)).
  { unfold focusContact, focusCommon. rewrite Hw. unfold activate.
    destruct (decide _) as [E|E].
    - pose proof (cons_content s Hc) as Hcont. rewrite E in Hcont.
      simpl in Hcont. rewrite Hk, Hform in Hcont.
      destruct s. simpl in *. by rewrite E, Hcont.
    - simpl. by rewrite Hk, Hform. }
  split; [done|]. split; [done|]. split; [done|]. split.
  { unfold isActiveWidget, value. simpl.
    by rewrite Hw, bool_decide_eq_true_2. }
  split; [done|]. split.
  { apply consistent_set_active; [done|by eapply wf_managed_shown|].
    by rewrite Hk. }
  unfold focusContact, focusCommon. simpl. rewrite Hw. unfold activate. simpl.
  by rewrite decide_True.
Qed.

Lemma focusContact_shows_witness :
  contactWidgets dialogABG !! "G" = Some (Some wG)
  ∧ ∃ s' form,
      focusContact "G" dialogABG = Some s'
      ∧ activeChatroomWidget s' = Some wG
      ∧ contentLayout s' = Some form.
Proof.
  split; [reflexivity|].
  assert (Hc : consistent dialogABG) by (split; [apply dialogABG_wf|done..]).
  destruct (focusContact_shows dialogABG "G" wG Hc eq_refl)
    as (s' & form & Hfoc & _ & Hs' & _ & Hcont & _).
  exists s', form. split; [exact Hfoc|]. split; [|exact Hcont].
  rewrite Hs'. reflexivity.
Defined.

(** ** Adding a contact and removing it again *)

Lemma wf_fresh s k id : wf s → mkWidget (heapNext s) k id ∉ allWidgets s.
Proof.
  intros Hwf Hin. pose proof (wf_heap s Hwf _ Hin) as Hlt. simpl in Hlt. lia.
Qed.

Section AddRemove.

Variable closestSortedIndex : Widget → list Widget → nat.

(** X19: adding a friend (or a group) that a well-formed dialog does not
    manage and removing it again gives back the managed contacts and the
    three groupings (contents and order) the dialog had before; no form is
    registered for the id afterwards. *)
Theorem add_remove_round_trip s id form :
  wf s → contactWidgets s !! id = None →
  (∀ status, ∃ w s1 s2,
     addFriend closestSortedIndex id status form s = Some (w, s1)
     ∧ removeFriend id s1 = Some s2
     ∧ contactWidgets s2 = contactWidgets s
     ∧ contactChatForms s2 = delete id (contactChatForms s)
     ∧ layoutOnline s2 = layoutOnline s
     ∧ layoutOffline s2 = layoutOffline s
     ∧ groupLayout s2 = groupLayout s
     ∧ layouts s2 = layouts s)
  ∧ (∃ w s1 s2,
       addGroup closestSortedIndex id form s = Some (w, s1)
       ∧ removeGroup id s1 = Some s2
       ∧ contactWidgets s2 = contactWidgets s
       ∧ contactChatForms s2 = delete id (contactChatForms s)
       ∧ layoutOnline s2 = layoutOnline s
       ∧ layoutOffline s2 = layoutOffline s
       ∧ groupLayout s2 = groupLayout s
       ∧ layouts s2 = layouts s).
Proof.
  intros Hwf Hnone. split; [intros status|].
  - pose proof (wf_fresh s FriendWidget id Hwf) as Hfresh.
    destruct (addFriend_wf closestSortedIndex id status form s Hwf Hnone)
      as (w & s1 & Hadd & Hwf1 & Hcw1 & Hk).
    destruct (addFriend_returns closestSortedIndex id status form s)
      as (s1' & Hadd' & _ & _ & Hcf1 & Hl1 & _ & _ & Hg1 & Hon1 & Hoff1).
    assert (s1' = s1 ∧ mkWidget (heapNext s) FriendWidget id = w) as [-> Ew]
      by (split; congruence).
    rewrite Ew in *. clear Ew.
    unfold allWidgets in Hfresh. rewrite !elem_of_app in Hfresh.
    cbv zeta in Hon1, Hoff1.
    rewrite (removeSortedWidget_not_elem w (layoutOnline s)) in Hon1 by tauto.
    rewrite (removeSortedWidget_not_elem w (layoutOffline s)) in Hoff1 by tauto.
    assert (Hw1 : contactWidgets s1 !! id = Some (Some w))
      by by rewrite Hcw1, lookup_insert_eq.
    destruct (removeContact_fields s1 id w Hwf1 Hw1)
      as (_ & s2 & _ & Hrem & _ & _ & Hcw2 & Hcf2 & Hon2 & Hg2 & Hoff2 & Hl2 & _).
    rewrite Hk in Hrem. simpl in Hrem.
    exists w, s1, s2. split; [done|]. split; [done|].
    split; [by rewrite Hcw2, Hcw1, delete_insert_id|].
    split; [by rewrite Hcf2, Hcf1, delete_insert_eq|].
    split; [|split; [|split; [|congruence]]].
    + rewrite Hon2, Hon1. destruct status.
      * apply filter_addSortedWidget. tauto.
      * apply filter_ne_id. tauto.
    + rewrite Hoff2, Hoff1. destruct status.
      * apply filter_ne_id. tauto.
      * apply filter_addSortedWidget. tauto.
    + rewrite Hg2, Hg1. apply filter_ne_id. tauto.
  - pose proof (wf_fresh s GroupWidget id Hwf) as Hfresh.
    destruct (addGroup_wf closestSortedIndex id form s Hwf Hnone)
      as (w & s1 & Hadd & Hwf1 & Hcw1 & Hk).
    destruct (addGroup_returns closestSortedIndex id form s)
      as (s1' & Hadd' & _ & _ & Hcf1 & Hl1 & _ & _ & Hg1 & Hon1 & Hoff1).
    assert (s1' = s1 ∧ mkWidget (heapNext s) GroupWidget id = w) as [-> Ew]
      by (split; congruence).
    rewrite Ew in *. clear Ew.
    unfold allWidgets in Hfresh. rewrite !elem_of_app in Hfresh.
    assert (Hw1 : contactWidgets s1 !! id = Some (Some w))
      by by rewrite Hcw1, lookup_insert_eq.
    destruct (removeContact_fields s1 id w Hwf1 Hw1)
      as (_ & s2 & _ & Hrem & _ & _ & Hcw2 & Hcf2 & Hon2 & Hg2 & Hoff2 & Hl2 & _).
    rewrite Hk in Hrem. simpl in Hrem.
    exists w, s1, s2. split; [done|]. split; [done|].
    split; [by rewrite Hcw2, Hcw1, delete_insert_id|].
    split; [by rewrite Hcf2, Hcf1, delete_insert_eq|].
    split; [|split; [|split; [|congruence]]].
    + rewrite Hon2, Hon1. apply filter_ne_id. tauto.
    + rewrite Hoff2, Hoff1. apply filter_ne_id. tauto.
    + rewrite Hg2, Hg1. apply filter_addSortedWidget. tauto.
Qed.

(** X20: a drag of a friend that the directory knows is accepted by a
    well-formed dialog that does not manage the friend, rejected once the
    friend has been added, and accepted again once it has been removed. *)
Theorem drag_follows_membership findFriend findGroup toxPk id status form s :
  wf s → contactWidgets s !! id = None → findFriend toxPk = Some id →
  ∃ w s1 s2,
    addFriend closestSortedIndex id status form s = Some (w, s1)
    ∧ removeFriend id s1 = Some s2
    ∧ dragEnterEvent findFriend findGroup s (DragFriend toxPk) = true
    ∧ dragEnterEvent findFriend findGroup s1 (DragFriend toxPk) = false
    ∧ dragEnterEvent findFriend findGroup s2 (DragFriend toxPk) = true.
Proof.
  intros Hwf Hnone Hfind.
  destruct (addFriend_wf closestSortedIndex id status form s Hwf Hnone)
    as (w & s1 & Hadd & Hwf1 & Hcw1 & Hk).
  assert (Hw1 : contactWidgets s1 !! id = Some (Some w))
    by by rewrite Hcw1, lookup_insert_eq.
  destruct (removeContact_fields s1 id w Hwf1 Hw1)
    as (_ & s2 & _ & Hrem & _ & _ & Hcw2 & _).
  rewrite Hk in Hrem. simpl in Hrem.
  exists w, s1, s2. split; [done|]. split; [done|].
  unfold dragEnterEvent, hasContact. rewrite Hfind.
  rewrite Hcw2, lookup_delete_eq, Hw1, Hnone.
  rewrite (bool_decide_eq_true_2 (is_Some (Some (Some w)))) by by eexists.
  rewrite (bool_decide_eq_false_2 (is_Some None)) by by intros [? ?].
  done.
Qed.

End AddRemove.

Lemma add_remove_round_trip_witness :
  contactWidgets dialogABG !! "C" = None
  ∧ ∃ w s1 s2,
      addFriend appendIndex "C" Online 13%nat dialogABG = Some (w, s1)
      ∧ removeFriend "C" s1 = Some s2
      ∧ contactWidgets s2 = contactWidgets dialogABG
      ∧ layoutOnline s2 = layoutOnline dialogABG.
Proof.
  split; [reflexivity|].
  destruct (add_remove_round_trip appendIndex dialogABG "C" 13%nat
              dialogABG_wf eq_refl) as [H _].
  destruct (H Online) as (w & s1 & s2 & Hadd & Hrem & Hcw & _ & Hon & _).
  exists w, s1, s2. split; [exact Hadd|]. split; [exact Hrem|].
  split; [exact Hcw|exact Hon].
Defined.

Lemma drag_follows_membership_witness :
  contactWidgets dialogABG !! "C" = None
  ∧ ∃ w s1 s2,
      addFriend appendIndex "C" Online 13%nat dialogABG = Some (w, s1)
      ∧ removeFriend "C" s1 = Some s2
      ∧ dragEnterEvent Some Some dialogABG (DragFriend "C") = true
      ∧ dragEnterEvent Some Some s1 (DragFriend "C") = false
      ∧ dragEnterEvent Some Some s2 (DragFriend "C") = true.
Proof.
  split; [reflexivity|].
  exact (drag_follows_membership appendIndex Some Some "C" "C" Online 13%nat
           dialogABG dialogABG_wf eq_refl eq_refl).
Defined.

(** ** Dropping a contact *)

(** X21: a drop whose drag the dialog accepted emits the request to add
    the contact the directory finds for the dragged id, which the dialog
    does not manage; a drag whose source is neither a friend widget nor a
    group widget is never accepted. *)
Theorem dropEvent_after_accept findFriend findGroup s event :
  dragEnterEvent findFriend findGroup s event = true →
  match event with
  | DragFriend toxPk =>
      ∃ contact, findFriend toxPk = Some contact
        ∧ hasContact s contact = false
        ∧ dropEvent findFriend findGroup event = Some (AddFriendDialog contact)
  | DragGroup groupId =>
      ∃ contact, findGroup groupId = Some contact
        ∧ hasContact s groupId = false
        ∧ dropEvent findFriend findGroup event = Some (AddGroupDialog contact)
  | DragOther => False
  end.
Proof.
  destruct event as [toxPk|groupId|]; simpl; [| |done].
  - destruct (findFriend toxPk) as [contact|]; [|done].
    intros H%negb_true_iff. by exists contact.
  - destruct (findGroup groupId) as [contact|]; [|done].
    intros H%negb_true_iff. by exists contact.
Qed.

Lemma dropEvent_after_accept_witness :
  dragEnterEvent Some Some dialogABG (DragFriend "C") = true
  ∧ ∃ contact, hasContact dialogABG contact = false
      ∧ dropEvent Some Some (DragFriend "C") = Some (AddFriendDialog contact).
Proof.
  split; [reflexivity|].
  destruct (dropEvent_after_accept Some Some dialogABG (DragFriend "C") eq_refl)
    as (contact & _ & Hhas & Hdrop).
  exists contact. split; [exact Hhas|exact Hdrop].
Defined.

(** ** The number of chatrooms *)

(** X22: on a well-formed dialog [chatroomCount] is the number of managed
    contacts, and it is zero exactly when no contact is managed. *)
Theorem chatroomCount_managed s :
  wf s →
  chatroomCount s = Z.of_nat (size (contactWidgets s))
  ∧ (chatroomCount s = 0 ↔ contactWidgets s = ∅).
Proof.
  intros Hwf. rewrite chatroomCount_allWidgets, <- (wf_size s Hwf).
  split; [done|]. rewrite <- map_size_empty_iff. lia.
Qed.

Lemma chatroomCount_managed_witness :
  wf dialogABG ∧ chatroomCount dialogABG = 3.
Proof.
  split; [apply dialogABG_wf|].
  destruct (chatroomCount_managed dialogABG dialogABG_wf) as [H _].
  rewrite H. reflexivity.
Defined.

(** ** The video surface *)

Section VideoSurface.

Variable setMinimumSize : QSize → QSize.
Variable nullSize : QSize.

Lemma showAll_cons size sizes v :
  showAll setMinimumSize (size :: sizes) v
  = showAll setMinimumSize sizes (onVideoShow setMinimumSize size v).
Proof. done. Qed.

Lemma hideN_S k v :
  hideN setMinimumSize nullSize (S k) v
  = onVideoHide setMinimumSize nullSize (hideN setMinimumSize nullSize k v).
Proof. done. Qed.

Lemma showAll_running sizes c vs m :
  1 ≤ c →
  showAll setMinimumSize sizes (mkVideo c vs m)
  = mkVideo (c + Z.of_nat (length sizes)) vs m.
Proof.
  revert c. induction sizes as [|size sizes IH]; intros c Hc.
  - simpl. f_equal. lia.
  - rewrite showAll_cons. unfold onVideoShow.
    cbn [videoCount videoSurfaceSize minimumSize].
    replace (c + 1 >? 1) with true by (symmetry; apply Z.gtb_lt; lia).
    rewrite IH by lia. f_equal. simpl length. lia.
Qed.

Lemma hideN_running k c vs m :
  Z.of_nat k < c →
  hideN setMinimumSize nullSize k (mkVideo c vs m)
  = mkVideo (c - Z.of_nat k) vs m.
Proof.
  induction k as [|k IH]; intros Hk.
  - simpl. f_equal. lia.
  - rewrite hideN_S, IH by lia.
    unfold onVideoHide. cbn [videoCount videoSurfaceSize minimumSize].
    replace (c - Z.of_nat k - 1 >? 0) with true by (symmetry; apply Z.gtb_lt; lia).
    f_equal. lia.
Qed.

Lemma size_sub_add m sz : size_sub (size_add m sz) sz = m.
Proof. destruct m, sz. unfold size_sub, size_add. simpl. f_equal; lia. Qed.

(** X23: when no video is shown and videos are then shown one after the
    other, only the size of the first is added to the minimum size of the
    window; hiding fewer videos than were shown changes nothing but the
    count, and hiding as many gives back the minimum size the window had
    and forgets the surface size. The toolkit is taken to keep the two
    minimum sizes it is given, and the count and the sizes to stay in the
    range of [int]. *)
Theorem video_minimum_size_restored v sz rest :
  videoCount v = 0 →
  setMinimumSize (size_add (minimumSize v) sz) = size_add (minimumSize v) sz →
  setMinimumSize (minimumSize v) = minimumSize v →
  Z.of_nat (length (sz :: rest)) < 2 ^ 31 →
  - 2 ^ 31 ≤ sizeWidth (minimumSize v) + sizeWidth sz < 2 ^ 31 →
  - 2 ^ 31 ≤ sizeHeight (minimumSize v) + sizeHeight sz < 2 ^ 31 →
  let n := length (sz :: rest) in
  let shown := mkVideo (Z.of_nat n) sz (size_add (minimumSize v) sz) in
  showAll setMinimumSize (sz :: rest) v = shown
  ∧ (∀ k, (k < n)%nat →
       hideN setMinimumSize nullSize k shown
       = mkVideo (Z.of_nat (n - k)) sz (size_add (minimumSize v) sz))
  ∧ hideN setMinimumSize nullSize n shown = mkVideo 0 nullSize (minimumSize v).
Proof.
  intros Hcount Hset1 Hset2 _ _ _ n shown.
  assert (Hhide : ∀ k, (k < n)%nat →
            hideN setMinimumSize nullSize k shown
            = mkVideo (Z.of_nat (n - k)) sz (size_add (minimumSize v) sz)).
  { intros k Hk. unfold shown. rewrite hideN_running by lia. f_equal. lia. }
  split; [|split; [done|]].
  - destruct v as [c vs m]. cbn [videoCount minimumSize] in *. subst c.
    rewrite showAll_cons. unfold onVideoShow.
    cbn [videoCount videoSurfaceSize minimumSize].
    change (0 + 1 >? 1) with false. cbv iota zeta.
    rewrite Hset1, showAll_running by lia.
    unfold shown, n. f_equal. simpl length. lia.
  - unfold n at 1. simpl length. rewrite hideN_S.
    rewrite (Hhide (length rest)) by (unfold n; simpl; lia).
    unfold onVideoHide. cbn [videoCount videoSurfaceSize minimumSize].
    replace (Z.of_nat (n - length rest) - 1 >? 0) with false
      by (symmetry; rewrite Z.gtb_ltb; apply Z.ltb_ge; unfold n; simpl length; lia).
    rewrite size_sub_add, Hset2. f_equal. unfold n. simpl length. lia.
Qed.

End VideoSurface.

Lemma video_minimum_size_restored_witness :
  let v := mkVideo 0 (mkSize (-1) (-1)) (mkSize 775 420) in
  let sizes := [mkSize 640 480; mkSize 320 240] in
  showAll id sizes v = mkVideo 2 (mkSize 640 480) (mkSize 1415 900)
  ∧ hideN id (mkSize (-1) (-1)) 2 (showAll id sizes v)
    = mkVideo 0 (mkSize (-1) (-1)) (mkSize 775 420).
Proof.
  destruct (video_minimum_size_restored id (mkSize (-1) (-1))
              (mkVideo 0 (mkSize (-1) (-1)) (mkSize 775 420))
              (mkSize 640 480) [mkSize 320 240]
              eq_refl eq_refl eq_refl)
    as (Hshow & _ & Hhide); [simpl; lia|simpl; lia|simpl; lia|].
  split; [exact Hshow|]. cbv zeta. rewrite Hshow. exact Hhide.
Defined.
